(** * ThenFail v0.3 core: a model of [src/thenfail.ts]

    The promise engine is embedded as a state machine over a store of
    [Promise] objects.  Object references are indices into the store, so
    that the aliasing between a promise, the promises chained on it and
    the promises that adopted it is kept.  [setImmediate] is a FIFO queue
    of tasks, and the [callback] variable captured by the two closures
    that [_unpack] hands to a foreign [then] is a cell of its own.

    The code around the engine is modelled by what the engine sees of
    it.  A handler is a function from its argument to the value it
    returns or throws.  A foreign [then] is the sequence of callback
    calls it makes before it returns or throws; the callbacks it calls
    later are operations of their own ([call_resolve], [call_reject]).

    No procedure of the engine throws.  The procedures return an
    [option] because [_relay] recurses through the store and is given a
    bound on its depth: [None] is that bound being reached, which with
    the bound the operations pass, the number of pending promises, does
    not happen ([step_total]).  A reference that names no object is
    skipped by the procedures; no closed world holds one
    ([closed_steps]). *)

From stdpp Require Import base option list numbers strings.

Module ThenFail.

(** ** Values *)

(** A reference to a [Promise] instance. *)
Abbreviation id := nat (only parsing).

(** [const enum State]. *)
Inductive State := pending | fulfilled | rejected.

Definition is_pending (s : State) : bool :=
  match s with pending => true | _ => false end.

(** The callbacks a foreign [then] may call: the two it has just been
    handed, or two it was handed in an earlier call and kept (named by
    the cell of that call). *)
Inductive callee :=
| OwnResolve
| OwnReject
| KeptResolve (c : nat)
| KeptReject (c : nat).

(** JavaScript values, as far as [_unpack] tells them apart.  [VObject]
    is an object or function that is not a [Promise] instance; all that
    [_unpack] observes of it is its [then] member.  [VError] is an error
    object, which has no [then].  A [script] is what a foreign [then]
    does while it runs: it calls callbacks, then returns or throws. *)
Inductive value :=
| VUndefined
| VNull
| VBool (b : bool)
| VNum (z : Z)
| VStr (s : string)
| VError (name message : string)
| VPromise (p : id)
| VObject (m : then_member)
with then_member :=
| ThenThrows (e : value)
| ThenNotFn
| ThenFn (body : script)
with script :=
| SReturn
| SThrow (e : value)
| SCall (f : callee) (arg : value) (k : script).

(** [new TypeError('The promise should not return itself')]. *)
Definition self_error : value :=
  VError "TypeError" "The promise should not return itself".

(** What calling a handler gives: a returned value or a thrown one. *)
Inductive outcome := Return (v : value) | Throw (e : value).

(** A handler function.  [hname] tells apart two functions with the
    same body. *)
Record handler := Handler { hname : nat; hbody : value → outcome }.

(** An argument of [then]: a function, or anything else. *)
Inductive jsarg := AFn (h : handler) | AVal (v : value).

(** [typeof a === 'function']. *)
Definition as_function (a : jsarg) : option handler :=
  match a with AFn h => Some h | AVal _ => None end.

(** ** Objects *)

Record Promise := mkPromise {
  _state : State;
  _running : bool;
  _valueOrReason : value;
  _chainedPromise : option id;
  _chainedPromises : option (list id);
  _handledPromise : option id;
  _handledPromises : option (list id);
  _onPreviousFulfilled : option handler;
  _onPreviousRejected : option handler }.

(** The object the constructor leaves when it is given no resolver. *)
Definition fresh : Promise :=
  mkPromise pending false VUndefined None None None None None None.

(** The two continuations that are ever passed to [_unpack]:
    [(state, v) => this._grab(state, v)] of [resolve], and
    [(state, v) => { this._relay(state, v); this._running = false; }]
    of [_run]. *)
Inductive cont := KGrab (p : id) | KRelay (p : id).

(** A closure given to [setImmediate] by [_run]. *)
Inductive task := TRun (this : id) (h : handler) (x : value).

(** The state of the program: the promises, indexed by their
    references; the [callback] variables, indexed in the order the calls
    of foreign [then]s made them; the tasks [setImmediate] holds, oldest
    first; and the handler calls made so far, oldest first. *)
Record world := World {
  heap : list Promise;
  cells : list (option (id * cont));
  queue : list task;
  log : list task }.

Definition empty : world := World [] [] [] [].

Definition with_heap (h : list Promise) (w : world) : world :=
  World h (cells w) (queue w) (log w).
Definition with_cells (c : list (option (id * cont))) (w : world) : world :=
  World (heap w) c (queue w) (log w).
Definition with_queue (q : list task) (w : world) : world :=
  World (heap w) (cells w) q (log w).
Definition with_log (l : list task) (w : world) : world :=
  World (heap w) (cells w) (queue w) l.

Definition store (p : id) (x : Promise) (w : world) : world :=
  with_heap (<[p := x]> (heap w)) w.

Definition modify (p : id) (f : Promise → Promise) (w : world) : world :=
  match heap w !! p with
  | Some x => store p (f x) w
  | None => w
  end.

(** Field updates. *)
Definition set_state (s : State) (v : value) (x : Promise) : Promise :=
  mkPromise s (_running x) v
    (_chainedPromise x) (_chainedPromises x)
    (_handledPromise x) (_handledPromises x)
    (_onPreviousFulfilled x) (_onPreviousRejected x).

Definition set_running (b : bool) (x : Promise) : Promise :=
  mkPromise (_state x) b (_valueOrReason x)
    (_chainedPromise x) (_chainedPromises x)
    (_handledPromise x) (_handledPromises x)
    (_onPreviousFulfilled x) (_onPreviousRejected x).

Definition set_chained (one : option id) (many : option (list id))
    (x : Promise) : Promise :=
  mkPromise (_state x) (_running x) (_valueOrReason x)
    one many
    (_handledPromise x) (_handledPromises x)
    (_onPreviousFulfilled x) (_onPreviousRejected x).

Definition set_handled (one : option id) (many : option (list id))
    (x : Promise) : Promise :=
  mkPromise (_state x) (_running x) (_valueOrReason x)
    (_chainedPromise x) (_chainedPromises x)
    one many
    (_onPreviousFulfilled x) (_onPreviousRejected x).

Definition set_handlers (f r : option handler) (x : Promise) : Promise :=
  mkPromise (_state x) (_running x) (_valueOrReason x)
    (_chainedPromise x) (_chainedPromises x)
    (_handledPromise x) (_handledPromises x)
    f r.

(** The one-slot-or-array pair of fields, read in the order the code
    tests them: the single slot first, else the array. *)
Definition slots {A} (one : option A) (many : option (list A)) : list A :=
  match one with
  | Some x => [x]
  | None => default [] many
  end.

(** Adding to such a pair, as [then] and [_unpack] do. *)
Definition link {A} (x : A) (one : option A) (many : option (list A))
    : option A * option (list A) :=
  match one with
  | Some y => (None, Some [y; x])
  | None =>
      match many with
      | Some l => (None, Some (l ++ [x]))
      | None => (Some x, None)
      end
  end.

Definition successors (p : id) (w : world) : list id :=
  match heap w !! p with
  | Some x => slots (_chainedPromise x) (_chainedPromises x)
  | None => []
  end.

Definition adopters (p : id) (w : world) : list id :=
  match heap w !! p with
  | Some x => slots (_handledPromise x) (_handledPromises x)
  | None => []
  end.

(** The clean-up at the end of [_relay]. *)
Definition release (x : Promise) : Promise :=
  mkPromise (_state x) (_running x) (_valueOrReason x)
    None
    (match _chainedPromise x with Some _ => _chainedPromises x | None => None end)
    None
    (match _handledPromise x with Some _ => _handledPromises x | None => None end)
    None None.

(** ** The relay *)

(** [for (let promise of ...) f(promise)], stopping when [f] fails. *)
Definition each (f : id → world → option world)
    : list id → world → option world :=
  fix go l w :=
    match l with
    | [] => Some w
    | c :: l' => w' ← f c w; go l' w'
    end.

(** [_run]: mark the promise as running and queue the handler call. *)
Definition _run (this : id) (h : handler) (x : value) (w : world) : world :=
  let w1 := modify this (set_running true) w in
  with_queue (queue w1 ++ [TRun this h x]) w1.

(** The handler [_grab] picks for the state it is given. *)
Definition handler_for (previousState : State) (x : Promise) : option handler :=
  match previousState with
  | fulfilled => _onPreviousFulfilled x
  | rejected => _onPreviousRejected x
  | pending => None
  end.

(** [_grab], over the [_relay] it calls. *)
Definition grab_with (relay : id → State → value → world → option world)
    (this : id) (previousState : State) (previousValueOrReason : value)
    (w : world) : option world :=
  match heap w !! this with
  | None => Some w
  | Some x =>
      if is_pending (_state x) then
        match handler_for previousState x with
        | Some h => Some (_run this h previousValueOrReason w)
        | None => relay this previousState previousValueOrReason w
        end
      else Some w
  end.

(** [_relay].  The recursion follows the chained and the adopting
    promises through the store; [n] bounds its depth, and [None] is the
    bound being reached. *)
Fixpoint _relay (n : nat) (this : id) (state : State) (valueOrReason : value)
    (w : world) {struct n} : option world :=
  match heap w !! this with
  | None => Some w
  | Some x =>
      if is_pending (_state x) then
        match n with
        | O => None
        | S n' =>
            let w1 := store this (set_state state valueOrReason x) w in
            w2 ← each (λ c, grab_with (_relay n') c state valueOrReason)
                     (successors this w1) w1;
            w3 ← each (λ c, _relay n' c state valueOrReason)
                     (adopters this w2) w2;
            Some (modify this release w3)
        end
      else Some w
  end.

Definition _grab (n : nat) : id → State → value → world → option world :=
  grab_with (_relay n).

(** Invoking a continuation. *)
Definition callk (n : nat) (k : cont) (state : State) (v : value) (w : world)
    : option world :=
  match k with
  | KGrab p => _grab n p state v w
  | KRelay p =>
      w' ← _relay n p state v w;
      Some (modify p (set_running false) w')
  end.

(** ** The resolve process *)

(** The [callback] variable of an [_unpack] activation whose two closures
    went to a foreign [then], together with the [this] they close over. *)
Definition alloc_cell (this : id) (k : cont) (w : world) : world :=
  with_cells (cells w ++ [Some (this, k)]) w.

(** [callback = undefined]. *)
Definition clear_cell (c : nat) (w : world) : world :=
  with_cells (<[c := None]> (cells w)) w.

(** The first closure, [(value) => { if (callback) { this._unpack(value,
    callback); callback = undefined; } }], over the [_unpack] of its
    argument. *)
Definition resolve_cb (unpack_arg : id → cont → world → option world)
    (c : nat) (w : world) : option world :=
  match cells w !! c with
  | Some (Some (this, k)) =>
      w' ← unpack_arg this k w;
      Some (clear_cell c w')
  | _ => Some w
  end.

(** The second closure, [(reason) => { if (callback) { callback(State.rejected,
    reason); callback = undefined; } }]; the [catch] block has the same
    body. *)
Definition reject_cb (n : nat) (c : nat) (reason : value) (w : world)
    : option world :=
  match cells w !! c with
  | Some (Some (_, k)) =>
      w' ← callk n k rejected reason w;
      Some (clear_cell c w')
  | _ => Some w
  end.

(** Registering [this] with the pending promise [q] it resolved with. *)
Definition adopt (q this : id) (x : Promise) (w : world) : world :=
  let '(one, many) := link this (_handledPromise x) (_handledPromises x) in
  store q (set_handled one many x) w.

(** [_unpack], with [run_then] for the call [then.call(value, ..., ...)]
    inside its [try] block: [c] is the cell of the two closures passed.
    The branches are those of the code in its order: [this === value];
    [value instanceof Promise], pending or not; an object, whose [then]
    throws when read (the [catch] block, with [callback] still set), is
    no function (the [switch] falls through to [default]) or is called;
    and every other value, which is fulfilled with, whether it is truthy
    ([default]) or not (the last [else]). *)
Fixpoint _unpack (n : nat) (this : id) (v : value) (callback : cont)
    (w : world) {struct v} : option world :=
  match v with
  | VPromise q =>
      if Nat.eqb q this then callk n callback rejected self_error w
      else
        match heap w !! q with
        | None => Some w
        | Some x =>
            if is_pending (_state x) then Some (adopt q this x w)
            else callk n callback (_state x) (_valueOrReason x) w
        end
  | VObject m =>
      match m with
      | ThenThrows e => callk n callback rejected e w
      | ThenNotFn => callk n callback fulfilled v w
      | ThenFn body =>
          run_then n (length (cells w)) body (alloc_cell this callback w)
      end
  | VUndefined | VNull | VBool _ | VNum _ | VStr _ | VError _ _ =>
      callk n callback fulfilled v w
  end
with run_then (n : nat) (c : nat) (body : script) (w : world)
    {struct body} : option world :=
  match body with
  | SReturn => Some w
  | SThrow e => reject_cb n c e w
  | SCall f arg k =>
      w' ← match f with
           | OwnResolve => resolve_cb (λ this cb, _unpack n this arg cb) c w
           | OwnReject => reject_cb n c arg w
           | KeptResolve c' => resolve_cb (λ this cb, _unpack n this arg cb) c' w
           | KeptReject c' => reject_cb n c' arg w
           end;
      run_then n c k w'
  end.

(** ** The public operations *)

(** The number of pending promises: the depth [_relay] can reach, since
    every activation that passes the guard settles one of them first. *)
Definition pendings (w : world) : nat :=
  length (List.filter (λ x, is_pending (_state x)) (heap w)).

(** [new Promise()], without a resolver. *)
Definition construct (x : Promise) (w : world) : id * world :=
  (length (heap w), with_heap (heap w ++ [x]) w).

(** [then(onfulfilled, onrejected)], with the new promise it returns.
    [this] is read before the new promise is stored, which does not
    change what is read. *)
Definition then_ (this : id) (onfulfilled onrejected : jsarg) (w : world)
    : option (id * world) :=
  match heap w !! this with
  | None => None
  | Some x =>
      let '(promise, w1) :=
        construct (set_handlers (as_function onfulfilled)
                                (as_function onrejected) fresh) w in
      if is_pending (_state x) then
        let '(one, many) :=
          link promise (_chainedPromise x) (_chainedPromises x) in
        Some (promise, store this (set_chained one many x) w1)
      else
        w2 ← _grab (pendings w1) promise (_state x) (_valueOrReason x) w1;
        Some (promise, w2)
  end.

(** [resolve(value)]. *)
Definition resolve (this : id) (v : value) (w : world) : option world :=
  _unpack (pendings w) this v (KGrab this) w.

(** [reject(reason)]. *)
Definition reject (this : id) (reason : value) (w : world) : option world :=
  _grab (pendings w) this rejected reason w.

(** The resolver given to the constructor, run with the two closures
    [value => this.resolve(value)] and [reason => this.reject(reason)]:
    like a foreign [then] it is the calls it makes before it returns or
    throws, and what it throws is caught and rejects [this]. *)
Fixpoint run_resolver (n : nat) (this : id) (body : script) (w : world)
    : option world :=
  match body with
  | SReturn => Some w
  | SThrow error => _grab n this rejected error w
  | SCall f arg k =>
      w' ← match f with
           | OwnResolve => _unpack n this arg (KGrab this) w
           | OwnReject => _grab n this rejected arg w
           | KeptResolve c => resolve_cb (λ this cb, _unpack n this arg cb) c w
           | KeptReject c => reject_cb n c arg w
           end;
      run_resolver n this k w'
  end.

(** [new Promise(resolver)]; [None] is an argument that is no
    function. *)
Definition new_Promise (resolver : option script) (w : world)
    : option (id * world) :=
  let '(promise, w1) := construct fresh w in
  match resolver with
  | Some body => w2 ← run_resolver (pendings w1) promise body w1; Some (promise, w2)
  | None => Some (promise, w1)
  end.

(** [static resolve(value)]. *)
Definition Promise_resolve (v : value) (w : world) : option (id * world) :=
  match v with
  | VPromise q => Some (q, w)
  | _ =>
      let '(promise, w1) := construct fresh w in
      w2 ← resolve promise v w1;
      Some (promise, w2)
  end.

(** [static reject(reason)]. *)
Definition Promise_reject (reason : value) (w : world) : option (id * world) :=
  let '(promise, w1) := construct fresh w in
  w2 ← reject promise reason w1;
  Some (promise, w2).

(** A task leaves the queue and its handler call is recorded. *)
Definition begin_task (t : task) (q : list task) (w : world) : world :=
  with_log (log w ++ [t]) (with_queue q w).

(** The event loop runs the oldest [setImmediate] closure, the one
    [_run] built: the handler is called, and what it returns or throws
    settles [this]. *)
Definition tick (w : world) : option world :=
  match queue w with
  | [] => Some w
  | TRun this h x :: q =>
      let w1 := begin_task (TRun this h x) q w in
      match hbody h x with
      | Throw error => callk (pendings w1) (KRelay this) rejected error w1
      | Return ret => _unpack (pendings w1) this ret (KRelay this) w1
      end
  end.

(** Foreign code calling, after its [then] has returned, a callback it
    was handed. *)
Definition call_resolve (c : nat) (v : value) (w : world) : option world :=
  resolve_cb (λ this cb, _unpack (pendings w) this v cb) c w.

Definition call_reject (c : nat) (reason : value) (w : world) : option world :=
  reject_cb (pendings w) c reason w.

(** What the program around the engine can do, one operation at a time.
    A handler is a function of its argument alone; what a handler body
    does to promises besides returning is the same operations, done
    before its task. *)
Inductive op :=
| ONew
| OThen (p : id) (onfulfilled onrejected : jsarg)
| OResolve (p : id) (v : value)
| OReject (p : id) (reason : value)
| OTick
| OCallResolve (c : nat) (v : value)
| OCallReject (c : nat) (reason : value).

Definition step (o : op) (w : world) : option world :=
  match o with
  | ONew => Some (construct fresh w).2
  | OThen p f r => snd <$> then_ p f r w
  | OResolve p v => resolve p v w
  | OReject p r => reject p r w
  | OTick => tick w
  | OCallResolve c v => call_resolve c v w
  | OCallReject c r => call_reject c r w
  end.

Fixpoint steps (os : list op) (w : world) : option world :=
  match os with
  | [] => Some w
  | o :: os' => w' ← step o w; steps os' w'
  end.

(** [this.then(h1, r1); ...; this.then(hN, rN)], with the futures
    returned. *)
Fixpoint attach_all (this : id) (hs : list (handler * jsarg)) (w : world)
    : option (list id * world) :=
  match hs with
  | [] => Some ([], w)
  | (h, r) :: hs' =>
      '(d, w1) ← then_ this (AFn h) r w;
      '(ds, w2) ← attach_all this hs' w1;
      Some (d :: ds, w2)
  end.

(** Reading a promise. *)
Definition state_of (p : id) (w : world) : option State :=
  _state <$> heap w !! p.

Definition result_of (p : id) (w : world) : option value :=
  _valueOrReason <$> heap w !! p.


(** * Properties *)

(** ** The store *)

Section store_facts.
Implicit Types (w : world) (p q : id) (x y : Promise).

Lemma heap_store p y w : heap (store p y w) = <[p := y]> (heap w).
Proof. reflexivity. Qed.

Lemma lookup_store_eq p x y w :
  heap w !! p = Some x → heap (store p y w) !! p = Some y.
Proof.
  intros Hx. rewrite heap_store. apply list_lookup_insert_eq.
  eapply lookup_lt_Some, Hx.
Qed.

Lemma lookup_store_ne p q y w :
  p ≠ q → heap (store p y w) !! q = heap w !! q.
Proof. intros Hne. rewrite heap_store. by apply list_lookup_insert_ne. Qed.

Lemma length_store p y w : length (heap (store p y w)) = length (heap w).
Proof. rewrite heap_store. apply length_insert. Qed.

Lemma lookup_store p q x y w :
  heap w !! p = Some x →
  heap (store p y w) !! q = if decide (p = q) then Some y else heap w !! q.
Proof.
  intros Hx. case_decide as Hpq.
  - subst q. by eapply lookup_store_eq.
  - by apply lookup_store_ne.
Qed.

Lemma count_insert (f : Promise → bool) (l : list Promise) p x y :
  l !! p = Some x →
  length (List.filter f (<[p := y]> l)) + (if f x then 1 else 0)
  = length (List.filter f l) + (if f y then 1 else 0).
Proof.
  revert p. induction l as [|a l IH]; intros [|p] Hx; simplify_eq/=.
  - destruct (f x), (f y); simpl; lia.
  - specialize (IH p Hx). destruct (f a); simpl; [f_equal|]; exact IH.
Qed.

Lemma pendings_store p x y w :
  heap w !! p = Some x →
  pendings (store p y w) + (if is_pending (_state x) then 1 else 0)
  = pendings w + (if is_pending (_state y) then 1 else 0).
Proof.
  intros Hx. unfold pendings. rewrite heap_store.
  by apply (count_insert (λ x, is_pending (_state x))).
Qed.

Lemma pendings_store_same p x y w :
  heap w !! p = Some x → _state y = _state x →
  pendings (store p y w) = pendings w.
Proof.
  intros Hx Hs. pose proof (pendings_store p x y w Hx) as H.
  rewrite Hs in H. revert H. destruct (is_pending (_state x)); simpl; lia.
Qed.

Lemma pendings_construct x w :
  pendings (construct x w).2
  = pendings w + (if is_pending (_state x) then 1 else 0).
Proof.
  unfold pendings, construct. simpl. rewrite List.filter_app, length_app.
  simpl. destruct (is_pending (_state x)); reflexivity.
Qed.
End store_facts.


(** ** What the engine may change *)

Definition settled (x : Promise) : Prop := is_pending (_state x) = false.

Definition settled_in (d : id) (w : world) : Prop :=
  ∀ y, heap w !! d = Some y → settled y.

(** A chained promise has been served with state [st] when it is settled
    or holds the handler [_grab] runs for [st]. *)
Definition served (st : State) (d : id) (w : world) : Prop :=
  ∀ y, heap w !! d = Some y → settled y ∨ is_Some (handler_for st y).

Definition kept (x x' : Promise) : Prop :=
  _state x' = _state x ∧ _valueOrReason x' = _valueOrReason x.

Definition same_links (x x' : Promise) : Prop :=
  _chainedPromise x' = _chainedPromise x
  ∧ _chainedPromises x' = _chainedPromises x
  ∧ _handledPromise x' = _handledPromise x
  ∧ _handledPromises x' = _handledPromises x
  ∧ _onPreviousFulfilled x' = _onPreviousFulfilled x
  ∧ _onPreviousRejected x' = _onPreviousRejected x.

(** Across any operation: every promise is still there, and a settled
    one has kept its state and its result. *)
Definition mono (w w' : world) : Prop :=
  ∀ p x, heap w !! p = Some x →
    ∃ x', heap w' !! p = Some x' ∧ (settled x → kept x x').

(** Across the engine's own procedures: no promise is created, none
    goes back to pending, the queue only grows at its end, and no
    handler is called. *)
Record internal (w w' : world) : Prop := {
  in_length : length (heap w') = length (heap w);
  in_pendings : pendings w' ≤ pendings w;
  in_queue : ∃ extra, queue w' = queue w ++ extra;
  in_log : log w' = log w;
  in_mono : mono w w';
  in_cells : length (cells w) ≤ length (cells w') }.

(** Across one call of [_relay] or [_grab] with state [st] and result
    [v]: whatever gets settled gets exactly [st] and [v], and with it
    the promises that adopted it; the promises chained on it are
    settled too or have their handler for [st]. *)
Record relayed (st : State) (v : value) (w w' : world) : Prop := {
  rl_internal : internal w w';
  rl_cells : cells w' = cells w;
  rl_settled : ∀ p x x', heap w !! p = Some x → heap w' !! p = Some x' →
    settled x → kept x x' ∧ same_links x x';
  rl_pending : ∀ p x x', heap w !! p = Some x → heap w' !! p = Some x' →
    is_pending (_state x') = true → same_links x x';
  rl_now : ∀ p x x', heap w !! p = Some x → heap w' !! p = Some x' →
    is_pending (_state x) = true → settled x' →
    _state x' = st ∧ _valueOrReason x' = v
    ∧ (∀ d, d ∈ slots (_handledPromise x) (_handledPromises x) →
         settled_in d w')
    ∧ (∀ d, d ∈ slots (_chainedPromise x) (_chainedPromises x) →
         served st d w') }.

Section relations.
Implicit Types (w : world) (p q d : id) (x y : Promise).

Lemma kept_refl x : kept x x.
Proof. by split. Qed.

Lemma kept_trans x y z : kept x y → kept y z → kept x z.
Proof. intros [??] [??]. split; congruence. Qed.

Lemma kept_settled x y : kept x y → settled x → settled y.
Proof. intros [Hs _]. unfold settled. by rewrite Hs. Qed.

Lemma same_links_refl x : same_links x x.
Proof. by repeat split. Qed.

Lemma same_links_trans x y z : same_links x y → same_links y z → same_links x z.
Proof.
  unfold same_links. intros (?&?&?&?&?&?) (?&?&?&?&?&?).
  repeat split; congruence.
Qed.

Lemma same_links_handler st x y :
  same_links x y → handler_for st y = handler_for st x.
Proof. intros (?&?&?&?&?&?). by destruct st. Qed.

Lemma not_settled x : is_pending (_state x) = true → settled x → False.
Proof. unfold settled. congruence. Qed.

Lemma settled_or_pending x : settled x ∨ is_pending (_state x) = true.
Proof. unfold settled. destruct (is_pending (_state x)); auto. Qed.

Global Instance mono_preorder : PreOrder mono.
Proof.
  split.
  - intros w p x Hx. exists x. split; [done|]. intros _. apply kept_refl.
  - intros w1 w2 w3 H12 H23 p x Hx.
    destruct (H12 p x Hx) as (y & Hy & Hxy).
    destruct (H23 p y Hy) as (z & Hz & Hyz).
    exists z. split; [done|]. intros Hs.
    eapply kept_trans; [by apply Hxy|]. apply Hyz.
    eapply kept_settled; [by apply Hxy|done].
Qed.

Global Instance internal_preorder : PreOrder internal.
Proof.
  split.
  - intros w. split; try done.
    + by exists []; rewrite app_nil_r.
  - intros w1 w2 w3 [L1 P1 [e1 Q1] G1 M1 C1] [L2 P2 [e2 Q2] G2 M2 C2].
    split.
    + congruence.
    + lia.
    + exists (e1 ++ e2). by rewrite Q2, Q1, app_assoc.
    + congruence.
    + by etrans.
    + lia.
Qed.

(** A promise present after an internal step was present before. *)
Lemma internal_lookup_back w w' d y' :
  internal w w' → heap w' !! d = Some y' → ∃ y, heap w !! d = Some y.
Proof.
  intros Hi Hy. apply lookup_lt_is_Some. rewrite <- (in_length _ _ Hi).
  eapply lookup_lt_Some, Hy.
Qed.

Lemma internal_lookup w w' d y :
  internal w w' → heap w !! d = Some y → ∃ y', heap w' !! d = Some y'.
Proof.
  intros Hi Hy. destruct (in_mono _ _ Hi d y Hy) as (y' & ? & _). eauto.
Qed.

Lemma settled_in_relayed st v w w' d :
  relayed st v w w' → settled_in d w → settled_in d w'.
Proof.
  intros R Hd y' Hy'.
  destruct (internal_lookup_back _ _ _ _ (rl_internal _ _ _ _ R) Hy') as [y Hy].
  destruct (rl_settled _ _ _ _ R d y y' Hy Hy' (Hd y Hy)) as [K _].
  eapply kept_settled; [exact K|]. by apply Hd.
Qed.

Lemma served_relayed st v w w' d :
  relayed st v w w' → served st d w → served st d w'.
Proof.
  intros R Hd y' Hy'.
  destruct (internal_lookup_back _ _ _ _ (rl_internal _ _ _ _ R) Hy') as [y Hy].
  destruct (settled_or_pending y') as [?|Hp]; [by left|].
  pose proof (rl_pending _ _ _ _ R d y y' Hy Hy' Hp) as L.
  destruct (Hd y Hy) as [Hs|Hh].
  - destruct (rl_settled _ _ _ _ R d y y' Hy Hy' Hs) as [K _].
    left. by eapply kept_settled.
  - right. by rewrite (same_links_handler st y y' L).
Qed.

Global Instance relayed_preorder st v : PreOrder (relayed st v).
Proof.
  split.
  - intros w. split.
    + reflexivity.
    + done.
    + intros p x x' Hx Hx' _. simplify_eq.
      split; [apply kept_refl|apply same_links_refl].
    + intros p x x' Hx Hx' _. simplify_eq. apply same_links_refl.
    + intros p x x' Hx Hx' Hp Hs. simplify_eq.
      exfalso. by eapply not_settled.
  - intros w1 w2 w3 R12 R23. split.
    + etrans; [apply R12|apply R23].
    + rewrite (rl_cells _ _ _ _ R23). apply R12.
    + intros p x z Hx Hz Hs.
      destruct (internal_lookup _ _ _ _ (rl_internal _ _ _ _ R12) Hx) as [y Hy].
      destruct (rl_settled _ _ _ _ R12 p x y Hx Hy Hs) as [K1 L1].
      destruct (rl_settled _ _ _ _ R23 p y z Hy Hz) as [K2 L2].
      { by eapply kept_settled. }
      split; [by eapply kept_trans|by eapply same_links_trans].
    + intros p x z Hx Hz Hp.
      destruct (internal_lookup _ _ _ _ (rl_internal _ _ _ _ R12) Hx) as [y Hy].
      pose proof (rl_pending _ _ _ _ R23 p y z Hy Hz Hp) as L2.
      destruct (settled_or_pending y) as [Hs|Hpy].
      { destruct (rl_settled _ _ _ _ R23 p y z Hy Hz Hs) as [K _].
        destruct (not_settled z Hp). by eapply kept_settled. }
      eapply same_links_trans; [|exact L2].
      by eapply (rl_pending _ _ _ _ R12).
    + intros p x z Hx Hz Hp Hs.
      destruct (internal_lookup _ _ _ _ (rl_internal _ _ _ _ R12) Hx) as [y Hy].
      destruct (settled_or_pending y) as [Hsy|Hpy].
      * destruct (rl_now _ _ _ _ R12 p x y Hx Hy Hp Hsy) as (E1 & E2 & A & C).
        destruct (rl_settled _ _ _ _ R23 p y z Hy Hz Hsy) as [[K1 K2] _].
        repeat split; [congruence|congruence| |].
        -- intros d Hd. eapply settled_in_relayed; [exact R23|by apply A].
        -- intros d Hd. eapply served_relayed; [exact R23|by apply C].
      * pose proof (rl_pending _ _ _ _ R12 p x y Hx Hy Hpy) as (L1&L2&L3&L4&_).
        destruct (rl_now _ _ _ _ R23 p y z Hy Hz Hpy Hs) as (E1 & E2 & A & C).
        rewrite L1, L2 in C. rewrite L3, L4 in A. done.
Qed.
End relations.


(** ** Loops over chained and adopting promises *)

Section loops.
Context (R : relation world) `{!PreOrder R}.
Implicit Types (f : id → world → option world) (l : list id).

Lemma each_sound f l :
  (∀ c w w', f c w = Some w' → R w w') →
  ∀ w w', each f l w = Some w' → R w w'.
Proof.
  intros Hf. induction l as [|c l IH]; intros w w' He; simpl in He.
  - by simplify_eq.
  - destruct (f c w) as [w1|] eqn:E; simplify_eq/=.
    etrans; [by eapply Hf|by apply IH].
Qed.

Lemma each_sound_in f l :
  (∀ c, c ∈ l → ∀ w w', f c w = Some w' → R w w') →
  ∀ w w', each f l w = Some w' → R w w'.
Proof.
  induction l as [|c l IH]; intros Hf w w' He; simpl in He.
  - by simplify_eq.
  - destruct (f c w) as [w1|] eqn:E; simplify_eq/=.
    etrans; [eapply Hf; [by left|done]|].
    apply IH; [|done]. intros c' Hc'. apply Hf. by right.
Qed.

Lemma each_elem (Q : id → world → Prop) f l :
  (∀ c w w', f c w = Some w' → R w w' ∧ Q c w') →
  (∀ d w w', R w w' → Q d w → Q d w') →
  ∀ w w', each f l w = Some w' → ∀ d, d ∈ l → Q d w'.
Proof.
  intros Hf HQ. induction l as [|c l IH]; intros w w' He d Hd.
  - by apply elem_of_nil in Hd.
  - simpl in He. destruct (f c w) as [w1|] eqn:E; simplify_eq/=.
    apply elem_of_cons in Hd as [->|Hd].
    + eapply HQ; [|by eapply Hf].
      eapply each_sound; [|exact He]. intros. by eapply Hf.
    + by eapply IH.
Qed.

Lemma each_total (P : world → Prop) f l :
  (∀ c w, P w → ∃ w', f c w = Some w' ∧ P w') →
  ∀ w, P w → ∃ w', each f l w = Some w' ∧ P w'.
Proof.
  intros Hf. induction l as [|c l IH]; intros w Hw; simpl.
  - eauto.
  - destruct (Hf c w Hw) as (w1 & -> & H1). simpl. by apply IH.
Qed.
End loops.

(** ** Soundness of [_relay] and [_grab] *)

Section relay_sound.
Implicit Types (w : world) (p q d this : id) (x y : Promise).

Lemma modify_lookup p f w x :
  heap w !! p = Some x → modify p f w = store p (f x) w.
Proof. intros Hx. unfold modify. by rewrite Hx. Qed.

Lemma modify_missing p f w : heap w !! p = None → modify p f w = w.
Proof. intros Hx. unfold modify. by rewrite Hx. Qed.

(** Replacing a promise by one with the same state, result and links. *)
Lemma relayed_store st v p x y w :
  heap w !! p = Some x → kept x y → same_links x y →
  relayed st v w (store p y w).
Proof.
  intros Hx K L.
  assert (∀ q z z', heap w !! q = Some z → heap (store p y w) !! q = Some z' →
            kept z z' ∧ same_links z z') as Hsame.
  { intros q z z' Hz Hz'. rewrite (lookup_store p q x y w Hx) in Hz'.
    case_decide; simplify_eq; [done|].
    split; [apply kept_refl|apply same_links_refl]. }
  split.
  - split.
    + apply length_store.
    + rewrite (pendings_store_same p x y w Hx); [done|apply K].
    + exists []. by rewrite app_nil_r.
    + done.
    + intros q z Hz. rewrite (lookup_store p q x y w Hx).
      case_decide; simplify_eq; eauto using kept_refl.
    + done.
  - done.
  - intros q z z' Hz Hz' _. by eapply Hsame.
  - intros q z z' Hz Hz' _. by eapply Hsame.
  - intros q z z' Hz Hz' Hp Hs. exfalso.
    destruct (Hsame q z z' Hz Hz') as [[E _] _].
    unfold settled in Hs. congruence.
Qed.

(** Queueing a task. *)
Lemma relayed_enqueue st v t w : relayed st v w (with_queue (queue w ++ [t]) w).
Proof.
  split.
  - split; try done.
    + by exists [t].
    + intros q z Hz. exists z. split; [done|]. intros _. apply kept_refl.
  - done.
  - intros q z z' Hz Hz' _. simpl in Hz'. simplify_eq.
    split; [apply kept_refl|apply same_links_refl].
  - intros q z z' Hz Hz' _. simpl in Hz'. simplify_eq. apply same_links_refl.
  - intros q z z' Hz Hz' Hp Hs. simpl in Hz'. simplify_eq.
    exfalso. by eapply not_settled.
Qed.

Lemma relayed_modify_running st v p b w :
  relayed st v w (modify p (set_running b) w).
Proof.
  destruct (heap w !! p) as [x|] eqn:Hx.
  - rewrite (modify_lookup _ _ _ _ Hx).
    eapply relayed_store; [done|by split|by repeat split].
  - rewrite (modify_missing _ _ _ Hx). reflexivity.
Qed.

Lemma run_relayed st v this h a w : relayed st v w (_run this h a w).
Proof.
  unfold _run. etrans; [apply (relayed_modify_running st v this true)|].
  apply relayed_enqueue.
Qed.

Lemma settled_in_store d p y w :
  settled y → settled_in d w → settled_in d (store p y w).
Proof.
  intros Hy Hd z Hz. destruct (decide (p = d)) as [->|Hne].
  - rewrite heap_store in Hz.
    destruct (decide (d < length (heap w))) as [Hlt|Hge].
    + rewrite list_lookup_insert_eq in Hz by done. by simplify_eq.
    + rewrite list_insert_ge in Hz by lia. by apply Hd.
  - rewrite lookup_store_ne in Hz by done. by apply Hd.
Qed.

Lemma served_store st d p y w :
  settled y → served st d w → served st d (store p y w).
Proof.
  intros Hy Hd z Hz. destruct (decide (p = d)) as [->|Hne].
  - rewrite heap_store in Hz.
    destruct (decide (d < length (heap w))) as [Hlt|Hge].
    + rewrite list_lookup_insert_eq in Hz by done. simplify_eq. by left.
    + rewrite list_insert_ge in Hz by lia. by apply Hd.
  - rewrite lookup_store_ne in Hz by done. by apply Hd.
Qed.

(** The activation of [_relay] that settles [this], around what its
    two loops did. *)
Lemma relay_wrap st v this x w w3 :
  is_pending st = false →
  heap w !! this = Some x → is_pending (_state x) = true →
  relayed st v (store this (set_state st v x) w) w3 →
  (∀ d, d ∈ slots (_handledPromise x) (_handledPromises x) → settled_in d w3) →
  (∀ d, d ∈ slots (_chainedPromise x) (_chainedPromises x) → served st d w3) →
  relayed st v w (modify this release w3)
  ∧ settled_in this (modify this release w3).
Proof.
  intros Hst Hx Hp R HA HC.
  set (x1 := set_state st v x) in *. set (w1 := store this x1 w) in *.
  assert (heap w1 !! this = Some x1) as Hx1 by by eapply lookup_store_eq.
  assert (settled x1) as Hs1 by exact Hst.
  destruct (internal_lookup _ _ _ _ (rl_internal _ _ _ _ R) Hx1) as [x3 Hx3].
  destruct (rl_settled _ _ _ _ R this x1 x3 Hx1 Hx3 Hs1) as [[K3 K3'] L3].
  rewrite (modify_lookup _ _ _ _ Hx3).
  set (x4 := release x3). set (w4 := store this x4 w3).
  assert (settled x4) as Hs4.
  { unfold settled, x4. simpl. by rewrite K3. }
  assert (∀ q, heap w4 !! q = if decide (this = q) then Some x4 else heap w3 !! q)
    as Hw4 by (intros q; by apply (lookup_store this q x3)).
  assert (∀ q, heap w1 !! q = if decide (this = q) then Some x1 else heap w !! q)
    as Hw1 by (intros q; by apply (lookup_store this q x)).
  split; [split|].
  - destruct (rl_internal _ _ _ _ R) as [L P [e Q] G M C]. split; [| | | | |exact C].
    + unfold w4. rewrite length_store, L. apply length_store.
    + pose proof (pendings_store this x x1 w Hx) as E1.
      rewrite Hp in E1. fold w1 in E1.
      replace (is_pending (_state x1)) with false in E1 by (symmetry; exact Hst).
      pose proof (pendings_store_same this x3 x4 w3 Hx3 eq_refl) as E4.
      fold w4 in E4. simpl in E1. lia.
    + exists e. exact Q.
    + exact G.
    + intros q z Hz. rewrite Hw4. case_decide as Hq.
      * subst q. simplify_eq. exists x4. split; [done|].
        intros Hs. exfalso. by eapply not_settled.
      * apply M. rewrite Hw1. by rewrite decide_False.
  - apply R.
  - intros q z z' Hz Hz' Hs. rewrite Hw4 in Hz'. case_decide as Hq.
    + subst q. simplify_eq. exfalso. by eapply not_settled.
    + eapply (rl_settled _ _ _ _ R q); [|done..].
      rewrite Hw1. by rewrite decide_False.
  - intros q z z' Hz Hz' Hpz. rewrite Hw4 in Hz'. case_decide as Hq.
    + subst q. simplify_eq. exfalso. by eapply not_settled.
    + eapply (rl_pending _ _ _ _ R q); [|done..].
      rewrite Hw1. by rewrite decide_False.
  - intros q z z' Hz Hz' Hpz Hsz. rewrite Hw4 in Hz'. case_decide as Hq.
    + subst q. simplify_eq. repeat split.
      * simpl. by rewrite K3.
      * simpl. by rewrite K3'.
      * intros d Hd. apply settled_in_store; [done|by apply HA].
      * intros d Hd. apply served_store; [done|by apply HC].
    + destruct (rl_now _ _ _ _ R q z z') as (E1 & E2 & A & C); [|done..|].
      { rewrite Hw1. by rewrite decide_False. }
      repeat split; [done|done| |].
      * intros d Hd. apply settled_in_store; [done|by apply A].
      * intros d Hd. apply served_store; [done|by apply C].
  - intros y Hy. rewrite Hw4, decide_True in Hy by done. by simplify_eq.
Qed.

Lemma grab_sound (relay : id → State → value → world → option world)
    this st v w w' :
  (∀ c w w', relay c st v w = Some w' → relayed st v w w' ∧ settled_in c w') →
  grab_with relay this st v w = Some w' →
  relayed st v w w' ∧ served st this w'.
Proof.
  intros Hrelay. unfold grab_with.
  destruct (heap w !! this) as [x|] eqn:Hx.
  - destruct (is_pending (_state x)) eqn:Hp.
    + destruct (handler_for st x) as [h|] eqn:Hh.
      * intros ?; simplify_eq. split; [apply run_relayed|].
        intros y Hy.
        pose proof (run_relayed st v this h v w) as R.
        destruct (settled_or_pending y) as [?|Hpy]; [by left|right].
        rewrite (same_links_handler st x y); [by rewrite Hh|].
        by eapply (rl_pending _ _ _ _ R this).
      * intros Hr. destruct (Hrelay _ _ _ Hr) as [R S]. split; [done|].
        intros y Hy. left. by apply S.
    + intros ?; simplify_eq. split; [reflexivity|].
      intros y Hy. simplify_eq. by left.
  - intros ?; simplify_eq. split; [reflexivity|].
    intros y Hy. congruence.
Qed.

Lemma relay_sound n : ∀ this st v w w',
  is_pending st = false →
  _relay n this st v w = Some w' →
  relayed st v w w' ∧ settled_in this w'.
Proof.
  induction n as [|n IH]; intros this st v w w' Hst; simpl;
    destruct (heap w !! this) as [x|] eqn:Hx;
    try (intros ?; simplify_eq; split; [reflexivity|];
         intros y Hy; congruence);
    destruct (is_pending (_state x)) eqn:Hp;
    try (intros ?; simplify_eq; split; [reflexivity|];
         intros y Hy; unfold settled; congruence).
  - discriminate.
  - set (x1 := set_state st v x). set (w1 := store this x1 w).
    assert (heap w1 !! this = Some x1) as Hx1 by by eapply lookup_store_eq.
    assert (successors this w1 = slots (_chainedPromise x) (_chainedPromises x))
      as -> by (unfold successors; by rewrite Hx1).
    destruct (each _ _ w1) as [w2|] eqn:E2; [simpl|discriminate].
    destruct (each _ _ w2) as [w3|] eqn:E3; [simpl|discriminate].
    intros ?; simplify_eq.
    assert (∀ c w w', grab_with (_relay n) c st v w = Some w' →
              relayed st v w w' ∧ served st c w') as Hgrab.
    { intros c wa wb. apply grab_sound. intros. by apply IH. }
    assert (relayed st v w1 w2) as R12.
    { eapply (each_sound (relayed st v)); [|exact E2].
      intros c wa wb Hc. by destruct (Hgrab c wa wb Hc). }
    destruct (internal_lookup _ _ _ _ (rl_internal _ _ _ _ R12) Hx1) as [x2 Hx2].
    destruct (rl_settled _ _ _ _ R12 this x1 x2 Hx1 Hx2 Hst) as [_ (_&_&L3&L4&_)].
    assert (adopters this w2 = slots (_handledPromise x) (_handledPromises x))
      as Had by (unfold adopters; by rewrite Hx2, L3, L4).
    rewrite Had in E3.
    assert (relayed st v w2 w3) as R23.
    { eapply (each_sound (relayed st v)); [|exact E3].
      intros c wa wb Hc. by destruct (IH c st v wa wb Hst Hc). }
    apply (relay_wrap st v this x w w3 Hst Hx Hp).
    + by etrans.
    + eapply (each_elem (relayed st v) settled_in); [| |exact E3].
      * intros c wa wb Hc. by apply IH.
      * intros d wa wb. apply settled_in_relayed.
    + intros d Hd. eapply served_relayed; [exact R23|].
      eapply (each_elem (relayed st v) (served st)); [| |exact E2|exact Hd].
      * exact Hgrab.
      * intros d' wa wb. apply served_relayed.
Qed.

Lemma grab_relayed n this st v w w' :
  is_pending st = false →
  _grab n this st v w = Some w' →
  relayed st v w w' ∧ served st this w'.
Proof. intros Hst. apply grab_sound. intros. by eapply relay_sound. Qed.
End relay_sound.


(** ** [_relay] returns *)

Section relay_total.
Implicit Types (w : world) (p q d this : id) (x y : Promise).

Lemma pending_counted p x w :
  heap w !! p = Some x → is_pending (_state x) = true → 0 < pendings w.
Proof.
  intros Hx Hp.
  pose proof (pendings_store p x (set_state fulfilled VUndefined x) w Hx) as E.
  rewrite Hp in E. simpl in E. lia.
Qed.

Lemma grab_total (P : world → Prop)
    (relay : id → State → value → world → option world) this st v :
  (∀ w, P w → ∃ w', relay this st v w = Some w') →
  ∀ w, P w → ∃ w', grab_with relay this st v w = Some w'.
Proof.
  intros Hrelay w Hw. unfold grab_with.
  destruct (heap w !! this) as [x|]; [|eauto].
  destruct (is_pending (_state x)); [|eauto].
  destruct (handler_for st x); eauto.
Qed.

Lemma relay_total n : ∀ this st v w,
  is_pending st = false → pendings w ≤ n →
  ∃ w', _relay n this st v w = Some w'.
Proof.
  induction n as [|n IH]; intros this st v w Hst Hn; simpl;
    destruct (heap w !! this) as [x|] eqn:Hx; eauto;
    destruct (is_pending (_state x)) eqn:Hp; eauto.
  - pose proof (pending_counted _ _ _ Hx Hp). lia.
  - set (x1 := set_state st v x). set (w1 := store this x1 w).
    assert (pendings w1 ≤ n) as Hn1.
    { pose proof (pendings_store this x x1 w Hx) as E. fold w1 in E.
      rewrite Hp in E.
      replace (is_pending (_state x1)) with false in E by (symmetry; exact Hst).
      lia. }
    destruct (each_total (λ w, pendings w ≤ n)
                (λ c, grab_with (_relay n) c st v) (successors this w1))
      with (w := w1) as (w2 & -> & Hn2); [|done|].
    { intros c wa Ha.
      destruct (grab_total (λ w, pendings w ≤ n) (_relay n) c st v)
        with (w := wa) as [wb Hb]; [by intros; apply IH|done|].
      exists wb. split; [done|].
      destruct (grab_relayed n c st v wa wb Hst Hb) as [[[_ Hle _ _ _ _] _ _ _ _] _].
      lia. }
    simpl.
    destruct (each_total (λ w, pendings w ≤ n)
                (λ c, _relay n c st v) (adopters this w2))
      with (w := w2) as (w3 & -> & Hn3); [|done|].
    { intros c wa Ha. destruct (IH c st v wa Hst Ha) as [wb Hb].
      exists wb. split; [done|].
      destruct (relay_sound n c st v wa wb Hst Hb) as [[[_ Hle _ _ _ _] _ _ _ _] _].
      lia. }
    simpl. eauto.
Qed.

(** Both in one: with enough fuel [_relay] returns, and what it
    returns is related to where it started. *)
Lemma relay_spec n this st v w :
  is_pending st = false → pendings w ≤ n →
  ∃ w', _relay n this st v w = Some w'
        ∧ relayed st v w w' ∧ settled_in this w'.
Proof.
  intros Hst Hn. destruct (relay_total n this st v w Hst Hn) as [w' Hw'].
  exists w'. split; [done|]. by eapply relay_sound.
Qed.

Lemma grab_spec n this st v w :
  is_pending st = false → pendings w ≤ n →
  ∃ w', _grab n this st v w = Some w'
        ∧ relayed st v w w' ∧ served st this w'.
Proof.
  intros Hst Hn.
  destruct (grab_total (λ w, pendings w ≤ n) (_relay n) this st v)
    with (w := w) as [w' Hw']; [by intros; apply relay_total|done|].
  exists w'. split; [done|]. by eapply grab_relayed.
Qed.
End relay_total.

(** ** The resolve process returns, and is internal *)

Scheme value_ind' := Induction for value Sort Prop
  with then_member_ind' := Induction for then_member Sort Prop
  with script_ind' := Induction for script Sort Prop.
Combined Scheme value_mutind from value_ind', then_member_ind', script_ind'.

Section unpack_spec.
Implicit Types (w : world) (p q d this : id) (x y : Promise) (k : cont).

Lemma internal_store p x y w :
  heap w !! p = Some x → kept x y → internal w (store p y w).
Proof.
  intros Hx K. split.
  - apply length_store.
  - rewrite (pendings_store_same p x y w Hx); [done|apply K].
  - exists []. by rewrite app_nil_r.
  - done.
  - intros q z Hz. rewrite (lookup_store p q x y w Hx).
    case_decide; simplify_eq; eauto using kept_refl.
  - done.
Qed.

Lemma internal_modify_running p b w : internal w (modify p (set_running b) w).
Proof. apply (rl_internal fulfilled VUndefined), relayed_modify_running. Qed.

Lemma mono_same_heap w w' : heap w' = heap w → mono w w'.
Proof.
  intros E q z Hz. exists z. rewrite E. split; [done|].
  intros _. apply kept_refl.
Qed.

Lemma internal_cells c w :
  length (cells w) ≤ length c → internal w (with_cells c w).
Proof.
  intros Hc. split; try done.
  - exists []. by rewrite app_nil_r.
  - by apply mono_same_heap.
Qed.

Lemma internal_alloc_cell this k w : internal w (alloc_cell this k w).
Proof. apply internal_cells. rewrite length_app. lia. Qed.

Lemma internal_clear_cell c w : internal w (clear_cell c w).
Proof. apply internal_cells. by rewrite length_insert. Qed.

Lemma callk_spec n k st v w :
  is_pending st = false → pendings w ≤ n →
  ∃ w', callk n k st v w = Some w' ∧ internal w w'.
Proof.
  intros Hst Hn. destruct k as [p|p]; simpl.
  - destruct (grab_spec n p st v w Hst Hn) as (w' & -> & R & _).
    exists w'. split; [done|apply R].
  - destruct (relay_spec n p st v w Hst Hn) as (w' & -> & R & _). simpl.
    eexists. split; [done|]. etrans; [apply R|apply internal_modify_running].
Qed.

Lemma reject_cb_spec n c reason w :
  pendings w ≤ n →
  ∃ w', reject_cb n c reason w = Some w' ∧ internal w w'.
Proof.
  intros Hn. unfold reject_cb.
  destruct (cells w !! c) as [[[this k]|]|]; [|by eexists..].
  destruct (callk_spec n k rejected reason w eq_refl Hn) as (w' & -> & I).
  simpl. eexists. split; [done|]. etrans; [exact I|apply internal_clear_cell].
Qed.

Lemma resolve_cb_spec n (f : id → cont → world → option world) c w :
  (∀ this k, pendings w ≤ n → ∃ w', f this k w = Some w' ∧ internal w w') →
  pendings w ≤ n →
  ∃ w', resolve_cb f c w = Some w' ∧ internal w w'.
Proof.
  intros Hf Hn. unfold resolve_cb.
  destruct (cells w !! c) as [[[this k]|]|]; [|by eexists..].
  destruct (Hf this k Hn) as (w' & -> & I).
  simpl. eexists. split; [done|]. etrans; [exact I|apply internal_clear_cell].
Qed.

Lemma unpack_run_spec n :
  (∀ v this k w, pendings w ≤ n →
     ∃ w', _unpack n this v k w = Some w' ∧ internal w w')
  ∧ (∀ m this k w, pendings w ≤ n →
     ∃ w', _unpack n this (VObject m) k w = Some w' ∧ internal w w')
  ∧ (∀ body c w, pendings w ≤ n →
     ∃ w', run_then n c body w = Some w' ∧ internal w w').
Proof.
  apply value_mutind; try (intros; simpl; by apply callk_spec).
  - (* a promise *)
    intros q this k w Hn. simpl. destruct (Nat.eqb q this).
    { by apply callk_spec. }
    destruct (heap w !! q) as [x|] eqn:Hx; [|by eexists].
    destruct (is_pending (_state x)) eqn:Hp.
    + eexists. split; [done|]. unfold adopt.
      destruct (link this (_handledPromise x) (_handledPromises x)) as [one many].
      by eapply internal_store.
    + by apply callk_spec.
  - (* an object *)
    intros m IH this k w Hn. by apply IH.
  - (* its [then] is a function *)
    intros body IH this k w Hn. simpl.
    destruct (IH (length (cells w)) (alloc_cell this k w) Hn) as (w' & -> & I).
    exists w'. split; [done|]. etrans; [apply internal_alloc_cell|exact I].
  - (* the call returns *)
    intros c w Hn. simpl. by eexists.
  - (* the call throws *)
    intros e _ c w Hn. simpl. by apply reject_cb_spec.
  - (* the call calls a callback *)
    intros f arg IHarg body IHbody c w Hn. simpl.
    assert (∃ w1, match f with
                  | OwnResolve => resolve_cb (λ this cb, _unpack n this arg cb) c w
                  | OwnReject => reject_cb n c arg w
                  | KeptResolve c' =>
                      resolve_cb (λ this cb, _unpack n this arg cb) c' w
                  | KeptReject c' => reject_cb n c' arg w
                  end = Some w1 ∧ internal w w1) as (w1 & -> & I1).
    { destruct f; try (by apply reject_cb_spec);
        (apply (resolve_cb_spec n); [|done]; intros; by apply IHarg). }
    simpl.
    destruct (IHbody c w1) as (w' & -> & I2).
    { pose proof (in_pendings _ _ I1). lia. }
    exists w'. split; [done|]. by etrans.
Qed.

Lemma unpack_spec n this v k w :
  pendings w ≤ n →
  ∃ w', _unpack n this v k w = Some w' ∧ internal w w'.
Proof. destruct (unpack_run_spec n) as (H & _). apply H. Qed.
End unpack_spec.


(** ** Every operation returns and is monotonic *)

Section operations.
Implicit Types (w : world) (p q d this : id) (x y : Promise) (k : cont).

Lemma internal_mono w w' : internal w w' → mono w w'.
Proof. apply in_mono. Qed.

Lemma mono_construct x w : mono w (construct x w).2.
Proof.
  intros q z Hz. exists z. split; [|intros _; apply kept_refl].
  simpl. apply lookup_app_l_Some, Hz.
Qed.

Lemma resolve_spec this v w :
  ∃ w', resolve this v w = Some w' ∧ internal w w'.
Proof. by apply unpack_spec. Qed.

Lemma reject_spec this reason w :
  ∃ w', reject this reason w = Some w' ∧ relayed rejected reason w w'.
Proof.
  destruct (grab_spec (pendings w) this rejected reason w) as (w' & ? & ? & _);
    eauto.
Qed.

Lemma then_spec this onfulfilled onrejected w x :
  heap w !! this = Some x →
  ∃ w', then_ this onfulfilled onrejected w = Some (length (heap w), w')
        ∧ mono w w'.
Proof.
  intros Hx. unfold then_. rewrite Hx.
  set (x0 := set_handlers _ _ _).
  destruct (construct x0 w) as [promise w1] eqn:Hc.
  assert (promise = length (heap w) ∧ w1 = (construct x0 w).2) as [-> ->]
    by (by rewrite Hc; injection Hc).
  pose proof (mono_construct x0 w) as M1.
  destruct (M1 this x Hx) as (x1 & Hx1 & _).
  destruct (is_pending (_state x)) eqn:Hp.
  - destruct (link _ _ _) as [one many]. eexists. split; [done|].
    etrans; [exact M1|].
    apply internal_mono. eapply internal_store; [done|].
    simpl in Hx1. rewrite (lookup_app_l_Some _ _ _ _ Hx) in Hx1.
    by simplify_eq.
  - destruct (grab_spec (pendings (construct x0 w).2) (length (heap w))
                (_state x) (_valueOrReason x) (construct x0 w).2)
      as (w2 & -> & R & _); [done|done|].
    simpl. eexists. split; [done|].
    etrans; [exact M1|]. apply internal_mono, R.
Qed.

Lemma tick_spec w : ∃ w', tick w = Some w' ∧ mono w w'.
Proof.
  unfold tick. destruct (queue w) as [|[this h a] q]; [by eexists|].
  set (w1 := begin_task _ _ _).
  assert (mono w w1) as M1 by by apply mono_same_heap.
  destruct (hbody h a) as [ret|error].
  - destruct (unpack_spec (pendings w1) this ret (KRelay this) w1)
      as (w' & -> & I); [done|].
    exists w'. split; [done|]. etrans; [exact M1|by apply internal_mono].
  - destruct (callk_spec (pendings w1) (KRelay this) rejected error w1)
      as (w' & -> & I); [done|done|].
    exists w'. split; [done|]. etrans; [exact M1|by apply internal_mono].
Qed.

Lemma call_resolve_spec c v w :
  ∃ w', call_resolve c v w = Some w' ∧ internal w w'.
Proof.
  apply (resolve_cb_spec (pendings w)); [|done].
  intros. by apply unpack_spec.
Qed.

Lemma call_reject_spec c reason w :
  ∃ w', call_reject c reason w = Some w' ∧ internal w w'.
Proof. by apply reject_cb_spec. Qed.

(** An operation on promises that exist returns. *)
Lemma step_total o w :
  (∀ p f r, o = OThen p f r → p < length (heap w)) →
  ∃ w', step o w = Some w'.
Proof.
  intros Hp. destruct o as [|p f r|p v|p r| |c v|c r]; simpl.
  - eauto.
  - destruct (lookup_lt_is_Some_2 (heap w) p) as [x Hx]; [by eapply Hp|].
    destruct (then_spec p f r w x Hx) as (w' & -> & _).
    simpl. eauto.
  - destruct (resolve_spec p v w) as (w' & ? & _). eauto.
  - destruct (reject_spec p r w) as (w' & ? & _). eauto.
  - destruct (tick_spec w) as (w' & ? & _). eauto.
  - destruct (call_resolve_spec c v w) as (w' & ? & _). eauto.
  - destruct (call_reject_spec c r w) as (w' & ? & _). eauto.
Qed.

Lemma step_mono o w w' : step o w = Some w' → mono w w'.
Proof.
  destruct o as [|p f r|p v|p r| |c v|c r]; simpl.
  - intros ?; simplify_eq. apply mono_construct.
  - destruct (heap w !! p) as [x|] eqn:Hx.
    + destruct (then_spec p f r w x Hx) as (w1 & -> & M).
      by intros ?; simplify_eq/=.
    + unfold then_. by rewrite Hx.
  - destruct (resolve_spec p v w) as (w1 & -> & I).
    intros ?; simplify_eq. by apply internal_mono.
  - destruct (reject_spec p r w) as (w1 & -> & R).
    intros ?; simplify_eq. apply internal_mono, R.
  - destruct (tick_spec w) as (w1 & -> & M). by intros ?; simplify_eq.
  - destruct (call_resolve_spec c v w) as (w1 & -> & I).
    intros ?; simplify_eq. by apply internal_mono.
  - destruct (call_reject_spec c r w) as (w1 & -> & I).
    intros ?; simplify_eq. by apply internal_mono.
Qed.

Lemma steps_mono os : ∀ w w', steps os w = Some w' → mono w w'.
Proof.
  induction os as [|o os IH]; intros w w' Hs; simpl in Hs.
  - simplify_eq. reflexivity.
  - destruct (step o w) as [w1|] eqn:E; simplify_eq/=.
    etrans; [by eapply step_mono|by apply IH].
Qed.

(** What [mono] says of a settled promise, in terms of its readings. *)
Lemma mono_reading w w' p st r :
  mono w w' → st ≠ pending →
  state_of p w = Some st → result_of p w = Some r →
  state_of p w' = Some st ∧ result_of p w' = Some r.
Proof.
  unfold state_of, result_of. intros M Hst Hs Hr.
  destruct (heap w !! p) as [x|] eqn:Hx; simplify_eq/=.
  destruct (M p x Hx) as (x' & -> & K). simpl.
  destruct K as [-> ->]; [|done].
  unfold settled. by destruct (_state x).
Qed.
End operations.


(** ** Readings after a relay *)

Section readings.
Implicit Types (w : world) (p q d this : id) (x y : Promise) (k : cont).

Lemma state_of_lookup p x w : heap w !! p = Some x → state_of p w = Some (_state x).
Proof. unfold state_of. by intros ->. Qed.

Lemma result_of_lookup p x w :
  heap w !! p = Some x → result_of p w = Some (_valueOrReason x).
Proof. unfold result_of. by intros ->. Qed.

Lemma state_of_pending p x w :
  heap w !! p = Some x → is_pending (_state x) = true → state_of p w = Some pending.
Proof.
  intros Hx Hp. rewrite (state_of_lookup _ _ _ Hx). by destruct (_state x).
Qed.

(** A pending promise reached by [_relay] or [_grab] and settled by it
    has the state and the result that were relayed. *)
Lemma relayed_reading st v w w' p x :
  relayed st v w w' → heap w !! p = Some x →
  is_pending (_state x) = true → settled_in p w' →
  state_of p w' = Some st ∧ result_of p w' = Some v.
Proof.
  intros R Hx Hp Hs.
  destruct (internal_lookup _ _ _ _ (rl_internal _ _ _ _ R) Hx) as [x' Hx'].
  destruct (rl_now _ _ _ _ R p x x' Hx Hx' Hp (Hs x' Hx')) as (E1 & E2 & _).
  rewrite (state_of_lookup _ _ _ Hx'), (result_of_lookup _ _ _ Hx').
  by rewrite E1, E2.
Qed.

(** [_relay] on a pending promise settles it as told. *)
Lemma relay_settles n p st v w x :
  heap w !! p = Some x → is_pending (_state x) = true →
  is_pending st = false → pendings w ≤ n →
  ∃ w', _relay n p st v w = Some w' ∧ relayed st v w w'
        ∧ state_of p w' = Some st ∧ result_of p w' = Some v.
Proof.
  intros Hx Hp Hst Hn.
  destruct (relay_spec n p st v w Hst Hn) as (w' & E & R & S).
  exists w'. split; [done|]. split; [done|]. by eapply relayed_reading.
Qed.

Lemma grab_unfold n p st v w x :
  heap w !! p = Some x → is_pending (_state x) = true →
  _grab n p st v w =
    match handler_for st x with
    | Some h => Some (_run p h v w)
    | None => _relay n p st v w
    end.
Proof. intros Hx Hp. unfold _grab, grab_with. by rewrite Hx, Hp. Qed.

Lemma grab_settled n p st v w x :
  heap w !! p = Some x → settled x → _grab n p st v w = Some w.
Proof. intros Hx Hp. unfold _grab, grab_with. by rewrite Hx, Hp. Qed.

Lemma lookup_run p h a w x :
  heap w !! p = Some x →
  heap (_run p h a w) !! p = Some (set_running true x).
Proof.
  intros Hx. unfold _run. simpl. rewrite (modify_lookup _ _ _ _ Hx).
  by eapply lookup_store_eq.
Qed.

Lemma queue_run p h a w : queue (_run p h a w) = queue w ++ [TRun p h a].
Proof.
  unfold _run, modify. simpl. by destruct (heap w !! p).
Qed.

Lemma log_run p h a w : log (_run p h a w) = log w.
Proof. unfold _run, modify. simpl. by destruct (heap w !! p). Qed.

(** [_grab] on a promise, by the state it is in and the handler it
    holds for the state it is given. *)
Lemma grab_by_case n p st v w x :
  heap w !! p = Some x → is_pending st = false → pendings w ≤ n →
  ∃ w', _grab n p st v w = Some w'
    ∧ match _state x, handler_for st x with
      | pending, None => state_of p w' = Some st ∧ result_of p w' = Some v
      | pending, Some h => w' = _run p h v w ∧ state_of p w' = Some pending
      | _, _ => w' = w
      end.
Proof.
  intros Hx Hst Hn.
  destruct (is_pending (_state x)) eqn:Hp.
  - rewrite (grab_unfold _ _ _ _ _ _ Hx Hp).
    destruct (_state x) eqn:Es; try discriminate.
    destruct (handler_for st x) as [h|].
    + eexists. split; [done|]. split; [done|].
      erewrite state_of_lookup; [|by eapply lookup_run]. simpl. by rewrite Es.
    + destruct (relay_settles n p st v w x) as (w' & E & _ & S);
        [done|by rewrite Es|done|done|].
      by exists w'.
  - rewrite (grab_settled _ _ _ _ _ _ Hx Hp). exists w. split; [done|].
    by destruct (_state x).
Qed.

Lemma reading_modify_running p q b w :
  state_of q (modify p (set_running b) w) = state_of q w
  ∧ result_of q (modify p (set_running b) w) = result_of q w.
Proof.
  unfold state_of, result_of, modify.
  destruct (heap w !! p) as [x|] eqn:Hx; [|done].
  rewrite (lookup_store p q x _ w Hx). case_decide; [|done].
  subst q. by rewrite Hx.
Qed.

Lemma slots_link {A} (a : A) one many :
  slots (link a one many).1 (link a one many).2 = slots one many ++ [a].
Proof. by destruct one, many. Qed.

Lemma adopters_adopt q this x w :
  heap w !! q = Some x →
  adopters q (adopt q this x w) = adopters q w ++ [this].
Proof.
  intros Hx. unfold adopt, adopters.
  pose proof (slots_link this (_handledPromise x) (_handledPromises x)) as E.
  destruct (link this _ _) as [one many].
  rewrite (lookup_store_eq _ _ _ _ Hx), Hx. exact E.
Qed.

Lemma lookup_adopt_ne q this x w p :
  q ≠ p → heap (adopt q this x w) !! p = heap w !! p.
Proof.
  intros Hne. unfold adopt. destruct (link this _ _) as [one many].
  by apply lookup_store_ne.
Qed.

Lemma store_store p y z w : store p y (store p z w) = store p y w.
Proof.
  unfold store, with_heap. simpl. f_equal. apply list_insert_insert_eq.
Qed.

(** [_relay] on a pending promise nothing is chained on and nothing
    has adopted. *)
Lemma relay_S n this st v w :
  _relay (S n) this st v w =
    match heap w !! this with
    | None => Some w
    | Some x =>
        if is_pending (_state x) then
          w2 ← each (λ c, grab_with (_relay n) c st v)
                   (successors this (store this (set_state st v x) w))
                   (store this (set_state st v x) w);
          w3 ← each (λ c, _relay n c st v) (adopters this w2) w2;
          Some (modify this release w3)
        else Some w
    end.
Proof. reflexivity. Qed.

Lemma relay_leaf n p st v w x :
  heap w !! p = Some x → is_pending (_state x) = true →
  slots (_chainedPromise x) (_chainedPromises x) = [] →
  slots (_handledPromise x) (_handledPromises x) = [] →
  _relay (S n) p st v w = Some (store p (release (set_state st v x)) w).
Proof.
  intros Hx Hp Hc Ha. rewrite relay_S, Hx, Hp.
  pose proof (lookup_store_eq p x (set_state st v x) w Hx) as Hx1.
  unfold successors, adopters. rewrite Hx1.
  change (slots (_chainedPromise (set_state st v x)) _)
    with (slots (_chainedPromise x) (_chainedPromises x)).
  rewrite Hc. cbn [each mbind option_bind]. rewrite Hx1.
  change (slots (_handledPromise (set_state st v x)) _)
    with (slots (_handledPromise x) (_handledPromises x)).
  rewrite Ha. cbn [each mbind option_bind].
  rewrite (modify_lookup _ _ _ _ Hx1). by rewrite store_store.
Qed.

(** Settling [p] settles alike a pending promise chained on it that
    has no handler for the state. *)
Lemma relay_passes n p d st v w x y :
  heap w !! p = Some x → is_pending (_state x) = true →
  d ∈ slots (_chainedPromise x) (_chainedPromises x) →
  heap w !! d = Some y → is_pending (_state y) = true →
  handler_for st y = None →
  is_pending st = false → pendings w ≤ n →
  ∃ w', _relay n p st v w = Some w' ∧ relayed st v w w'
        ∧ (state_of p w' = Some st ∧ result_of p w' = Some v)
        ∧ (state_of d w' = Some st ∧ result_of d w' = Some v).
Proof.
  intros Hx Hp Hd Hy Hpy Hh Hst Hn.
  destruct (relay_spec n p st v w Hst Hn) as (w' & E & R & S).
  exists w'. split; [done|]. split; [done|].
  split; [by eapply relayed_reading|].
  destruct (internal_lookup _ _ _ _ (rl_internal _ _ _ _ R) Hx) as [x' Hx'].
  destruct (rl_now _ _ _ _ R p x x' Hx Hx' Hp (S x' Hx')) as (_ & _ & _ & C).
  eapply relayed_reading; [done..|].
  intros y' Hy'. destruct (C d Hd y' Hy') as [?|[h Hh']]; [done|].
  destruct (settled_or_pending y') as [?|Hpy']; [done|].
  pose proof (rl_pending _ _ _ _ R d y y' Hy Hy' Hpy') as L.
  rewrite (same_links_handler st y y' L) in Hh'. congruence.
Qed.

(** Settling [p] settles alike a pending promise that adopted it. *)
Lemma relay_mirrors n p d st v w x y :
  heap w !! p = Some x → is_pending (_state x) = true →
  d ∈ slots (_handledPromise x) (_handledPromises x) →
  heap w !! d = Some y → is_pending (_state y) = true →
  is_pending st = false → pendings w ≤ n →
  ∃ w', _relay n p st v w = Some w' ∧ relayed st v w w'
        ∧ (state_of p w' = Some st ∧ result_of p w' = Some v)
        ∧ (state_of d w' = Some st ∧ result_of d w' = Some v).
Proof.
  intros Hx Hp Hd Hy Hpy Hst Hn.
  destruct (relay_spec n p st v w Hst Hn) as (w' & E & R & S).
  exists w'. split; [done|]. split; [done|].
  split; [by eapply relayed_reading|].
  destruct (internal_lookup _ _ _ _ (rl_internal _ _ _ _ R) Hx) as [x' Hx'].
  destruct (rl_now _ _ _ _ R p x x' Hx Hx' Hp (S x' Hx')) as (_ & _ & A & _).
  eapply relayed_reading; [done..|]. by apply A.
Qed.

(** A value that is no promise and whose [then], if it has one, is
    read without throwing and is no function. *)
Definition plain (v : value) : bool :=
  match v with
  | VPromise _ | VObject (ThenFn _) | VObject (ThenThrows _) => false
  | _ => true
  end.

Lemma unpack_plain n this v k w :
  plain v = true → _unpack n this v k w = callk n k fulfilled v w.
Proof. by destruct v as [| |?|?|?|? ?|?|[?| |?]]. Qed.

(** The continuation of [_run], called while its promise is pending. *)
Lemma callk_relay_settles n d st v w x :
  heap w !! d = Some x → is_pending (_state x) = true →
  is_pending st = false → pendings w ≤ n →
  ∃ w', callk n (KRelay d) st v w = Some w' ∧ internal w w'
        ∧ state_of d w' = Some st ∧ result_of d w' = Some v.
Proof.
  intros Hx Hp Hst Hn. simpl.
  destruct (relay_settles n d st v w x Hx Hp Hst Hn) as (w' & -> & R & S1 & S2).
  simpl. eexists. split; [done|].
  destruct (reading_modify_running d d false w') as [-> ->].
  split; [|done]. etrans; [apply R|apply internal_modify_running].
Qed.

Lemma tick_unfold w d h a (rest : list task) :
  queue w = TRun d h a :: rest →
  tick w =
    match hbody h a with
    | Throw error =>
        callk (pendings w) (KRelay d) rejected error (begin_task (TRun d h a) rest w)
    | Return ret =>
        _unpack (pendings w) d ret (KRelay d) (begin_task (TRun d h a) rest w)
    end.
Proof. intros Hq. unfold tick. by rewrite Hq. Qed.

End readings.

(** ** What a relay leaves alone *)

(** The promise a task settles. *)
Definition target (t : task) : id :=
  match t with TRun this _ _ => this end.

(** Every promise that a pending promise has chained or has been
    adopted by is below [m]. *)
Definition below (m : nat) (w : world) : Prop :=
  ∀ p x c, heap w !! p = Some x → is_pending (_state x) = true →
    c ∈ slots (_chainedPromise x) (_chainedPromises x)
        ++ slots (_handledPromise x) (_handledPromises x) →
    c < m.

(** From a world where that holds: the promises from [m] on are left
    as they are, and every task queued is for a promise below [m]. *)
Definition frame (m : nat) (w w' : world) : Prop :=
  below m w →
  (∀ d, m ≤ d → heap w' !! d = heap w !! d)
  ∧ below m w'
  ∧ ∃ extra, queue w' = queue w ++ extra ∧ Forall (λ t, target t < m) extra.

Section frame.
Context (m : nat).
Implicit Types (w : world) (p q d this : id) (x y : Promise).

Global Instance frame_preorder : PreOrder (frame m).
Proof.
  split.
  - intros w Hb. split; [done|]. split; [done|].
    exists []. by rewrite app_nil_r.
  - intros w1 w2 w3 F12 F23 Hb.
    destruct (F12 Hb) as (H1 & Hb2 & e1 & Q1 & T1).
    destruct (F23 Hb2) as (H2 & Hb3 & e2 & Q2 & T2).
    split; [|split; [done|]].
    + intros d Hd. by rewrite H2, H1.
    + exists (e1 ++ e2). split; [by rewrite Q2, Q1, app_assoc|].
      by apply Forall_app.
Qed.

(** Replacing a promise below [m] by one with no more links. *)
Lemma frame_store p x y w :
  p < m → heap w !! p = Some x →
  (is_pending (_state y) = true →
     is_pending (_state x) = true
     ∧ ∀ c, c ∈ slots (_chainedPromise y) (_chainedPromises y)
                ++ slots (_handledPromise y) (_handledPromises y) →
            c ∈ slots (_chainedPromise x) (_chainedPromises x)
                ++ slots (_handledPromise x) (_handledPromises x)) →
  frame m w (store p y w).
Proof.
  intros Hp Hx Hy Hb. split; [|split].
  - intros d Hd. apply lookup_store_ne. lia.
  - intros q z c Hz Hpz Hc. rewrite (lookup_store p q x y w Hx) in Hz.
    case_decide; simplify_eq.
    + destruct (Hy Hpz) as [Hpx Hsub]. eapply Hb; [exact Hx|done|by apply Hsub].
    + by eapply Hb.
  - exists []. by rewrite app_nil_r.
Qed.

Lemma frame_run this h a w : this < m → frame m w (_run this h a w).
Proof.
  intros Hlt. unfold _run.
  destruct (heap w !! this) as [x|] eqn:Hx.
  - rewrite (modify_lookup _ _ _ _ Hx).
    etrans; [apply (frame_store this x (set_running true x) w Hlt Hx); by intros|].
    intros Hb. split; [done|]. split; [done|].
    eexists. split; [done|]. by apply Forall_singleton.
  - rewrite (modify_missing _ _ _ Hx).
    intros Hb. split; [done|]. split; [done|].
    eexists. split; [done|]. by apply Forall_singleton.
Qed.

Lemma grab_frame (relay : id → State → value → world → option world)
    this st v w w' :
  this < m →
  (∀ w w', relay this st v w = Some w' → frame m w w') →
  grab_with relay this st v w = Some w' → frame m w w'.
Proof.
  intros Hlt Hrelay. unfold grab_with.
  destruct (heap w !! this) as [x|]; [|by intros ?; simplify_eq].
  destruct (is_pending (_state x)); [|by intros ?; simplify_eq].
  destruct (handler_for st x) as [h|].
  - intros ?; simplify_eq. by apply frame_run.
  - apply Hrelay.
Qed.

Lemma relay_frame n : ∀ this st v w w',
  is_pending st = false → this < m →
  _relay n this st v w = Some w' → frame m w w'.
Proof.
  induction n as [|n IH]; intros this st v w w' Hst Hlt; simpl;
    destruct (heap w !! this) as [x|] eqn:Hx;
    try (by intros ?; simplify_eq);
    destruct (is_pending (_state x)) eqn:Hp;
    try (by intros ?; simplify_eq).
  set (x1 := set_state st v x). set (w1 := store this x1 w).
  assert (heap w1 !! this = Some x1) as Hx1 by by eapply lookup_store_eq.
  assert (successors this w1 = slots (_chainedPromise x) (_chainedPromises x))
    as -> by (unfold successors; by rewrite Hx1).
  destruct (each _ _ w1) as [w2|] eqn:E2; [simpl|discriminate].
  destruct (each _ _ w2) as [w3|] eqn:E3; [simpl|discriminate].
  intros ?; simplify_eq. intros Hb.
  assert (relayed st v w1 w2) as R12.
  { eapply (each_sound (relayed st v)); [|exact E2].
    intros c wa wb Hc. by destruct (grab_relayed n c st v wa wb Hst Hc). }
  destruct (internal_lookup _ _ _ _ (rl_internal _ _ _ _ R12) Hx1) as [x2 Hx2].
  destruct (rl_settled _ _ _ _ R12 this x1 x2 Hx1 Hx2 Hst) as [_ (_&_&L3&L4&_)].
  assert (adopters this w2 = slots (_handledPromise x) (_handledPromises x))
    as Had by (unfold adopters; by rewrite Hx2, L3, L4).
  rewrite Had in E3.
  assert (frame m w w1) as F01.
  { apply (frame_store this x x1 w Hlt Hx). intros Hp1.
    unfold x1 in Hp1. simpl in Hp1. congruence. }
  assert (frame m w1 w2) as F12.
  { eapply (each_sound_in (frame m)); [|exact E2].
    intros c Hc wa wb. apply grab_frame.
    - eapply Hb; [exact Hx|done|]. apply elem_of_app. by left.
    - intros wa' wb'. apply IH; [done|].
      eapply Hb; [exact Hx|done|]. apply elem_of_app. by left. }
  assert (frame m w2 w3) as F23.
  { eapply (each_sound_in (frame m)); [|exact E3].
    intros c Hc wa wb. apply IH; [done|].
    eapply Hb; [exact Hx|done|]. apply elem_of_app. by right. }
  assert (frame m w3 (modify this release w3)) as F34.
  { destruct (heap w3 !! this) as [x3|] eqn:Hx3.
    - rewrite (modify_lookup _ _ _ _ Hx3).
      apply (frame_store this x3 (release x3) w3 Hlt Hx3).
      intros Hrel. exfalso.
      assert (relayed st v w1 w3) as R13.
      { etrans; [exact R12|]. eapply (each_sound (relayed st v)); [|exact E3].
        intros c wa wb Hc. by destruct (relay_sound n c st v wa wb Hst Hc). }
      destruct (rl_settled _ _ _ _ R13 this x1 x3 Hx1 Hx3 Hst) as [[K _] _].
      simpl in Hrel. rewrite K in Hrel. simpl in Hrel. congruence.
    - rewrite (modify_missing _ _ _ Hx3). reflexivity. }
  assert (frame m w (modify this release w3)) as F.
  { etrans; [exact F01|]. etrans; [exact F12|]. etrans; [exact F23|exact F34]. }
  by apply F.
Qed.
End frame.

(** ** Queued calls *)

Section queued.
Implicit Types (w : world) (p q d this : id) (x y : Promise) (t : task).

Lemma each_cons f c (l : list id) w : each f (c :: l) w = f c w ≫= each f l.
Proof. reflexivity. Qed.

Lemma each_app f (l1 l2 : list id) w :
  each f (l1 ++ l2) w = each f l1 w ≫= each f l2.
Proof.
  revert w. induction l1 as [|c l1 IH]; intros w; simpl; [done|].
  destruct (f c w) as [w1|]; simpl; [apply IH|done].
Qed.

Lemma lookup_run_other p h a w q z st :
  heap w !! q = Some z →
  ∃ z', heap (_run p h a w) !! q = Some z'
        ∧ _state z' = _state z ∧ handler_for st z' = handler_for st z.
Proof.
  intros Hz. unfold _run, modify. simpl.
  destruct (heap w !! p) as [x|] eqn:Hx; [|by exists z].
  rewrite (lookup_store p q x _ w Hx). case_decide; [|by exists z].
  subst q. simplify_eq. eexists. split; [done|]. by destruct st.
Qed.

(** [_grab] over promises that are pending and hold a handler for the
    state queues their calls, in order. *)
Lemma each_grab_run n st a : ∀ (ds : list id) (hs : list handler) w,
  length ds = length hs →
  (∀ i d h, ds !! i = Some d → hs !! i = Some h →
     ∃ y, heap w !! d = Some y ∧ is_pending (_state y) = true
          ∧ handler_for st y = Some h) →
  ∃ w', each (λ c, grab_with (_relay n) c st a) ds w = Some w'
        ∧ queue w' = queue w ++ zip_with (λ d h, TRun d h a) ds hs.
Proof.
  induction ds as [|d ds IH]; intros [|h hs] w Hlen Hall;
    try discriminate Hlen.
  - exists w. simpl. by rewrite app_nil_r.
  - injection Hlen as Hlen.
    destruct (Hall 0 d h eq_refl eq_refl) as (y & Hy & Hp & Hh).
    rewrite each_cons. cbv beta.
    change (grab_with (_relay n) d st a w) with (_grab n d st a w).
    rewrite (grab_unfold _ _ _ _ _ _ Hy Hp), Hh.
    destruct (IH hs (_run d h a w)) as (w' & E & Q); [done| |].
    { intros i d' h' Hd' Hh'.
      destruct (Hall (S i) d' h' Hd' Hh') as (y' & Hy' & Hp' & Hh'').
      destruct (lookup_run_other d h a w d' y' st Hy') as (z' & Hz' & S1 & S2).
      exists z'. split; [done|]. split; [by rewrite S1|by rewrite S2]. }
    exists w'. split; [done|]. rewrite Q, queue_run. by rewrite <- app_assoc.
Qed.

(** One turn of the event loop: the call is recorded, and the rest is
    internal. *)
Lemma tick_step w t rest :
  queue w = t :: rest →
  ∃ w', tick w = Some w' ∧ internal (begin_task t rest w) w'.
Proof.
  intros Hq. destruct t as [d h a]. rewrite (tick_unfold w d h a rest Hq).
  destruct (hbody h a) as [ret|error].
  - by apply unpack_spec.
  - by apply callk_spec.
Qed.

(** Running the calls at the head of the queue records them in order. *)
Lemma run_queue : ∀ (ts : list task) w rest,
  queue w = ts ++ rest →
  ∃ w' extra, steps (replicate (length ts) OTick) w = Some w'
    ∧ log w' = log w ++ ts ∧ queue w' = rest ++ extra.
Proof.
  induction ts as [|t ts IH]; intros w rest Hq; simpl.
  - exists w, []. by rewrite !app_nil_r.
  - destruct (tick_step w t (ts ++ rest) Hq) as (w1 & -> & I). simpl.
    destruct (in_queue _ _ I) as [e1 Q1]. simpl in Q1.
    destruct (IH w1 (rest ++ e1)) as (w' & extra & -> & L & Q).
    { by rewrite Q1, app_assoc. }
    exists w', (e1 ++ extra). split; [done|].
    rewrite L, (in_log _ _ I). simpl. rewrite <- !app_assoc. simpl.
    split; [done|]. by rewrite Q, app_assoc.
Qed.

Lemma filter_none (P : task → Prop) `{!∀ t, Decision (P t)} (l : list task) :
  Forall (λ t, ¬ P t) l → filter P l = [].
Proof.
  induction 1 as [|t l Ht _ IH]; [done|]. by rewrite filter_cons_False.
Qed.

Lemma filter_all (P : task → Prop) `{!∀ t, Decision (P t)} (l : list task) :
  Forall P l → filter P l = l.
Proof.
  induction 1 as [|t l Ht _ IH]; [done|]. rewrite filter_cons_True by done.
  by rewrite IH.
Qed.
End queued.

(** ** Attaching several handlers *)

(** [x] with [d] chained on it. *)
Definition link1 (x : Promise) (d : id) : Promise :=
  set_chained (link d (_chainedPromise x) (_chainedPromises x)).1
              (link d (_chainedPromise x) (_chainedPromises x)).2 x.

(** The future [then(h, r)] creates. *)
Definition attached (hr : handler * jsarg) : Promise :=
  set_handlers (Some hr.1) (as_function hr.2) fresh.

(** The promise a continuation settles. *)
Definition ktarget (k : cont) : id :=
  match k with KGrab p | KRelay p => p end.

Definition cell_below (m : nat) (c : option (id * cont)) : Prop :=
  match c with
  | Some (this, k) => this < m ∧ ktarget k < m
  | None => True
  end.

(** The world holds no reference to a promise that is not in the store:
    what is chained on or has adopted a pending promise is in the store,
    and so are the promise of every queued task and the promises the
    callbacks handed to foreign code close over. *)
Definition closed (w : world) : Prop :=
  below (length (heap w)) w
  ∧ Forall (λ t, target t < length (heap w)) (queue w)
  ∧ Forall (cell_below (length (heap w))) (cells w).

(** The operations a program can make on a world: those on promises
    that exist. *)
Definition op_ok (o : op) (w : world) : Prop :=
  match o with
  | OThen p _ _ | OResolve p _ | OReject p _ => p < length (heap w)
  | _ => True
  end.

Fixpoint steps_ok (os : list op) (w : world) : Prop :=
  match os with
  | [] => True
  | o :: os' => op_ok o w ∧ ∀ w', step o w = Some w' → steps_ok os' w'
  end.

Section attach.
Implicit Types (w : world) (p q d f this : id) (x y : Promise) (t : task).

Lemma then_pending f a b w x :
  heap w !! f = Some x → is_pending (_state x) = true →
  then_ f a b w
  = Some (length (heap w),
          with_heap (<[f := link1 x (length (heap w))]> (heap w)
                     ++ [set_handlers (as_function a) (as_function b) fresh]) w).
Proof.
  intros Hx Hp. unfold then_, link1. rewrite Hx, Hp. simpl.
  destruct (link _ _ _) as [one many]. simpl.
  unfold store, with_heap. simpl. do 3 f_equal.
  apply insert_app_l. by eapply lookup_lt_Some.
Qed.

Lemma link1_state x d : _state (link1 x d) = _state x.
Proof. reflexivity. Qed.

Lemma link_all_spec (ds : list id) : ∀ x,
  _state (foldl link1 x ds) = _state x
  ∧ _handledPromise (foldl link1 x ds) = _handledPromise x
  ∧ _handledPromises (foldl link1 x ds) = _handledPromises x
  ∧ slots (_chainedPromise (foldl link1 x ds)) (_chainedPromises (foldl link1 x ds))
    = slots (_chainedPromise x) (_chainedPromises x) ++ ds.
Proof.
  induction ds as [|d ds IH]; intros x; simpl.
  - by rewrite app_nil_r.
  - destruct (IH (link1 x d)) as (S1 & S2 & S3 & S4).
    rewrite S1, S2, S3, S4. repeat split.
    unfold link1. simpl. rewrite slots_link. by rewrite <- app_assoc.
Qed.

Lemma attach_all_spec f : ∀ hs w x,
  heap w !! f = Some x → is_pending (_state x) = true →
  attach_all f hs w
  = Some (seq (length (heap w)) (length hs),
          with_heap (<[f := foldl link1 x (seq (length (heap w)) (length hs))]>
                       (heap w) ++ (attached <$> hs)) w).
Proof.
  induction hs as [|[h r] hs IH]; intros w x Hx Hp; simpl.
  - rewrite app_nil_r, list_insert_id by done. by destruct w.
  - rewrite (then_pending f (AFn h) r w x Hx Hp). simpl.
    set (w1 := with_heap _ w).
    assert (f < length (heap w)) as Hlt by by eapply lookup_lt_Some.
    assert (heap w1 !! f = Some (link1 x (length (heap w)))) as Hx1.
    { unfold w1. simpl. rewrite lookup_app_l by by rewrite length_insert.
      by apply list_lookup_insert_eq. }
    assert (length (heap w1) = S (length (heap w))) as Hlen.
    { unfold w1. simpl. rewrite length_app, length_insert. simpl. lia. }
    rewrite (IH w1 (link1 x (length (heap w))) Hx1); [|by rewrite link1_state].
    rewrite Hlen. simpl. do 2 f_equal.
    unfold w1, with_heap. simpl. f_equal.
    rewrite insert_app_l by by rewrite length_insert.
    rewrite list_insert_insert_eq. by rewrite <- app_assoc.
Qed.
Lemma below_relayed m st v w w' : relayed st v w w' → below m w → below m w'.
Proof.
  intros R Hb p x' c Hx' Hp Hc.
  destruct (internal_lookup_back _ _ _ _ (rl_internal _ _ _ _ R) Hx') as [x Hx].
  destruct (rl_pending _ _ _ _ R p x x' Hx Hx' Hp) as (L1 & L2 & L3 & L4 & _).
  rewrite L1, L2, L3, L4 in Hc. eapply Hb; [exact Hx| |exact Hc].
  destruct (settled_or_pending x) as [Hs|]; [|done].
  destruct (rl_settled _ _ _ _ R p x x' Hx Hx' Hs) as [[K _] _].
  unfold settled in Hs. congruence.
Qed.

(** The parts of the activation of [_relay] that settles [this]. *)
Lemma relay_parts n this st v w w' x :
  is_pending st = false →
  heap w !! this = Some x → is_pending (_state x) = true →
  _relay (S n) this st v w = Some w' →
  ∃ w2 w3,
    each (λ c, grab_with (_relay n) c st v)
         (slots (_chainedPromise x) (_chainedPromises x))
         (store this (set_state st v x) w) = Some w2
    ∧ each (λ c, _relay n c st v)
           (slots (_handledPromise x) (_handledPromises x)) w2 = Some w3
    ∧ w' = modify this release w3
    ∧ relayed st v (store this (set_state st v x) w) w2
    ∧ relayed st v w2 w3.
Proof.
  intros Hst Hx Hp. rewrite relay_S, Hx, Hp.
  set (x1 := set_state st v x). set (w1 := store this x1 w).
  assert (heap w1 !! this = Some x1) as Hx1 by by eapply lookup_store_eq.
  assert (successors this w1 = slots (_chainedPromise x) (_chainedPromises x))
    as -> by (unfold successors; by rewrite Hx1).
  destruct (each _ _ w1) as [w2|] eqn:E2; [|discriminate].
  assert (relayed st v w1 w2) as R12.
  { eapply (each_sound (relayed st v)); [|exact E2].
    intros c wa wb Hc. by destruct (grab_relayed n c st v wa wb Hst Hc). }
  destruct (internal_lookup _ _ _ _ (rl_internal _ _ _ _ R12) Hx1) as [x2 Hx2].
  destruct (rl_settled _ _ _ _ R12 this x1 x2 Hx1 Hx2 Hst) as [_ (_&_&L3&L4&_)].
  assert (adopters this w2 = slots (_handledPromise x) (_handledPromises x))
    as Had by (unfold adopters; by rewrite Hx2, L3, L4).
  cbn [mbind option_bind]. rewrite Had.
  destruct (each _ _ w2) as [w3|] eqn:E3; [|discriminate].
  cbn [mbind option_bind]. intros ?; simplify_eq.
  exists w2, w3. split; [done|]. split; [done|]. split; [done|].
  split; [done|].
  eapply (each_sound (relayed st v)); [|exact E3].
  intros c wa wb Hc. by destruct (relay_sound n c st v wa wb Hst Hc).
Qed.
End attach.

(** ** The callbacks handed to a foreign [then] *)

(** A [then] that calls no callback but the two it has just been
    handed. *)
Fixpoint own_only (body : script) : bool :=
  match body with
  | SReturn | SThrow _ => true
  | SCall OwnResolve _ k | SCall OwnReject _ k => own_only k
  | SCall _ _ _ => false
  end.

Definition own (f : callee) : bool :=
  match f with OwnResolve | OwnReject => true | _ => false end.

Section callbacks.
Implicit Types (w : world) (c : nat) (k : script) (cb : cont).

(** Once [callback] is [undefined], the callbacks of its cell and the
    [catch] block do nothing. *)
Lemma spent_cell n c k : ∀ w,
  own_only k = true → cells w !! c = Some None → run_then n c k w = Some w.
Proof.
  induction k as [|e|f arg k IH]; intros w Hk Hc; simpl.
  - done.
  - unfold reject_cb. by rewrite Hc.
  - destruct f; try discriminate; unfold resolve_cb, reject_cb; rewrite Hc;
      simpl; by apply IH.
Qed.

Lemma reject_cb_spends n c reason w :
  c < length (cells w) → pendings w ≤ n →
  ∃ w', reject_cb n c reason w = Some w' ∧ cells w' !! c = Some None.
Proof.
  intros Hc Hn. unfold reject_cb.
  destruct (cells w !! c) as [[[this k0]|]|] eqn:E.
  - destruct (callk_spec n k0 rejected reason w eq_refl Hn) as (w' & -> & I).
    simpl. eexists. split; [done|]. simpl. apply list_lookup_insert_eq.
    pose proof (in_cells _ _ I). lia.
  - by exists w.
  - apply lookup_ge_None in E. lia.
Qed.

Lemma resolve_cb_spends n arg c w :
  c < length (cells w) → pendings w ≤ n →
  ∃ w', resolve_cb (λ this cb, _unpack n this arg cb) c w = Some w'
        ∧ cells w' !! c = Some None.
Proof.
  intros Hc Hn. unfold resolve_cb.
  destruct (cells w !! c) as [[[this k0]|]|] eqn:E.
  - destruct (unpack_spec n this arg k0 w Hn) as (w' & -> & I).
    simpl. eexists. split; [done|]. simpl. apply list_lookup_insert_eq.
    pose proof (in_cells _ _ I). lia.
  - by exists w.
  - apply lookup_ge_None in E. lia.
Qed.

(** Of the calls such a [then] makes, the first alone has an effect:
    what follows it in the body, a second call, a call of the other
    callback or a [throw], changes nothing. *)
Lemma first_call_wins n this f arg k cb w :
  own f = true → own_only k = true → pendings w ≤ n →
  _unpack n this (VObject (ThenFn (SCall f arg k))) cb w
  = _unpack n this (VObject (ThenFn (SCall f arg SReturn))) cb w.
Proof.
  intros Hf Hk Hn. simpl.
  set (c := length (cells w)). set (w0 := alloc_cell this cb w).
  assert (c < length (cells w0)) as Hc.
  { unfold w0, c. simpl. rewrite length_app. simpl. lia. }
  destruct f; try discriminate.
  - destruct (resolve_cb_spends n arg c w0 Hc Hn) as (w1 & -> & Hs).
    simpl. by apply spent_cell.
  - destruct (reject_cb_spends n c arg w0 Hc Hn) as (w1 & -> & Hs).
    simpl. by apply spent_cell.
Qed.

Lemma lookup_alloc_cell this cb w :
  cells (alloc_cell this cb w) !! length (cells w) = Some (Some (this, cb)).
Proof. apply list_lookup_middle, eq_refl. Qed.

Lemma reject_cb_fresh n this reason cb w :
  reject_cb n (length (cells w)) reason (alloc_cell this cb w)
  = w' ← callk n cb rejected reason (alloc_cell this cb w);
    Some (clear_cell (length (cells w)) w').
Proof. unfold reject_cb. by rewrite lookup_alloc_cell. Qed.

(** What that first call does, when it is the second callback. *)
Lemma first_call_reject n this reason cb w :
  _unpack n this (VObject (ThenFn (SCall OwnReject reason SReturn))) cb w
  = w' ← callk n cb rejected reason (alloc_cell this cb w);
    Some (clear_cell (length (cells w)) w').
Proof.
  change (_unpack n this _ cb w)
    with (w' ← reject_cb n (length (cells w)) reason (alloc_cell this cb w);
          Some w').
  rewrite reject_cb_fresh. by destruct (callk _ _ _ _ _).
Qed.

(** And when it is the first callback. *)
Lemma first_call_resolve n this arg cb w :
  _unpack n this (VObject (ThenFn (SCall OwnResolve arg SReturn))) cb w
  = w' ← _unpack n this arg cb (alloc_cell this cb w);
    Some (clear_cell (length (cells w)) w').
Proof.
  change (_unpack n this (VObject _) cb w)
    with (w' ← resolve_cb (λ this cb, _unpack n this arg cb)
                 (length (cells w)) (alloc_cell this cb w);
          Some w').
  unfold resolve_cb. rewrite lookup_alloc_cell.
  by destruct (_unpack _ _ _ _ _).
Qed.

(** A [then] that throws before it has called a callback delivers a
    rejection with what it threw; so does a [then] that cannot be
    read. *)
Lemma then_throws n this e cb w :
  _unpack n this (VObject (ThenFn (SThrow e))) cb w
  = w' ← callk n cb rejected e (alloc_cell this cb w);
    Some (clear_cell (length (cells w)) w').
Proof.
  change (_unpack n this _ cb w)
    with (reject_cb n (length (cells w)) e (alloc_cell this cb w)).
  apply reject_cb_fresh.
Qed.

Lemma then_getter_throws n this e cb w :
  _unpack n this (VObject (ThenThrows e)) cb w = callk n cb rejected e w.
Proof. reflexivity. Qed.
End callbacks.

(** ** Closed worlds *)

Section closed.
Implicit Types (w : world) (p q d f this : id) (x y : Promise) (t : task).

Lemma closed_empty : closed empty.
Proof.
  split; [|split; constructor]. intros p x c Hx. by destruct p.
Qed.

Lemma closed_relay n this st v w w' :
  is_pending st = false → closed w → this < length (heap w) →
  _relay n this st v w = Some w' → closed w'.
Proof.
  intros Hst (Hb & Hq & Hc) Hlt E.
  destruct (relay_sound n this st v w w' Hst E) as [R _].
  destruct (relay_frame (length (heap w)) n this st v w w' Hst Hlt E Hb)
    as (_ & Hb' & extra & Q & T).
  unfold closed.
  rewrite (in_length _ _ (rl_internal _ _ _ _ R)), (rl_cells _ _ _ _ R), Q.
  split; [done|]. split; [by apply Forall_app|done].
Qed.

Lemma closed_grab n this st v w w' :
  is_pending st = false → closed w → this < length (heap w) →
  _grab n this st v w = Some w' → closed w'.
Proof.
  intros Hst (Hb & Hq & Hc) Hlt E.
  destruct (grab_relayed n this st v w w' Hst E) as [R _].
  assert (frame (length (heap w)) w w') as F.
  { apply (grab_frame (length (heap w)) (_relay n) this st v w w' Hlt); [|exact E].
    intros wa wb. by apply relay_frame. }
  destruct (F Hb) as (_ & Hb' & extra & Q & T).
  unfold closed.
  rewrite (in_length _ _ (rl_internal _ _ _ _ R)), (rl_cells _ _ _ _ R), Q.
  split; [done|]. split; [by apply Forall_app|done].
Qed.

(** Changing what is not a reference keeps a world closed. *)
Lemma closed_same w w' :
  length (heap w') = length (heap w) →
  (∀ p x', heap w' !! p = Some x' → is_pending (_state x') = true →
     ∃ x, heap w !! p = Some x ∧ is_pending (_state x) = true
          ∧ same_links x x') →
  Forall (λ t, target t < length (heap w)) (queue w') →
  Forall (cell_below (length (heap w))) (cells w') →
  closed w → closed w'.
Proof.
  intros L H Hq' Hc' (Hb & _ & _). unfold closed. rewrite L. split; [|done].
  intros p x' c Hx' Hp Hc. destruct (H p x' Hx' Hp) as (x & Hx & Hpx & S).
  destruct S as (L1 & L2 & L3 & L4 & _). rewrite L1, L2, L3, L4 in Hc.
  by eapply Hb.
Qed.

Lemma closed_modify_running p b w : closed w → closed (modify p (set_running b) w).
Proof.
  intros Hc. destruct (heap w !! p) as [x|] eqn:Hx.
  - rewrite (modify_lookup _ _ _ _ Hx).
    apply (closed_same w); [apply length_store| |apply Hc..|done].
    intros q x' Hx' Hp. rewrite (lookup_store p q x _ w Hx) in Hx'.
    case_decide; simplify_eq.
    + exists x. by repeat split.
    + exists x'. split; [done|]. split; [done|]. apply same_links_refl.
  - by rewrite (modify_missing _ _ _ Hx).
Qed.

Lemma closed_callk n k st v w w' :
  is_pending st = false → closed w → ktarget k < length (heap w) →
  callk n k st v w = Some w' → closed w'.
Proof.
  intros Hst Hc Hlt. destruct k as [p|p]; simpl.
  - by apply closed_grab.
  - destruct (_relay n p st v w) as [w1|] eqn:E; [|done].
    intros ?; simplify_eq/=. apply closed_modify_running.
    by eapply closed_relay.
Qed.

Lemma closed_cells c w :
  Forall (cell_below (length (heap w))) c → closed w → closed (with_cells c w).
Proof. intros Hc (Hb & Hq & _). by split. Qed.

Lemma closed_clear_cell c w : closed w → closed (clear_cell c w).
Proof.
  intros Hc. apply closed_cells; [|done].
  apply Forall_insert; [apply Hc|done].
Qed.

Lemma closed_alloc_cell this k w :
  this < length (heap w) → ktarget k < length (heap w) →
  closed w → closed (alloc_cell this k w).
Proof.
  intros H1 H2 Hc. apply closed_cells; [|done].
  apply Forall_app. split; [apply Hc|]. by apply Forall_singleton.
Qed.

Lemma closed_adopt q this x w :
  heap w !! q = Some x → this < length (heap w) →
  closed w → closed (adopt q this x w).
Proof.
  intros Hx Hlt (Hb & Hq & Hc). unfold adopt.
  pose proof (slots_link this (_handledPromise x) (_handledPromises x)) as E.
  destruct (link this _ _) as [one many]. simpl in E.
  split; [|by rewrite length_store]. rewrite length_store.
  intros p y c Hy Hp Hin. rewrite (lookup_store q p x _ w Hx) in Hy.
  case_decide; simplify_eq; [|by eapply Hb].
  simpl in Hin. rewrite E in Hin.
  apply elem_of_app in Hin as [Hin|Hin].
  - eapply Hb; [exact Hx|done|]. apply elem_of_app. by left.
  - apply elem_of_app in Hin as [Hin|Hin].
    + eapply Hb; [exact Hx|done|]. apply elem_of_app. by right.
    + apply list_elem_of_singleton in Hin. by subst.
Qed.

Lemma closed_reject_cb n c reason w w' :
  closed w → reject_cb n c reason w = Some w' → closed w'.
Proof.
  intros Hc. unfold reject_cb.
  destruct (cells w !! c) as [[[this k]|]|] eqn:E;
    [|by intros ?; simplify_eq..].
  destruct (callk n k rejected reason w) as [w1|] eqn:Ek; [|done].
  intros ?; simplify_eq/=. apply closed_clear_cell.
  apply (closed_callk n k rejected reason w w1 eq_refl Hc); [|exact Ek].
  destruct Hc as (_ & _ & Hcells).
  by pose proof (Forall_lookup_1 _ _ _ _ Hcells E) as [H1 H2].
Qed.

Lemma closed_resolve_cb (f : id → cont → world → option world) c w w' :
  (∀ this k w', this < length (heap w) → ktarget k < length (heap w) →
     f this k w = Some w' → closed w') →
  closed w → resolve_cb f c w = Some w' → closed w'.
Proof.
  intros Hf Hc. unfold resolve_cb.
  destruct (cells w !! c) as [[[this k]|]|] eqn:E;
    [|by intros ?; simplify_eq..].
  destruct (f this k w) as [w1|] eqn:Ek; [|done].
  intros ?; simplify_eq/=. apply closed_clear_cell.
  destruct Hc as (_ & _ & Hcells).
  pose proof (Forall_lookup_1 _ _ _ _ Hcells E) as [H1 H2].
  eapply Hf; [exact H1|exact H2|exact Ek].
Qed.

Lemma closed_unpack_run n :
  (∀ v this cb w w', closed w → this < length (heap w) →
     ktarget cb < length (heap w) →
     _unpack n this v cb w = Some w' → closed w')
  ∧ (∀ m this cb w w', closed w → this < length (heap w) →
     ktarget cb < length (heap w) →
     _unpack n this (VObject m) cb w = Some w' → closed w')
  ∧ (∀ body c w w', closed w → run_then n c body w = Some w' → closed w').
Proof.
  apply value_mutind;
    try (intros; simpl in *; by eapply (closed_callk n cb fulfilled)).
  - (* a promise *)
    intros q this cb w w' Hc H1 H2. simpl. destruct (Nat.eqb q this).
    { by apply closed_callk. }
    destruct (heap w !! q) as [x|] eqn:Hx; [|by intros ?; simplify_eq].
    destruct (is_pending (_state x)) eqn:Hp.
    + intros ?; simplify_eq. by apply closed_adopt.
    + by apply closed_callk.
  - (* an object *)
    intros m IH this cb w w'. apply IH.
  - (* reading [then] throws *)
    intros e _ this cb w w' Hc H1 H2. simpl. by apply closed_callk.
  - (* its [then] is a function *)
    intros body IH this cb w w' Hc H1 H2. simpl. apply IH.
    by apply closed_alloc_cell.
  - (* the call returns *)
    intros c w w' Hc. simpl. by intros ?; simplify_eq.
  - (* the call throws *)
    intros e _ c w w' Hc. simpl. by apply closed_reject_cb.
  - (* the call calls a callback *)
    intros f arg IHarg body IHbody c w w' Hc. simpl.
    destruct (match f with
              | OwnResolve => _ | OwnReject => _
              | KeptResolve c' => _ | KeptReject c' => _ end)
      as [w1|] eqn:E1; [|done].
    simpl. apply IHbody.
    destruct f.
    + eapply closed_resolve_cb; [|exact Hc|exact E1].
      intros this k w2 H1 H2. by apply IHarg.
    + by eapply closed_reject_cb.
    + eapply closed_resolve_cb; [|exact Hc|exact E1].
      intros this k w2 H1 H2. by apply IHarg.
    + by eapply closed_reject_cb.
Qed.

Lemma closed_unpack n this v cb w w' :
  closed w → this < length (heap w) → ktarget cb < length (heap w) →
  _unpack n this v cb w = Some w' → closed w'.
Proof. destruct (closed_unpack_run n) as (H & _). apply H. Qed.

Lemma closed_construct x w :
  slots (_chainedPromise x) (_chainedPromises x) = [] →
  slots (_handledPromise x) (_handledPromises x) = [] →
  closed w → closed (construct x w).2.
Proof.
  intros H1 H2 (Hb & Hq & Hc). unfold closed. simpl. rewrite length_app. simpl.
  split; [|split].
  - intros p y c Hy Hp Hin. apply lookup_app_Some in Hy as [Hy|[Hge Hy]].
    + assert (c < length (heap w)) by by eapply Hb. lia.
    + apply list_lookup_singleton_Some in Hy as [_ <-].
      rewrite H1, H2 in Hin. by apply elem_of_nil in Hin.
  - eapply Forall_impl; [exact Hq|]. simpl. intros. lia.
  - eapply Forall_impl; [exact Hc|]. intros [[this k]|]; simpl; [|done].
    intros [??]. split; lia.
Qed.

(** Every operation on promises that exist keeps a world closed. *)
Lemma closed_step o w w' : closed w → op_ok o w → step o w = Some w' → closed w'.
Proof.
  intros Hc Hok. destruct o as [|p f r|p v|p r| |c v|c r]; simpl in *.
  - intros ?; simplify_eq. by apply closed_construct.
  - destruct (lookup_lt_is_Some_2 (heap w) p Hok) as [x Hx].
    unfold then_. rewrite Hx. simpl.
    set (x0 := set_handlers _ _ fresh).
    assert (closed (construct x0 w).2) as Hc0 by by apply closed_construct.
    destruct (is_pending (_state x)) eqn:Hp.
    + pose proof (slots_link (length (heap w)) (_chainedPromise x)
                    (_chainedPromises x)) as E.
      destruct (link _ _ _) as [one many]. simpl in E. simpl.
      intros ?; simplify_eq.
      assert (heap (construct x0 w).2 !! p = Some x) as Hx0
        by by apply lookup_app_l_Some.
      destruct Hc0 as (Hb0 & Hq0 & Hcells0).
      split; [|by rewrite length_store]. rewrite length_store.
      intros q y c Hy Hpy Hin.
      rewrite (lookup_store p q x _ _ Hx0) in Hy.
      case_decide; simplify_eq; [|by eapply Hb0].
      simpl in Hin. rewrite E in Hin.
      apply elem_of_app in Hin as [Hin|Hin].
      * apply elem_of_app in Hin as [Hin|Hin].
        -- eapply Hb0; [exact Hx0|done|]. apply elem_of_app. by left.
        -- apply list_elem_of_singleton in Hin. subst c. simpl.
           rewrite length_app. simpl. lia.
      * eapply Hb0; [exact Hx0|done|]. apply elem_of_app. by right.
    + destruct (_grab _ _ _ _ _) as [w2|] eqn:E; [|done].
      simpl. intros ?; simplify_eq. eapply closed_grab; [exact Hp|exact Hc0| |exact E].
      simpl. rewrite length_app. simpl. lia.
  - by apply closed_unpack.
  - by apply closed_grab.
  - unfold tick. destruct (queue w) as [|[d h a] rest] eqn:Eq.
    { by intros ?; simplify_eq. }
    destruct Hc as (Hb & Hq & Hcells). rewrite Eq in Hq.
    apply Forall_cons in Hq as [Hd Hq]. simpl in Hd.
    assert (closed (begin_task (TRun d h a) rest w)) as Hc1 by by split.
    destruct (hbody h a) as [ret|error].
    + by apply closed_unpack.
    + by apply closed_callk.
  - apply closed_resolve_cb; [|done]. intros this k w2 H1 H2.
    by apply closed_unpack.
  - by apply closed_reject_cb.
Qed.

Lemma closed_steps os : ∀ w w',
  closed w → steps_ok os w → steps os w = Some w' → closed w'.
Proof.
  induction os as [|o os IH]; intros w w' Hc Hok Hs; simpl in *.
  - by simplify_eq.
  - destruct Hok as [Ho Hrest].
    destruct (step o w) as [w1|] eqn:E; simplify_eq/=.
    apply (IH w1); [by eapply closed_step|by apply Hrest|done].
Qed.
End closed.

(** The constructor: a resolver that resolves, and one that throws. *)
Example resolver_resolves :
  ∃ w, new_Promise (Some (SCall OwnResolve (VNum 5) SReturn)) empty = Some (0, w)
    ∧ state_of 0 w = Some fulfilled ∧ result_of 0 w = Some (VNum 5).
Proof. eexists. repeat split; reflexivity. Qed.

Example resolver_throws :
  ∃ w, new_Promise (Some (SThrow (VStr "E"))) empty = Some (0, w)
    ∧ state_of 0 w = Some rejected ∧ result_of 0 w = Some (VStr "E").
Proof. eexists. repeat split; reflexivity. Qed.

(** ** A promise that has adopted one other *)

Definition cell_avoids (d : id) (c : option (id * cont)) : Prop :=
  match c with
  | Some (this, k) => this ≠ d ∧ ktarget k ≠ d
  | None => True
  end.

(** [d], pending, has adopted the pending promise [b], and nothing else
    in the world can reach [d]: no pending promise has [d] chained on
    it, none but [b] has been adopted by [d], no queued task and no
    callback handed to foreign code is for [d]. *)
Record linked (b d : id) (w : world) : Prop := {
  lk_ne : b ≠ d;
  lk_b : ∃ y, heap w !! b = Some y ∧ is_pending (_state y) = true
           ∧ d ∈ slots (_handledPromise y) (_handledPromises y);
  lk_d : ∃ x, heap w !! d = Some x ∧ is_pending (_state x) = true;
  lk_chained : ∀ p x, heap w !! p = Some x → is_pending (_state x) = true →
    d ∉ slots (_chainedPromise x) (_chainedPromises x);
  lk_handled : ∀ p x, heap w !! p = Some x → is_pending (_state x) = true →
    p ≠ b → d ∉ slots (_handledPromise x) (_handledPromises x);
  lk_queue : Forall (λ t, target t ≠ d) (queue w);
  lk_cells : Forall (cell_avoids d) (cells w) }.

(** [b] and [d] are settled, with the same state and the same result. *)
Definition tied (b d : id) (w : world) : Prop :=
  ∃ y x, heap w !! b = Some y ∧ heap w !! d = Some x
    ∧ settled y ∧ settled x
    ∧ _state x = _state y ∧ _valueOrReason x = _valueOrReason y.

(** From linked to linked or tied, and from tied to tied. *)
Definition follows (b d : id) (w w' : world) : Prop :=
  (tied b d w → tied b d w')
  ∧ (linked b d w → linked b d w' ∨ tied b d w').

(** The operations that are not [d.resolve(...)] or [d.reject(...)]. *)
Definition leaves (d : id) (o : op) : Prop :=
  match o with
  | OResolve p _ | OReject p _ => p ≠ d
  | _ => True
  end.

Section linked.
Context (b d : id).
Implicit Types (w : world) (p q this : id) (x y : Promise) (t : task).

Global Instance follows_preorder : PreOrder (follows b d).
Proof.
  split.
  - intros w. split; [done|]. by left.
  - intros w1 w2 w3 [T12 L12] [T23 L23]. split; [by auto|].
    intros H1. destruct (L12 H1) as [H2|H2]; [by apply L23|].
    right. by apply T23.
Qed.

Lemma tied_mono w w' : mono w w' → tied b d w → tied b d w'.
Proof.
  intros M (y & x & Hy & Hx & Sy & Sx & E1 & E2).
  destruct (M b y Hy) as (y' & Hy' & Ky). destruct (Ky Sy) as [Ky1 Ky2].
  destruct (M d x Hx) as (x' & Hx' & Kx). destruct (Kx Sx) as [Kx1 Kx2].
  exists y', x'. split; [done|]. split; [done|].
  split; [by eapply kept_settled; [split|]|].
  split; [by eapply kept_settled; [split|]|].
  split; congruence.
Qed.

Lemma follows_mono w w' :
  mono w w' → (linked b d w → linked b d w' ∨ tied b d w') → follows b d w w'.
Proof. intros M L. split; [by apply tied_mono|done]. Qed.

(** Replacing a promise by one that refers to [d] no more than before
    and is as pending as before where it is [b] or [d]. *)
Lemma linked_store p x y w :
  heap w !! p = Some x →
  (p = b → is_pending (_state y) = true
           ∧ d ∈ slots (_handledPromise y) (_handledPromises y)) →
  (p = d → is_pending (_state y) = true) →
  (is_pending (_state y) = true →
     is_pending (_state x) = true
     ∧ (d ∈ slots (_chainedPromise y) (_chainedPromises y) →
        d ∈ slots (_chainedPromise x) (_chainedPromises x))
     ∧ (d ∈ slots (_handledPromise y) (_handledPromises y) →
        d ∈ slots (_handledPromise x) (_handledPromises x))) →
  linked b d w → linked b d (store p y w).
Proof.
  intros Hx Hb Hd Hy [Hne (yb & Hyb & Hpb & Hin) (xd & Hxd & Hpd) Hc Hh Hq Hcl].
  assert (∀ q, heap (store p y w) !! q
               = if decide (p = q) then Some y else heap w !! q) as Hl
    by (intros q; by apply (lookup_store p q x)).
  split; try done.
  - rewrite Hl. case_decide as E; [|by exists yb].
    subst p. destruct (Hb eq_refl). by exists y.
  - rewrite Hl. case_decide as E; [|by exists xd].
    subst p. exists y. split; [done|]. by apply Hd.
  - intros q z Hz Hpz. rewrite Hl in Hz. case_decide; simplify_eq; [|by eapply Hc].
    destruct (Hy Hpz) as (Hpx & Hsub & _). intros Hin'. by eapply Hc, Hsub.
  - intros q z Hz Hpz Hqb. rewrite Hl in Hz.
    case_decide; simplify_eq; [|by eapply Hh].
    destruct (Hy Hpz) as (Hpx & _ & Hsub). intros Hin'. by eapply Hh, Hsub.
Qed.

Lemma linked_queue ts w :
  Forall (λ t, target t ≠ d) ts → linked b d w → linked b d (with_queue ts w).
Proof. intros Hts []. by split. Qed.

Lemma linked_cells cs w :
  Forall (cell_avoids d) cs → linked b d w → linked b d (with_cells cs w).
Proof. intros Hcs []. by split. Qed.

Lemma linked_log l w : linked b d w → linked b d (with_log l w).
Proof. intros []. by split. Qed.

Lemma linked_modify_running p r w :
  linked b d w → linked b d (modify p (set_running r) w).
Proof.
  intros Hl. destruct (heap w !! p) as [x|] eqn:Hx.
  - rewrite (modify_lookup _ _ _ _ Hx).
    apply (linked_store p x); try done.
    + intros ->. destruct (lk_b _ _ _ Hl) as (y & Hy & Hp & Hin).
      simplify_eq. by split.
    + intros ->. destruct (lk_d _ _ _ Hl) as (z & Hz & Hp). by simplify_eq.
  - by rewrite (modify_missing _ _ _ Hx).
Qed.

Lemma linked_run this h a w :
  this ≠ d → linked b d w → linked b d (_run this h a w).
Proof.
  intros Hne Hl. unfold _run. apply linked_queue.
  - apply Forall_app. split; [|by apply Forall_singleton].
    unfold modify. destruct (heap w !! this); apply (lk_queue _ _ _ Hl).
  - by apply linked_modify_running.
Qed.
Lemma mono_store p x y w :
  heap w !! p = Some x → (settled x → kept x y) → mono w (store p y w).
Proof.
  intros Hx K q z Hz. rewrite (lookup_store p q x y w Hx).
  case_decide; simplify_eq; eauto using kept_refl.
Qed.

Lemma grab_follows (relay : id → State → value → world → option world)
    this st v w w' :
  this ≠ d →
  (∀ w w', relay this st v w = Some w' → follows b d w w') →
  grab_with relay this st v w = Some w' → follows b d w w'.
Proof.
  intros Hne Hrelay. unfold grab_with.
  destruct (heap w !! this) as [x|]; [|intros ?; simplify_eq; reflexivity].
  destruct (is_pending (_state x)); [|intros ?; simplify_eq; reflexivity].
  destruct (handler_for st x) as [h|]; [|apply Hrelay].
  intros ?; simplify_eq. apply follows_mono.
  - apply internal_mono, (rl_internal st v), run_relayed.
  - intros Hl. left. by apply linked_run.
Qed.

(** [_relay] from a promise other than [d] reaches [d] through [b]
    only, and then settles both alike. *)
Lemma relay_follows n : ∀ this st v w w',
  is_pending st = false → this ≠ d →
  _relay n this st v w = Some w' → follows b d w w'.
Proof.
  induction n as [|n IH]; intros this st v w w' Hst Hne E.
  { simpl in E. destruct (heap w !! this) as [x|]; [|simplify_eq; reflexivity].
    destruct (is_pending (_state x)); simplify_eq. reflexivity. }
  destruct (relay_sound (S n) this st v w w' Hst E) as [R S].
  apply follows_mono; [apply internal_mono, R|]. intros Hl.
  destruct (heap w !! this) as [x|] eqn:Hx;
    [|rewrite relay_S, Hx in E; simplify_eq; by left].
  destruct (is_pending (_state x)) eqn:Hp;
    [|rewrite relay_S, Hx, Hp in E; simplify_eq; by left].
  destruct (decide (this = b)) as [->|Hnb].
  - (* [b] itself is settled, and [d] with it *)
    right.
    destruct (lk_b _ _ _ Hl) as (y & Hy & Hpy & Hin). simplify_eq.
    destruct (lk_d _ _ _ Hl) as (z & Hz & Hpz).
    destruct (internal_lookup _ _ _ _ (rl_internal _ _ _ _ R) Hx) as [x' Hx'].
    destruct (internal_lookup _ _ _ _ (rl_internal _ _ _ _ R) Hz) as [z' Hz'].
    destruct (rl_now _ _ _ _ R b x x' Hx Hx' Hp (S x' Hx')) as (E1 & E2 & A & _).
    pose proof (A d Hin z' Hz') as Sz.
    destruct (rl_now _ _ _ _ R d z z' Hz Hz' Hpz Sz) as (E3 & E4 & _).
    exists x', z'. repeat split; try done; [by apply S|congruence..].
  - (* another promise: its chained and adopting promises are not [d] *)
    destruct (relay_parts n this st v w w' x Hst Hx Hp E)
      as (w2 & w3 & E2 & E3 & -> & R12 & R23).
    set (w1 := store this (set_state st v x) w) in *.
    assert (follows b d w w1) as F01.
    { apply follows_mono.
      - apply (mono_store this x); [done|]. intros Hs. exfalso.
        by eapply not_settled.
      - intros _. left. by apply (linked_store this x). }
    assert (follows b d w1 w2) as F12.
    { eapply (each_sound_in (follows b d)); [|exact E2].
      intros c Hc wa wb. apply grab_follows.
      - intros ->. by eapply (lk_chained _ _ _ Hl this x).
      - intros wa' wb'. apply IH; [done|].
        intros ->. by eapply (lk_chained _ _ _ Hl this x). }
    assert (follows b d w2 w3) as F23.
    { eapply (each_sound_in (follows b d)); [|exact E3].
      intros c Hc wa wb. apply IH; [done|].
      intros ->. by eapply (lk_handled _ _ _ Hl this x). }
    assert (follows b d w3 (modify this release w3)) as F34.
    { destruct (heap w3 !! this) as [x3|] eqn:Hx3;
        [|rewrite (modify_missing _ _ _ Hx3); reflexivity].
      rewrite (modify_lookup _ _ _ _ Hx3).
      assert (settled x3) as Hs3.
      { assert (relayed st v w1 w3) as R13 by by etrans.
        assert (heap w1 !! this = Some (set_state st v x)) as Hx1
          by by eapply lookup_store_eq.
        destruct (rl_settled _ _ _ _ R13 this _ x3 Hx1 Hx3 Hst) as [[K _] _].
        unfold settled. rewrite K. exact Hst. }
      apply follows_mono.
      - apply (mono_store this x3); [done|]. by intros _.
      - intros Hl3. left. apply (linked_store this x3); try done.
        intros Hrel. exfalso. by eapply (not_settled x3). }
    assert (follows b d w (modify this release w3)) as [_ F].
    { etrans; [exact F01|]. etrans; [exact F12|]. etrans; [exact F23|exact F34]. }
    by apply F.
Qed.
Lemma callk_follows n k st v w w' :
  is_pending st = false → ktarget k ≠ d →
  callk n k st v w = Some w' → follows b d w w'.
Proof.
  intros Hst Hne. destruct k as [p|p]; simpl in *.
  - apply grab_follows; [done|]. intros wa wb. by apply relay_follows.
  - destruct (_relay n p st v w) as [w1|] eqn:E; [|done].
    intros ?; simplify_eq/=. etrans; [by eapply relay_follows|].
    apply follows_mono.
    + apply internal_mono, internal_modify_running.
    + intros Hl. left. by apply linked_modify_running.
Qed.

Lemma follows_clear_cell c w : follows b d w (clear_cell c w).
Proof.
  apply follows_mono; [by apply mono_same_heap|].
  intros Hl. left. apply linked_cells; [|done].
  apply Forall_insert; [apply Hl|done].
Qed.

Lemma reject_cb_follows n c reason w w' :
  reject_cb n c reason w = Some w' → follows b d w w'.
Proof.
  unfold reject_cb.
  destruct (cells w !! c) as [[[this k]|]|] eqn:E;
    [|intros ?; simplify_eq; reflexivity..].
  destruct (callk n k rejected reason w) as [w1|] eqn:Ek; [|done].
  intros ?; simplify_eq/=.
  assert (mono w w1) as M.
  { destruct k as [p|p]; simpl in Ek.
    - by destruct (grab_relayed n p rejected reason w w1 eq_refl Ek) as [[[]] _].
    - destruct (_relay n p rejected reason w) as [w2|] eqn:E2; simplify_eq/=.
      destruct (relay_sound n p rejected reason w w2 eq_refl E2) as [[[]] _].
      etrans; [done|]. apply internal_mono, internal_modify_running. }
  etrans; [|apply follows_clear_cell].
  apply follows_mono; [done|]. intros Hl.
  pose proof (Forall_lookup_1 _ _ _ _ (lk_cells _ _ _ Hl) E) as [H1 H2].
  by apply (callk_follows n k rejected reason w w1 eq_refl H2 Ek).
Qed.

Lemma resolve_cb_follows (f : id → cont → world → option world) c w w' :
  (∀ this k w', f this k w = Some w' → mono w w') →
  (∀ this k w', this ≠ d → ktarget k ≠ d →
     f this k w = Some w' → follows b d w w') →
  resolve_cb f c w = Some w' → follows b d w w'.
Proof.
  intros Hm Hf. unfold resolve_cb.
  destruct (cells w !! c) as [[[this k]|]|] eqn:E;
    [|intros ?; simplify_eq; reflexivity..].
  destruct (f this k w) as [w1|] eqn:Ek; [|done].
  intros ?; simplify_eq/=.
  etrans; [|apply follows_clear_cell].
  apply follows_mono; [by eapply Hm|]. intros Hl.
  pose proof (Forall_lookup_1 _ _ _ _ (lk_cells _ _ _ Hl) E) as [H1 H2].
  by apply (Hf this k w1 H1 H2 Ek).
Qed.

Lemma linked_adopt q this x w :
  heap w !! q = Some x → is_pending (_state x) = true → this ≠ d →
  linked b d w → linked b d (adopt q this x w).
Proof.
  intros Hx Hp Hne Hl. unfold adopt.
  pose proof (slots_link this (_handledPromise x) (_handledPromises x)) as E.
  destruct (link this _ _) as [one many]. simpl in E.
  apply (linked_store q x); try done.
  - intros ->. split; [done|]. simpl. rewrite E. apply elem_of_app. left.
    destruct (lk_b _ _ _ Hl) as (y & Hy & _ & Hin). by simplify_eq.
  - intros _. split; [done|]. split; [done|]. simpl. rewrite E.
    intros Hin. apply elem_of_app in Hin as [Hin|Hin]; [done|].
    apply list_elem_of_singleton in Hin. by subst.
Qed.

Lemma unpack_run_follows n :
  (∀ v this cb w w', pendings w ≤ n → this ≠ d → ktarget cb ≠ d →
     _unpack n this v cb w = Some w' → follows b d w w')
  ∧ (∀ m this cb w w', pendings w ≤ n → this ≠ d → ktarget cb ≠ d →
     _unpack n this (VObject m) cb w = Some w' → follows b d w w')
  ∧ (∀ body c w w', pendings w ≤ n →
     run_then n c body w = Some w' → follows b d w w').
Proof.
  apply value_mutind;
    try (intros; simpl in *; by eapply (callk_follows n cb fulfilled)).
  - (* a promise *)
    intros q this cb w w' Hn H1 H2. simpl. destruct (Nat.eqb q this).
    { by apply callk_follows. }
    destruct (heap w !! q) as [x|] eqn:Hx; [|intros ?; simplify_eq; reflexivity].
    destruct (is_pending (_state x)) eqn:Hp; [|by apply callk_follows].
    intros ?; simplify_eq. apply follows_mono.
    + unfold adopt. destruct (link _ _ _). by apply (mono_store q x).
    + intros Hl. left. by apply linked_adopt.
  - (* an object *)
    intros m IH this cb w w'. apply IH.
  - (* reading [then] throws *)
    intros e _ this cb w w' Hn H1 H2. simpl. by apply callk_follows.
  - (* its [then] is a function *)
    intros body IH this cb w w' Hn H1 H2. simpl. intros E.
    etrans; [|exact (IH _ (alloc_cell this cb w) w' Hn E)].
    apply follows_mono; [by apply mono_same_heap|].
    intros Hl. left. apply linked_cells; [|done].
    apply Forall_app. split; [apply Hl|]. by apply Forall_singleton.
  - (* the call returns *)
    intros c w w' Hn. simpl. intros ?; simplify_eq. reflexivity.
  - (* the call throws *)
    intros e _ c w w' Hn. simpl. apply reject_cb_follows.
  - (* the call calls a callback *)
    intros f arg IHarg body IHbody c w w' Hn. simpl.
    assert (∀ c', ∃ w1, resolve_cb (λ this cb, _unpack n this arg cb) c' w
                        = Some w1 ∧ internal w w1) as Hres.
    { intros c'. apply (resolve_cb_spec n); [|done].
      intros. by apply unpack_spec. }
    assert (∀ this k w1, _unpack n this arg k w = Some w1 → mono w w1) as Hm.
    { intros this k w1 E.
      destruct (unpack_spec n this arg k w Hn) as (w2 & E2 & I).
      simplify_eq. by apply internal_mono. }
    destruct (match f with
              | OwnResolve => _ | OwnReject => _
              | KeptResolve c' => _ | KeptReject c' => _ end)
      as [w1|] eqn:E1; [|done].
    simpl. intros E.
    assert (follows b d w w1 ∧ pendings w1 ≤ n) as [F1 Hn1].
    { destruct f.
      - destruct (Hres c) as (w2 & E2 & I).
        assert (w2 = w1) as -> by congruence.
        split; [|pose proof (in_pendings _ _ I); lia].
        apply (resolve_cb_follows (λ this cb, _unpack n this arg cb) c w w1);
          [exact Hm| |exact E1].
        intros this k w3 H1 H2. by apply IHarg.
      - destruct (reject_cb_spec n c arg w Hn) as (w2 & E2 & I).
        assert (w2 = w1) as -> by congruence.
        split; [|pose proof (in_pendings _ _ I); lia].
        by eapply reject_cb_follows.
      - destruct (Hres c0) as (w2 & E2 & I).
        assert (w2 = w1) as -> by congruence.
        split; [|pose proof (in_pendings _ _ I); lia].
        apply (resolve_cb_follows (λ this cb, _unpack n this arg cb) c0 w w1);
          [exact Hm| |exact E1].
        intros this k w3 H1 H2. by apply IHarg.
      - destruct (reject_cb_spec n c0 arg w Hn) as (w2 & E2 & I).
        assert (w2 = w1) as -> by congruence.
        split; [|pose proof (in_pendings _ _ I); lia].
        by eapply reject_cb_follows. }
    etrans; [exact F1|]. exact (IHbody c w1 w' Hn1 E).
Qed.

Lemma unpack_follows n this v cb w w' :
  pendings w ≤ n → this ≠ d → ktarget cb ≠ d →
  _unpack n this v cb w = Some w' → follows b d w w'.
Proof. destruct (unpack_run_follows n) as (H & _). apply H. Qed.

Lemma linked_construct x0 w :
  slots (_chainedPromise x0) (_chainedPromises x0) = [] →
  slots (_handledPromise x0) (_handledPromises x0) = [] →
  linked b d w → linked b d (construct x0 w).2.
Proof.
  intros H1 H2 [Hne (y & Hy & Hpy & Hin) (x & Hx & Hpx) Hc Hh Hq Hcl].
  assert (∀ p z, heap (construct x0 w).2 !! p = Some z →
            heap w !! p = Some z ∨ z = x0) as Hl.
  { intros p z Hz. simpl in Hz. apply lookup_app_Some in Hz as [Hz|[_ Hz]].
    - by left.
    - apply list_lookup_singleton_Some in Hz as [_ <-]. by right. }
  split; try done.
  - exists y. split; [by apply lookup_app_l_Some|done].
  - exists x. split; [by apply lookup_app_l_Some|done].
  - intros p z Hz Hpz. destruct (Hl p z Hz) as [Hz'| ->]; [by eapply Hc|].
    rewrite H1. apply not_elem_of_nil.
  - intros p z Hz Hpz Hpb. destruct (Hl p z Hz) as [Hz'| ->]; [by eapply Hh|].
    rewrite H2. apply not_elem_of_nil.
Qed.

(** Every operation but [d.resolve] and [d.reject] keeps [d] linked to
    [b], or ties it to [b]. *)
Lemma step_follows o w w' : leaves d o → step o w = Some w' → follows b d w w'.
Proof.
  intros Ho E. apply follows_mono; [by eapply step_mono|]. intros Hl.
  destruct (lk_d _ _ _ Hl) as (xd & Hxd & Hpd).
  assert (d < length (heap w)) as Hd by by eapply lookup_lt_Some.
  destruct o as [|p f r|p v|p r| |c v|c r]; simpl in *.
  - simplify_eq. left. by apply linked_construct.
  - unfold then_ in E. destruct (heap w !! p) as [x|] eqn:Hx; [|done].
    simpl in E. set (x0 := set_handlers _ _ fresh) in E.
    assert (linked b d (construct x0 w).2) as Hl0 by by apply linked_construct.
    assert (heap (construct x0 w).2 !! p = Some x) as Hx0
      by by apply lookup_app_l_Some.
    destruct (is_pending (_state x)) eqn:Hp.
    + pose proof (slots_link (length (heap w)) (_chainedPromise x)
                    (_chainedPromises x)) as El.
      destruct (link _ _ _) as [one many]. simpl in El, E. simplify_eq.
      left. apply (linked_store p x); try done.
      * intros ->. destruct (lk_b _ _ _ Hl) as (y & Hy & _ & Hin).
        simplify_eq. by split.
      * intros _. split; [done|]. split; [|done]. simpl. rewrite El.
        intros Hin. apply elem_of_app in Hin as [Hin|Hin]; [done|].
        apply list_elem_of_singleton in Hin. lia.
    + destruct (_grab _ _ _ _ _) as [w2|] eqn:Eg; [|done].
      simpl in E. assert (w2 = w') as -> by congruence.
      assert (follows b d (construct x0 w).2 w') as [_ F]; [|by apply F].
      eapply grab_follows; [|intros wa wb; apply relay_follows|exact Eg].
      * lia.
      * exact Hp.
      * lia.
  - assert (follows b d w w') as [_ F]; [|by apply F].
    by apply (unpack_follows (pendings w) p v (KGrab p) w w').
  - assert (follows b d w w') as [_ F]; [|by apply F].
    eapply grab_follows; [exact Ho| |exact E].
    intros wa wb. by apply relay_follows.
  - unfold tick in E. destruct (queue w) as [|[t h a] rest] eqn:Eq.
    { simplify_eq. by left. }
    pose proof (lk_queue _ _ _ Hl) as Hq. rewrite Eq in Hq.
    apply Forall_cons in Hq as [Ht Hq]. simpl in Ht.
    assert (linked b d (begin_task (TRun t h a) rest w)) as Hl1.
    { by apply linked_log, linked_queue. }
    set (w1 := begin_task (TRun t h a) rest w) in *.
    assert (follows b d w1 w') as [_ F]; [|by apply F].
    destruct (hbody h a) as [ret|error].
    + by apply (unpack_follows (pendings w1) t ret (KRelay t) w1 w').
    + by apply (callk_follows (pendings w1) (KRelay t) rejected error w1 w').
  - assert (follows b d w w') as [_ F]; [|by apply F].
    eapply resolve_cb_follows; [| |exact E].
    + intros this k w1 E1.
      destruct (unpack_spec (pendings w) this v k w) as (w2 & E2 & I); [done|].
      simplify_eq. by apply internal_mono.
    + intros this k w1 H1 H2. by apply unpack_follows.
  - assert (follows b d w w') as [_ F]; [|by apply F].
    by eapply reject_cb_follows.
Qed.

Lemma steps_follows os : ∀ w w',
  Forall (leaves d) os → steps os w = Some w' → follows b d w w'.
Proof.
  induction os as [|o os IH]; intros w w' Hos E; simpl in E.
  - simplify_eq. reflexivity.
  - apply Forall_cons in Hos as [Ho Hos].
    destruct (step o w) as [w1|] eqn:E1; simplify_eq/=.
    etrans; [by eapply step_follows|by apply IH].
Qed.

(** Adoption links: [d], which nothing referred to, registered with
    [b]. *)
Lemma adopt_links y x w :
  b ≠ d →
  heap w !! b = Some y → is_pending (_state y) = true →
  heap w !! d = Some x → is_pending (_state x) = true →
  (∀ p z, heap w !! p = Some z → is_pending (_state z) = true →
     (d ∉ slots (_chainedPromise z) (_chainedPromises z))
     ∧ (d ∉ slots (_handledPromise z) (_handledPromises z))) →
  Forall (λ t, target t ≠ d) (queue w) →
  Forall (cell_avoids d) (cells w) →
  linked b d (adopt b d y w).
Proof.
  intros Hne Hy Hpy Hx Hpx Hiso Hq Hc.
  pose proof (slots_link d (_handledPromise y) (_handledPromises y)) as E.
  unfold adopt. destruct (link d _ _) as [one many]. simpl in E.
  assert (∀ p, heap (store b (set_handled one many y) w) !! p
               = if decide (b = p) then Some (set_handled one many y)
                 else heap w !! p) as Hl
    by (intros p; by apply (lookup_store b p y)).
  split; try done.
  - rewrite Hl, decide_True by done. eexists. split; [done|].
    split; [done|]. simpl. rewrite E. apply elem_of_app. right.
    by apply list_elem_of_singleton.
  - rewrite Hl, decide_False by done. by exists x.
  - intros p z Hz Hpz. rewrite Hl in Hz.
    destruct (decide (b = p)) as [<-|Hbp].
    + injection Hz as <-. simpl. by apply (Hiso b y).
    + by apply (Hiso p z).
  - intros p z Hz Hpz Hpb. rewrite Hl in Hz. rewrite decide_False in Hz by done.
    by apply (Hiso p z).
Qed.

(** What linked and tied say of the readings. *)
Lemma linked_reading w :
  linked b d w → state_of b w = Some pending ∧ state_of d w = Some pending.
Proof.
  intros Hl. destruct (lk_b _ _ _ Hl) as (y & Hy & Hpy & _).
  destruct (lk_d _ _ _ Hl) as (x & Hx & Hpx).
  split; by eapply state_of_pending.
Qed.

Lemma tied_reading w :
  tied b d w →
  ∃ st v, st ≠ pending
    ∧ state_of b w = Some st ∧ result_of b w = Some v
    ∧ state_of d w = Some st ∧ result_of d w = Some v.
Proof.
  intros (y & x & Hy & Hx & Sy & Sx & E1 & E2).
  exists (_state y), (_valueOrReason y).
  unfold state_of, result_of. rewrite Hy, Hx. simpl. rewrite E1, E2.
  split; [|done]. unfold settled in Sy. by destruct (_state y).
Qed.
End linked.

(** * The claims *)

(** ** Worlds used as examples *)

(** [v => 0]. *)
Definition recover : handler := Handler 1 (λ _, Return (VNum 0)).

(** [v => v]. *)
Definition pass : handler := Handler 2 (λ v, Return v).

(** [v => { throw "E" }]. *)
Definition fail : handler := Handler 3 (λ _, Throw (VStr "E")).

(** [p0 = new Promise(); p0.reject(1)]: one rejected promise. *)
Definition one_rejected : world :=
  World [mkPromise rejected false (VNum 1) None None None None None None]
        [] [] [].

(** [p0 = new Promise()]: one pending promise. *)
Definition one_pending : world := World [fresh] [] [] [].

(** [p0 = new Promise(); p1 = p0.then(undefined, recover)]. *)
Definition with_rejection_handler : world :=
  World [set_chained (Some 1) None fresh; set_handlers None (Some recover) fresh]
        [] [] [].

Example one_rejected_reached :
  steps [ONew; OReject 0 (VNum 1)] empty = Some one_rejected.
Proof. reflexivity. Qed.

Example with_rejection_handler_reached :
  steps [ONew; OThen 0 (AVal VUndefined) (AFn recover)] empty
  = Some with_rejection_handler.
Proof. reflexivity. Qed.

(** ** C1: settlement happens once *)

(** C1.  Once a future is settled (its state is not pending), a later
    [resolve] or [reject] on it returns normally and leaves its state and
    its result as the settlement set them; so does any sequence of
    operations whatever. *)
Theorem settlement_is_final w p st r :
  state_of p w = Some st → st ≠ pending → result_of p w = Some r →
  (∀ v, ∃ w', resolve p v w = Some w'
              ∧ state_of p w' = Some st ∧ result_of p w' = Some r)
  ∧ (∀ e, ∃ w', reject p e w = Some w'
                ∧ state_of p w' = Some st ∧ result_of p w' = Some r)
  ∧ (∀ os w', steps os w = Some w' →
              state_of p w' = Some st ∧ result_of p w' = Some r).
Proof.
  intros Hs Hst Hr. repeat split.
  - intros v. destruct (resolve_spec p v w) as (w' & E & I).
    exists w'. split; [done|].
    eapply mono_reading; [by apply internal_mono|done..].
  - intros e. destruct (reject_spec p e w) as (w' & E & R).
    exists w'. split; [done|].
    eapply mono_reading; [apply internal_mono, R|done..].
  - eapply mono_reading; [by eapply steps_mono|done..].
  - eapply mono_reading; [by eapply steps_mono|done..].
Qed.

Lemma settlement_is_final_witness :
  state_of 0 one_rejected = Some rejected
  ∧ rejected ≠ pending
  ∧ result_of 0 one_rejected = Some (VNum 1)
  ∧ ((∀ v, ∃ w', resolve 0 v one_rejected = Some w'
        ∧ state_of 0 w' = Some rejected ∧ result_of 0 w' = Some (VNum 1))
     ∧ (∀ e, ∃ w', reject 0 e one_rejected = Some w'
        ∧ state_of 0 w' = Some rejected ∧ result_of 0 w' = Some (VNum 1))
     ∧ (∀ os w', steps os one_rejected = Some w' →
        state_of 0 w' = Some rejected ∧ result_of 0 w' = Some (VNum 1))).
Proof.
  split; [reflexivity|]. split; [discriminate|]. split; [reflexivity|].
  apply (settlement_is_final one_rejected 0 rejected (VNum 1));
    [reflexivity|discriminate|reflexivity].
Defined.

(** ** C2: [reject] *)

(** C2, as stated, fails: [p1 = p0.then(undefined, recover)] is pending
    and carries a rejection handler; [p1.reject("boom")] leaves it
    pending and queues [recover("boom")], and the task then fulfils [p1]
    with what [recover] returns. *)
Lemma reject_runs_own_handler :
  state_of 1 with_rejection_handler = Some pending
  ∧ ∃ w1 w2,
      reject 1 (VStr "boom") with_rejection_handler = Some w1
      ∧ state_of 1 w1 = Some pending
      ∧ queue w1 = [TRun 1 recover (VStr "boom")]
      ∧ tick w1 = Some w2
      ∧ state_of 1 w2 = Some fulfilled
      ∧ result_of 1 w2 = Some (VNum 0).
Proof. split; [reflexivity|]. do 2 eexists. repeat split; reflexivity. Qed.

(** C2, amended.  On a pending future that carries no rejection
    handler, [reject(reason)] moves it to rejected with that reason.  On
    a pending future that carries one, [reject(reason)] leaves it pending
    and queues that handler with the reason.  On a settled future
    [reject] changes nothing at all.  In each case it returns. *)
Theorem reject_by_case w p x reason :
  heap w !! p = Some x →
  ∃ w', reject p reason w = Some w'
    ∧ match _state x, _onPreviousRejected x with
      | pending, None =>
          state_of p w' = Some rejected ∧ result_of p w' = Some reason
      | pending, Some h =>
          w' = _run p h reason w ∧ state_of p w' = Some pending
      | _, _ => w' = w
      end.
Proof.
  intros Hx. by apply (grab_by_case (pendings w) p rejected reason w x).
Qed.

Lemma reject_by_case_witness :
  heap one_pending !! 0 = Some fresh
  ∧ ∃ w', reject 0 (VStr "boom") one_pending = Some w'
      ∧ state_of 0 w' = Some rejected ∧ result_of 0 w' = Some (VStr "boom").
Proof.
  split; [reflexivity|].
  apply (reject_by_case one_pending 0 fresh (VStr "boom")). reflexivity.
Defined.

(** ** C3: a future resolved with itself *)

(** [p0 = new Promise(); p0.resolve(5)]: one fulfilled promise. *)
Definition one_fulfilled : world :=
  World [mkPromise fulfilled false (VNum 5) None None None None None None]
        [] [] [].

Example one_fulfilled_reached :
  steps [ONew; OResolve 0 (VNum 5)] empty = Some one_fulfilled.
Proof. reflexivity. Qed.

(** C3, as stated, fails: a fulfilled future resolved with itself stays
    fulfilled with its value, and a pending future that carries a
    rejection handler has that handler run on the type error and ends
    as the handler decides. *)
Lemma self_resolution_not_always_rejected :
  (state_of 0 one_fulfilled = Some fulfilled
   ∧ resolve 0 (VPromise 0) one_fulfilled = Some one_fulfilled)
  ∧ (state_of 1 with_rejection_handler = Some pending
     ∧ ∃ w1 w2,
         resolve 1 (VPromise 1) with_rejection_handler = Some w1
         ∧ state_of 1 w1 = Some pending
         ∧ queue w1 = [TRun 1 recover self_error]
         ∧ tick w1 = Some w2
         ∧ state_of 1 w2 = Some fulfilled
         ∧ result_of 1 w2 = Some (VNum 0)).
Proof.
  split; [split; reflexivity|]. split; [reflexivity|].
  do 2 eexists. repeat split; reflexivity.
Qed.

(** C3, amended.  A pending future that carries no rejection handler,
    resolved with itself, ends rejected with the type error.  A pending
    future that carries one has that handler queued with the type error
    and stays pending.  A settled future is left as it is. *)
Theorem self_resolution_by_case w p x :
  heap w !! p = Some x →
  ∃ w', resolve p (VPromise p) w = Some w'
    ∧ match _state x, _onPreviousRejected x with
      | pending, None =>
          state_of p w' = Some rejected ∧ result_of p w' = Some self_error
      | pending, Some h =>
          w' = _run p h self_error w ∧ state_of p w' = Some pending
      | _, _ => w' = w
      end.
Proof.
  intros Hx. unfold resolve. simpl. rewrite Nat.eqb_refl. simpl.
  by apply (grab_by_case (pendings w) p rejected self_error w x).
Qed.

Lemma self_resolution_by_case_witness :
  heap one_pending !! 0 = Some fresh
  ∧ ∃ w', resolve 0 (VPromise 0) one_pending = Some w'
      ∧ state_of 0 w' = Some rejected ∧ result_of 0 w' = Some self_error.
Proof.
  split; [reflexivity|].
  apply (self_resolution_by_case one_pending 0 fresh). reflexivity.
Defined.

(** ** C6: what a handler throws or returns *)

(** [p0 = new Promise(); p1 = p0.then(fail); p0.resolve(1)], before the
    queued call of [fail] has run. *)
Definition fail_queued : world :=
  World [mkPromise fulfilled false (VNum 1) None None None None None None;
         set_running true (set_handlers (Some fail) None fresh)]
        [] [TRun 1 fail (VNum 1)] [].

Example fail_queued_reached :
  steps [ONew; OThen 0 (AFn fail) (AVal VUndefined); OResolve 0 (VNum 1)] empty
  = Some fail_queued.
Proof. reflexivity. Qed.

(** What the resolution of a value comes to: a state and a result are
    delivered, the promise is registered with a pending promise, or
    the callbacks are with a foreign [then] that has not called one. *)
Inductive resolution :=
| Delivers (st : State) (r : value)
| Adopts (b : id)
| Awaits.

(** The Resolution Procedure in the words of the specification (4.3),
    for the promise [d] in the store [hp]: the promise itself gives the
    type error; another promise is adopted when pending and gives its
    state and result when settled; an object whose [then] is a function
    gives what the first call of a callback gives, the procedure again
    on the argument of the first callback or a rejection with the
    argument of the second, and a rejection with what is thrown before
    any call; every other value is fulfilled with.  It says nothing,
    [None], of a reference to no promise, and of a [then] that calls
    callbacks it was handed in another call. *)
Fixpoint resolve_value (hp : list Promise) (d : id) (v : value)
    {struct v} : option resolution :=
  match v with
  | VPromise b =>
      if Nat.eqb b d then Some (Delivers rejected self_error)
      else
        match hp !! b with
        | Some y =>
            if is_pending (_state y) then Some (Adopts b)
            else Some (Delivers (_state y) (_valueOrReason y))
        | None => None
        end
  | VObject m =>
      match m with
      | ThenThrows e => Some (Delivers rejected e)
      | ThenNotFn => Some (Delivers fulfilled v)
      | ThenFn body => first_call hp d body
      end
  | VUndefined | VNull | VBool _ | VNum _ | VStr _ | VError _ _ =>
      Some (Delivers fulfilled v)
  end
with first_call (hp : list Promise) (d : id) (body : script)
    {struct body} : option resolution :=
  match body with
  | SReturn => Some Awaits
  | SThrow e => Some (Delivers rejected e)
  | SCall OwnResolve arg k =>
      if own_only k then resolve_value hp d arg else None
  | SCall OwnReject reason k =>
      if own_only k then Some (Delivers rejected reason) else None
  | SCall (KeptResolve _) _ _ | SCall (KeptReject _) _ _ => None
  end.

(** The promise [d] after a resolution that came to [o], from [w] to
    [w']. *)
Definition resolved (d : id) (o : resolution) (w w' : world) : Prop :=
  match o with
  | Delivers st r => state_of d w' = Some st ∧ result_of d w' = Some r
  | Adopts b =>
      state_of d w' = Some pending ∧ adopters b w' = adopters b w ++ [d]
  | Awaits =>
      state_of d w' = Some pending
      ∧ ∃ c, length (cells w) ≤ c ∧ cells w' !! c = Some (Some (d, KRelay d))
  end.

Section resolution.
Context (n : nat) (d : id).
Implicit Types (w : world) (c : nat) (x : Promise) (o : resolution).

(** [_unpack] with the continuation of [_run] does to a pending [d]
    what the Resolution Procedure says. *)
Lemma unpack_run_resolves :
  (∀ v w x o, resolve_value (heap w) d v = Some o →
     heap w !! d = Some x → is_pending (_state x) = true → pendings w ≤ n →
     ∃ w', _unpack n d v (KRelay d) w = Some w' ∧ internal w w'
           ∧ resolved d o w w')
  ∧ (∀ m w x o, resolve_value (heap w) d (VObject m) = Some o →
     heap w !! d = Some x → is_pending (_state x) = true → pendings w ≤ n →
     ∃ w', _unpack n d (VObject m) (KRelay d) w = Some w' ∧ internal w w'
           ∧ resolved d o w w')
  ∧ (∀ body w c x o, first_call (heap w) d body = Some o →
     cells w !! c = Some (Some (d, KRelay d)) →
     heap w !! d = Some x → is_pending (_state x) = true → pendings w ≤ n →
     ∃ w', run_then n c body w = Some w' ∧ internal w w'
           ∧ match o with
             | Awaits =>
                 state_of d w' = Some pending
                 ∧ ∃ c', (c' = c ∨ length (cells w) ≤ c')
                     ∧ cells w' !! c' = Some (Some (d, KRelay d))
             | _ => resolved d o w w'
             end).
Proof.
  assert (∀ st v w x, heap w !! d = Some x → is_pending (_state x) = true →
            pendings w ≤ n → is_pending st = false →
            ∃ w', callk n (KRelay d) st v w = Some w' ∧ internal w w'
                  ∧ resolved d (Delivers st v) w w') as Hk.
  { intros st v w x Hx Hp Hn Hst.
    by apply (callk_relay_settles n d st v w x). }
  assert (∀ c st v w x, cells w !! c = Some (Some (d, KRelay d)) →
            heap w !! d = Some x → is_pending (_state x) = true →
            pendings w ≤ n → is_pending st = false →
            ∃ w', reject_cb n c v w = Some w' ∧ internal w w'
                  ∧ cells w' !! c = Some None
                  ∧ (st = rejected → resolved d (Delivers st v) w w')) as Hr.
  { intros c st v w x Hc Hx Hp Hn Hst. unfold reject_cb. rewrite Hc.
    destruct (Hk rejected v w x Hx Hp Hn eq_refl) as (w' & -> & I & S).
    simpl. eexists. split; [done|].
    split; [etrans; [exact I|apply internal_clear_cell]|].
    split; [|by intros ->]. simpl. apply list_lookup_insert_eq.
    pose proof (in_cells _ _ I). apply lookup_lt_Some in Hc. lia. }
  apply value_mutind;
    try (intros; simplify_eq/=; by eapply Hk).
  - (* a promise *)
    intros b w x o Ho Hx Hp Hn. simpl in *.
    destruct (Nat.eqb b d) eqn:Hbd.
    { simplify_eq. by eapply Hk. }
    apply Nat.eqb_neq in Hbd.
    destruct (heap w !! b) as [y|] eqn:Hy; [|discriminate].
    destruct (is_pending (_state y)) eqn:Hpy; simplify_eq.
    + eexists. split; [done|]. split; [|split].
      * unfold adopt.
        destruct (link d (_handledPromise y) (_handledPromises y)) as [one many].
        by eapply internal_store.
      * unfold state_of. rewrite lookup_adopt_ne by done.
        rewrite Hx. simpl. by destruct (_state x).
      * exact (adopters_adopt b d y w Hy).
    + by eapply Hk.
  - (* an object *)
    intros m IH w x o Ho Hx Hp Hn. by eapply IH.
  - (* its [then] is a function *)
    intros body IH w x o Ho Hx Hp Hn.
    change (_unpack n d (VObject (ThenFn body)) (KRelay d) w)
      with (run_then n (length (cells w)) body (alloc_cell d (KRelay d) w)).
    destruct (IH (alloc_cell d (KRelay d) w) (length (cells w)) x o)
      as (w' & E & I & S); [done|apply lookup_alloc_cell|done|done|done|].
    exists w'. split; [done|].
    split; [etrans; [apply internal_alloc_cell|exact I]|].
    destruct o as [st r|b|]; [done|done|].
    destruct S as [S (c' & Hc' & L)]. split; [done|]. exists c'.
    split; [|done]. simpl in Hc'. rewrite length_app in Hc'. simpl in Hc'. lia.
  - (* the call returns *)
    intros w c x o Ho Hc Hx Hp Hn. simpl in *. simplify_eq.
    exists w. split; [done|]. split; [done|].
    split; [by eapply state_of_pending|]. exists c. split; [by left|done].
  - (* the call throws *)
    intros e _ w c x o Ho Hc Hx Hp Hn. simpl in *. simplify_eq.
    destruct (Hr c rejected e w x Hc Hx Hp Hn eq_refl) as (w' & E & I & _ & S).
    exists w'. split; [done|]. split; [done|]. by apply S.
  - (* the call calls a callback *)
    intros f arg IHarg k _ w c x o Ho Hc Hx Hp Hn.
    assert (own f = true ∧ own_only k = true) as [Hf Hown].
    { simpl in Ho. destruct f; try discriminate;
        by destruct (own_only k). }
    assert (∃ w1, match f with
                  | OwnResolve => resolve_cb (λ this cb, _unpack n this arg cb) c w
                  | OwnReject => reject_cb n c arg w
                  | KeptResolve c' =>
                      resolve_cb (λ this cb, _unpack n this arg cb) c' w
                  | KeptReject c' => reject_cb n c' arg w
                  end = Some w1 ∧ internal w w1
                ∧ cells w1 !! c = Some None
                ∧ match o with
                  | Awaits =>
                      state_of d w1 = Some pending
                      ∧ ∃ c', (c' = c ∨ length (cells w) ≤ c')
                          ∧ cells w1 !! c' = Some (Some (d, KRelay d))
                  | _ => resolved d o w w1
                  end) as (w1 & E1 & I1 & Hs & S1).
    { destruct f; try discriminate; simpl in Ho; rewrite Hown in Ho.
      - (* the first callback *)
        unfold resolve_cb. rewrite Hc.
        destruct (IHarg w x o Ho Hx Hp Hn) as (w1 & -> & I & S).
        pose proof (in_cells _ _ I) as Hlen.
        pose proof (lookup_lt_Some _ _ _ Hc) as Hlt.
        simpl. eexists. split; [done|].
        split; [etrans; [exact I|apply internal_clear_cell]|].
        split; [simpl; apply list_lookup_insert_eq; lia|].
        destruct o as [st r|b|]; [done|done|].
        destruct S as [S (c' & Hc' & L)]. split; [done|]. exists c'.
        split; [by right|]. simpl. rewrite list_lookup_insert_ne by lia. done.
      - (* the second callback *)
        simplify_eq.
        destruct (Hr c rejected arg w x Hc Hx Hp Hn eq_refl)
          as (w1 & E & I & Hs & S).
        exists w1. split; [done|]. split; [done|]. split; [done|]. by apply S. }
    exists w1. split; [|done].
    change (run_then n c (SCall f arg k) w)
      with (w' ← match f with
                 | OwnResolve => resolve_cb (λ this cb, _unpack n this arg cb) c w
                 | OwnReject => reject_cb n c arg w
                 | KeptResolve c' =>
                     resolve_cb (λ this cb, _unpack n this arg cb) c' w
                 | KeptReject c' => reject_cb n c' arg w
                 end; run_then n c k w').
    rewrite E1. simpl. by apply spent_cell.
Qed.

Lemma unpack_resolves v w x o :
  resolve_value (heap w) d v = Some o →
  heap w !! d = Some x → is_pending (_state x) = true → pendings w ≤ n →
  ∃ w', _unpack n d v (KRelay d) w = Some w' ∧ internal w w'
        ∧ resolved d o w w'.
Proof. destruct unpack_run_resolves as (H & _). apply H. Qed.
End resolution.

(** A callback of a foreign [then] that is called first after the
    [then] has returned settles the promise it was handed over for. *)
Lemma late_callback c d w x :
  cells w !! c = Some (Some (d, KRelay d)) →
  heap w !! d = Some x → is_pending (_state x) = true →
  (∀ u, plain u = true →
     ∃ w', call_resolve c u w = Some w'
       ∧ state_of d w' = Some fulfilled ∧ result_of d w' = Some u)
  ∧ (∀ r, ∃ w', call_reject c r w = Some w'
       ∧ state_of d w' = Some rejected ∧ result_of d w' = Some r).
Proof.
  intros Hc Hx Hp. split.
  - intros u Hu. unfold call_resolve, resolve_cb. rewrite Hc.
    rewrite (unpack_plain _ _ _ _ _ Hu).
    destruct (callk_relay_settles (pendings w) d fulfilled u w x)
      as (w' & -> & _ & S); [done..|].
    simpl. by eexists.
  - intros r. unfold call_reject, reject_cb. rewrite Hc.
    destruct (callk_relay_settles (pendings w) d rejected r w x)
      as (w' & -> & _ & S); [done..|].
    simpl. by eexists.
Qed.


(** [() => ({ then(res, rej) { res(2); rej(3); throw 4; } })]. *)
Definition hand_over : handler :=
  Handler 6 (λ _, Return (VObject (ThenFn
    (SCall OwnResolve (VNum 2) (SCall OwnReject (VNum 3) (SThrow (VNum 4))))))).

(** [p0 = new Promise(); p1 = p0.then(hand_over); p0.resolve(1)], before
    the queued call has run. *)
Definition hand_over_queued : world :=
  World [mkPromise fulfilled false (VNum 1) None None None None None None;
         set_running true (set_handlers (Some hand_over) None fresh)]
        [] [TRun 1 hand_over (VNum 1)] [].

Example hand_over_queued_reached :
  steps [ONew; OThen 0 (AFn hand_over) (AVal VUndefined); OResolve 0 (VNum 1)]
        empty
  = Some hand_over_queued.
Proof. reflexivity. Qed.


(** A foreign [then] that keeps the callbacks and returns: the future
    is pending after the call of the handler, and fulfilled once the
    first callback is called. *)
Example handler_returns_waiting_thenable :
  ∃ w w',
    steps [ONew; OThen 0 (AFn (Handler 7 (λ _, Return (VObject (ThenFn SReturn)))))
                         (AVal VUndefined);
           OResolve 0 (VNum 1); OTick] empty = Some w
    ∧ state_of 1 w = Some pending
    ∧ cells w = [Some (1, KRelay 1)]
    ∧ call_resolve 0 (VNum 8) w = Some w'
    ∧ state_of 1 w' = Some fulfilled ∧ result_of 1 w' = Some (VNum 8).
Proof. do 2 eexists. repeat split; reflexivity. Qed.

(** ** C10: attaching to a settled future *)

(** C10.  [then] on a settled future returns a new future that, when no
    handler was given for the settled kind, is already settled with the
    source's state and result, nothing having been queued; when a
    handler was given, the new future is pending and the handler call
    is queued, not made. *)
Theorem attach_to_settled w f x onfulfilled onrejected :
  heap w !! f = Some x → is_pending (_state x) = false →
  ∃ w', then_ f onfulfilled onrejected w = Some (length (heap w), w')
    ∧ log w' = log w
    ∧ match handler_for (_state x)
              (set_handlers (as_function onfulfilled)
                            (as_function onrejected) fresh) with
      | None =>
          state_of (length (heap w)) w' = Some (_state x)
          ∧ result_of (length (heap w)) w' = Some (_valueOrReason x)
          ∧ queue w' = queue w
      | Some h =>
          state_of (length (heap w)) w' = Some pending
          ∧ queue w' = queue w ++ [TRun (length (heap w)) h (_valueOrReason x)]
      end.
Proof.
  intros Hx Hp. unfold then_. rewrite Hx. simpl. rewrite Hp.
  set (x0 := set_handlers _ _ fresh). set (d := length (heap w)).
  set (w1 := with_heap (heap w ++ [x0]) w).
  assert (heap w1 !! d = Some x0) as Hd by apply list_lookup_middle, eq_refl.
  rewrite (grab_unfold _ _ _ _ _ _ Hd eq_refl).
  destruct (handler_for (_state x) x0) as [h|] eqn:Hh.
  - simpl. eexists. split; [done|]. split; [by rewrite log_run|]. split.
    + erewrite state_of_lookup; [|by eapply lookup_run]. done.
    + by rewrite queue_run.
  - assert (pendings w1 = S (pendings w)) as ->.
    { pose proof (pendings_construct x0 w) as E. simpl in E.
      change (pendings w1 = S (pendings w)). unfold w1, pendings in *. simpl.
      simpl in E. lia. }
    rewrite (relay_leaf _ d _ _ w1 x0 Hd eq_refl eq_refl eq_refl). simpl.
    eexists. split; [done|]. split; [done|].
    unfold state_of, result_of.
    rewrite (lookup_store_eq _ _ _ _ Hd). done.
Qed.

Lemma attach_to_settled_witness :
  heap one_rejected !! 0
    = Some (mkPromise rejected false (VNum 1) None None None None None None)
  ∧ is_pending rejected = false
  ∧ ∃ w', then_ 0 (AFn pass) (AVal VUndefined) one_rejected = Some (1, w')
      ∧ log w' = log one_rejected
      ∧ state_of 1 w' = Some rejected
      ∧ result_of 1 w' = Some (VNum 1)
      ∧ queue w' = queue one_rejected.
Proof.
  split; [reflexivity|]. split; [reflexivity|].
  apply (attach_to_settled one_rejected 0
           (mkPromise rejected false (VNum 1) None None None None None None)
           (AFn pass) (AVal VUndefined)); reflexivity.
Defined.

(** ** C8: arguments that are not functions, and passing through *)

(** C8.  [then] on a pending future [f] stores as handlers of the new
    future [d] only the arguments that are functions, so that any other
    argument is as good as none; and when [f] is then settled to a state
    for which [d] holds no handler, [d] is settled with [f]'s state and
    result.  A rejection thereby passes a [then] that was given a
    fulfilment handler only. *)
Theorem pass_through w f x onfulfilled onrejected :
  heap w !! f = Some x → is_pending (_state x) = true →
  ∃ w1, then_ f onfulfilled onrejected w = Some (length (heap w), w1)
    ∧ heap w1 !! length (heap w)
      = Some (set_handlers (as_function onfulfilled)
                           (as_function onrejected) fresh)
    ∧ (∀ a b, as_function a = as_function onfulfilled →
              as_function b = as_function onrejected →
              then_ f a b w = then_ f onfulfilled onrejected w)
    ∧ successors f w1 = successors f w ++ [length (heap w)]
    ∧ ∀ st v,
        is_pending st = false →
        handler_for st (set_handlers (as_function onfulfilled)
                                     (as_function onrejected) fresh) = None →
        ∃ w2, _relay (pendings w1) f st v w1 = Some w2
          ∧ state_of f w2 = Some st ∧ result_of f w2 = Some v
          ∧ state_of (length (heap w)) w2 = Some st
          ∧ result_of (length (heap w)) w2 = Some v.
Proof.
  intros Hx Hp.
  assert (f ≠ length (heap w)) as Hfd.
  { pose proof (lookup_lt_Some _ _ _ Hx). lia. }
  pose proof (slots_link (length (heap w)) (_chainedPromise x)
                (_chainedPromises x)) as Hl.
  unfold then_. rewrite Hx, Hp. simpl.
  destruct (link (length (heap w)) (_chainedPromise x) (_chainedPromises x))
    as [one many] eqn:El.
  simpl in Hl.
  set (x0 := set_handlers _ _ fresh).
  set (w0 := with_heap (heap w ++ [x0]) w).
  assert (heap w0 !! f = Some x) as Hf0 by by apply lookup_app_l_Some.
  assert (heap w0 !! length (heap w) = Some x0) as Hd0
    by apply list_lookup_middle, eq_refl.
  set (w1 := store f (set_chained one many x) w0).
  assert (heap w1 !! f = Some (set_chained one many x)) as Hf1
    by by eapply lookup_store_eq.
  assert (heap w1 !! length (heap w) = Some x0) as Hd1
    by (unfold w1; by rewrite lookup_store_ne).
  exists w1. split; [done|]. split; [done|]. split; [|split].
  - intros a b Ha Hb. unfold w1, w0, x0. by rewrite Ha, Hb.
  - unfold successors. rewrite Hf1, Hx. simpl. exact Hl.
  - intros st v Hst Hh.
    destruct (relay_passes (pendings w1) f (length (heap w)) st v w1
                (set_chained one many x) x0)
      as (w2 & E & _ & [S1 S2] & [S3 S4]); try done.
    + simpl. rewrite Hl. apply elem_of_app. right. by apply list_elem_of_singleton.
    + by exists w2.
Qed.

Lemma pass_through_witness :
  heap one_pending !! 0 = Some fresh
  ∧ is_pending (_state fresh) = true
  ∧ ∃ w1, then_ 0 (AFn pass) (AVal VNull) one_pending = Some (1, w1)
      ∧ heap w1 !! 1 = Some (set_handlers (Some pass) None fresh)
      ∧ (∀ a b, as_function a = Some pass → as_function b = None →
           then_ 0 a b one_pending = then_ 0 (AFn pass) (AVal VNull) one_pending)
      ∧ successors 0 w1 = [1]
      ∧ ∀ st v,
          is_pending st = false →
          handler_for st (set_handlers (Some pass) None fresh) = None →
          ∃ w2, _relay (pendings w1) 0 st v w1 = Some w2
            ∧ state_of 0 w2 = Some st ∧ result_of 0 w2 = Some v
            ∧ state_of 1 w2 = Some st ∧ result_of 1 w2 = Some v.
Proof.
  split; [reflexivity|]. split; [reflexivity|].
  apply (pass_through one_pending 0 fresh (AFn pass) (AVal VNull));
    reflexivity.
Defined.

(** The rejection of [p0] reaches [p1 = p0.then(pass, null)] unchanged. *)
Example rejection_passes :
  ∃ w, steps [ONew; OThen 0 (AFn pass) (AVal VNull); OReject 0 (VStr "E")]
         empty = Some w
    ∧ state_of 1 w = Some rejected ∧ result_of 1 w = Some (VStr "E")
    ∧ queue w = [].
Proof. eexists. repeat split; reflexivity. Qed.

(** ** C4: adopting a pending promise *)

(** [v => p1] where [p1] is a promise. *)
Definition give (b : nat) : handler := Handler 4 (λ _, Return (VPromise b)).

(** [p0 = new Promise(); p1 = new Promise(); p2 = p0.then(() => p1);
    p3 = new Promise(); p0.resolve(null)], before the queued call. *)
Definition give_queued : world :=
  World [mkPromise fulfilled false VNull None None None None None None;
         fresh;
         set_running true (set_handlers (Some (give 1)) None fresh);
         fresh]
        [] [TRun 2 (give 1) VNull] [].

Example give_queued_reached :
  steps [ONew; ONew; OThen 0 (AFn (give 1)) (AVal VUndefined); ONew;
         OResolve 0 VNull] empty
  = Some give_queued.
Proof. reflexivity. Qed.

(** C4.  When the queued call of a handler returns a pending promise
    [b] other than the handler's own future [d], and [d] is pending:
    [d] stays pending, is registered among the adopters of [b], and no
    task is queued.  When [b] is then relayed a state and a result, [d]
    has them too, whatever handlers [d] holds.  When [b] is first
    resolved with a third pending promise [c], [b] and [d] stay pending,
    and relaying a state and a result to [c] gives them to [b] and to
    [d].  And when nothing else in the world referred to [d], then
    through every run of operations that does not resolve or reject [d]
    itself, [d] is pending as long as [b] is, and once [b] is settled
    [d] is settled with the state and the result of [b]. *)
Theorem adoption w d x b y h a rest :
  queue w = TRun d h a :: rest →
  hbody h a = Return (VPromise b) → b ≠ d →
  heap w !! d = Some x → is_pending (_state x) = true →
  heap w !! b = Some y → is_pending (_state y) = true →
  ∃ w1, tick w = Some w1
    ∧ state_of d w1 = Some pending ∧ state_of b w1 = Some pending
    ∧ adopters b w1 = adopters b w ++ [d]
    ∧ queue w1 = rest
    ∧ (∀ st v, is_pending st = false →
         ∃ w2, _relay (pendings w1) b st v w1 = Some w2
           ∧ state_of b w2 = Some st ∧ result_of b w2 = Some v
           ∧ state_of d w2 = Some st ∧ result_of d w2 = Some v)
    ∧ (∀ c z, c ≠ b → heap w1 !! c = Some z → is_pending (_state z) = true →
         ∃ w2, resolve b (VPromise c) w1 = Some w2
           ∧ state_of d w2 = Some pending ∧ state_of b w2 = Some pending
           ∧ ∀ st v, is_pending st = false →
               ∃ w3, _relay (pendings w2) c st v w2 = Some w3
                 ∧ state_of c w3 = Some st ∧ result_of c w3 = Some v
                 ∧ state_of b w3 = Some st ∧ result_of b w3 = Some v
                 ∧ state_of d w3 = Some st ∧ result_of d w3 = Some v)
    ∧ ((∀ p z, heap w !! p = Some z → is_pending (_state z) = true →
          (d ∉ slots (_chainedPromise z) (_chainedPromises z))
          ∧ (d ∉ slots (_handledPromise z) (_handledPromises z))) →
       Forall (λ t, target t ≠ d) rest →
       Forall (cell_avoids d) (cells w) →
       ∀ os w', Forall (leaves d) os → steps os w1 = Some w' →
         (state_of b w' = Some pending ∧ state_of d w' = Some pending)
         ∨ (∃ st v, st ≠ pending
              ∧ state_of b w' = Some st ∧ result_of b w' = Some v
              ∧ state_of d w' = Some st ∧ result_of d w' = Some v)).
Proof.
  intros Hq Hh Hbd Hx Hp Hy Hpy.
  rewrite (tick_unfold w d h a rest Hq), Hh. simpl.
  rewrite (proj2 (Nat.eqb_neq b d) Hbd).
  change (heap (begin_task (TRun d h a) rest w) !! b) with (heap w !! b).
  rewrite Hy, Hpy.
  set (w0 := begin_task (TRun d h a) rest w). set (w1 := adopt b d y w0).
  assert (heap w1 !! d = Some x) as Hd1
    by (unfold w1; by rewrite lookup_adopt_ne).
  assert (adopters b w1 = adopters b w ++ [d]) as Ha1
    by exact (adopters_adopt b d y w0 Hy).
  assert (∃ y1, heap w1 !! b = Some y1 ∧ is_pending (_state y1) = true
                ∧ d ∈ slots (_handledPromise y1) (_handledPromises y1))
    as (y1 & Hb1 & Hpy1 & Hin1).
  { unfold adopters in Ha1. unfold w1, adopt in *.
    destruct (link d _ _) as [one many].
    rewrite (lookup_store_eq b y _ w0 Hy) in Ha1.
    eexists. split; [by eapply lookup_store_eq|]. split; [done|].
    rewrite Ha1. apply elem_of_app. right. by apply list_elem_of_singleton. }
  exists w1. split; [done|].
  split; [by apply (state_of_pending d x)|].
  split; [by apply (state_of_pending b y1)|].
  split; [done|]. split; [by unfold w1, adopt; destruct (link _ _ _)|].
  split; [|split].
  - intros st v Hst.
    destruct (relay_mirrors (pendings w1) b d st v w1 y1 x)
      as (w2 & E & _ & [S1 S2] & [S3 S4]); try done.
    by exists w2.
  - intros c z Hcb Hz Hpz. unfold resolve. simpl.
    rewrite (proj2 (Nat.eqb_neq c b) Hcb), Hz, Hpz.
    set (w2 := adopt c b z w1).
    assert (heap w2 !! b = Some y1) as Hb2
      by (unfold w2; by rewrite lookup_adopt_ne).
    assert (∃ z2, heap w2 !! c = Some z2 ∧ is_pending (_state z2) = true
                  ∧ b ∈ slots (_handledPromise z2) (_handledPromises z2))
      as (z2 & Hc2 & Hpz2 & Hin2).
    { pose proof (adopters_adopt c b z w1 Hz) as Ha2. fold w2 in Ha2.
      unfold adopters in Ha2. unfold w2, adopt in *.
      destruct (link b _ _) as [one many].
      rewrite (lookup_store_eq c z _ w1 Hz) in Ha2.
      eexists. split; [by eapply lookup_store_eq|]. split; [done|].
      rewrite Ha2. apply elem_of_app. right. by apply list_elem_of_singleton. }
    assert (∃ x2, heap w2 !! d = Some x2 ∧ is_pending (_state x2) = true)
      as (x2 & Hd2 & Hpx2).
    { destruct (decide (c = d)) as [->|Hcd].
      - exists z2. split; [done|done].
      - exists x. split; [|done]. unfold w2. by rewrite lookup_adopt_ne. }
    exists w2. split; [done|].
    split; [by apply (state_of_pending d x2)|].
    split; [by apply (state_of_pending b y1)|].
    intros st v Hst.
    destruct (relay_mirrors (pendings w2) c b st v w2 z2 y1)
      as (w3 & E & R & [S1 S2] & [S3 S4]); try done.
    exists w3. split; [done|]. split; [done|]. split; [done|].
    split; [done|]. split; [done|].
    (* [b] was pending and is settled, so its adopters are settled *)
    destruct (internal_lookup _ _ _ _ (rl_internal _ _ _ _ R) Hb2) as [y3 Hb3].
    assert (settled y3) as Hs3.
    { rewrite (state_of_lookup _ _ _ Hb3) in S3. unfold settled.
      injection S3 as ->. done. }
    destruct (rl_now _ _ _ _ R b y1 y3 Hb2 Hb3 Hpy1 Hs3) as (_ & _ & A & _).
    eapply relayed_reading; [done..|]. by apply A.
  - intros Hiso Hrest Hcells os w' Hos Hs.
    assert (linked b d w1) as Hl by by apply (adopt_links b d y x w0).
    destruct (steps_follows b d os w1 w' Hos Hs) as [_ F].
    destruct (F Hl) as [Hl'|Ht].
    + left. by apply linked_reading.
    + right. by apply tied_reading.
Qed.

Lemma adoption_witness :
  queue give_queued = [TRun 2 (give 1) VNull]
  ∧ hbody (give 1) VNull = Return (VPromise 1) ∧ 1 ≠ 2
  ∧ heap give_queued !! 2
    = Some (set_running true (set_handlers (Some (give 1)) None fresh))
  ∧ is_pending pending = true
  ∧ heap give_queued !! 1 = Some fresh ∧ is_pending (_state fresh) = true
  ∧ ∃ w1, tick give_queued = Some w1
    ∧ state_of 2 w1 = Some pending ∧ state_of 1 w1 = Some pending
    ∧ adopters 1 w1 = [2]
    ∧ queue w1 = []
    ∧ (∀ st v, is_pending st = false →
         ∃ w2, _relay (pendings w1) 1 st v w1 = Some w2
           ∧ state_of 1 w2 = Some st ∧ result_of 1 w2 = Some v
           ∧ state_of 2 w2 = Some st ∧ result_of 2 w2 = Some v)
    ∧ (∀ c z, c ≠ 1 → heap w1 !! c = Some z → is_pending (_state z) = true →
         ∃ w2, resolve 1 (VPromise c) w1 = Some w2
           ∧ state_of 2 w2 = Some pending ∧ state_of 1 w2 = Some pending
           ∧ ∀ st v, is_pending st = false →
               ∃ w3, _relay (pendings w2) c st v w2 = Some w3
                 ∧ state_of c w3 = Some st ∧ result_of c w3 = Some v
                 ∧ state_of 1 w3 = Some st ∧ result_of 1 w3 = Some v
                 ∧ state_of 2 w3 = Some st ∧ result_of 2 w3 = Some v)
    ∧ (∀ os w', Forall (leaves 2) os → steps os w1 = Some w' →
         (state_of 1 w' = Some pending ∧ state_of 2 w' = Some pending)
         ∨ (∃ st v, st ≠ pending
              ∧ state_of 1 w' = Some st ∧ result_of 1 w' = Some v
              ∧ state_of 2 w' = Some st ∧ result_of 2 w' = Some v)).
Proof.
  split; [reflexivity|]. split; [reflexivity|]. split; [lia|].
  split; [reflexivity|]. split; [reflexivity|]. split; [reflexivity|].
  split; [reflexivity|].
  destruct (adoption give_queued 2
              (set_running true (set_handlers (Some (give 1)) None fresh))
              1 fresh (give 1) VNull [])
    as (w1 & E & S1 & S2 & A & Q & M & T & U);
    [reflexivity|reflexivity|lia|reflexivity|reflexivity|reflexivity
    |reflexivity|].
  exists w1. split; [exact E|]. split; [exact S1|]. split; [exact S2|].
  split; [exact A|]. split; [exact Q|]. split; [exact M|]. split; [exact T|].
  apply U.
  - intros p z Hz Hp.
    do 4 (destruct p as [|p];
          [injection Hz as <-; try discriminate Hp;
           split; apply not_elem_of_nil|]).
    discriminate Hz.
  - constructor.
  - constructor.
Defined.

(** The spec's scenario run through: [p2] adopts [p1], [p1] adopts [p3],
    and rejecting [p3] rejects all three. *)
Example adoption_chain :
  ∃ w, steps [OTick; OResolve 1 (VPromise 3); OReject 3 (VStr "Err2")]
         give_queued = Some w
    ∧ state_of 2 w = Some rejected ∧ result_of 2 w = Some (VStr "Err2")
    ∧ state_of 1 w = Some rejected ∧ result_of 1 w = Some (VStr "Err2").
Proof. eexists. repeat split; reflexivity. Qed.

(** ** C9: a resolution that has not delivered does not lock *)

(** The values [resolve] can be given that deliver nothing yet: a
    pending promise other than the one resolved, and a foreign object
    whose [then] returns without calling a callback. *)
Inductive delivers_later (w : world) (p : id) : value → Prop :=
| later_promise q y :
    q ≠ p → heap w !! q = Some y → is_pending (_state y) = true →
    delivers_later w p (VPromise q)
| later_foreign : delivers_later w p (VObject (ThenFn SReturn)).

(** [p0 = new Promise(); p1 = p0.then(undefined, recover);
    p1.resolve(t); p1.reject("boom")] where [t.then] has kept its
    callbacks and not called them. *)
Definition rejected_after_resolve : world :=
  World [set_chained (Some 1) None fresh;
         set_running true (set_handlers None (Some recover) fresh)]
        [Some (1, KGrab 1)] [TRun 1 recover (VStr "boom")] [].

Example rejected_after_resolve_reached :
  steps [ONew; OThen 0 (AVal VUndefined) (AFn recover);
         OResolve 1 (VObject (ThenFn SReturn)); OReject 1 (VStr "boom")] empty
  = Some rejected_after_resolve.
Proof. reflexivity. Qed.

(** C9, as stated, fails for a future that carries a rejection handler:
    after [p1.resolve(t); p1.reject("boom")] the future [p1] is still
    pending, and when [t] then calls the callback it kept, [p1] is
    fulfilled with what [t] delivers, not rejected with ["boom"]. *)
Lemma later_reject_may_not_settle :
  state_of 1 rejected_after_resolve = Some pending
  ∧ ∃ w1 w2,
      call_resolve 0 (VNum 9) rejected_after_resolve = Some w1
      ∧ state_of 1 w1 = Some fulfilled ∧ result_of 1 w1 = Some (VNum 9)
      ∧ tick w1 = Some w2
      ∧ state_of 1 w2 = Some fulfilled ∧ result_of 1 w2 = Some (VNum 9).
Proof. split; [reflexivity|]. do 2 eexists. repeat split; reflexivity. Qed.

(** C9, amended.  [resolve] on a pending future with a value that
    delivers nothing yet leaves the future pending.  If the future
    carries no rejection handler, a later [reject(r)] rejects it with
    [r]; if it carries no fulfilment handler, a later [resolve] with a
    plain value fulfils it with that value; and from then on no
    operation, the late delivery of the earlier resolution among them,
    changes its state or its result. *)
Theorem resolution_does_not_lock w p x v :
  heap w !! p = Some x → is_pending (_state x) = true →
  delivers_later w p v →
  ∃ w1, resolve p v w = Some w1
    ∧ state_of p w1 = Some pending
    ∧ (∀ r, _onPreviousRejected x = None →
         ∃ w2, reject p r w1 = Some w2
           ∧ state_of p w2 = Some rejected ∧ result_of p w2 = Some r
           ∧ ∀ os w3, steps os w2 = Some w3 →
               state_of p w3 = Some rejected ∧ result_of p w3 = Some r)
    ∧ (∀ u, plain u = true → _onPreviousFulfilled x = None →
         ∃ w2, resolve p u w1 = Some w2
           ∧ state_of p w2 = Some fulfilled ∧ result_of p w2 = Some u
           ∧ ∀ os w3, steps os w2 = Some w3 →
               state_of p w3 = Some fulfilled ∧ result_of p w3 = Some u).
Proof.
  intros Hx Hp Hv.
  assert (∃ w1, resolve p v w = Some w1 ∧ heap w1 !! p = Some x)
    as (w1 & E1 & Hx1).
  { destruct Hv as [q y Hqp Hy Hpy|]; unfold resolve; simpl.
    - rewrite (proj2 (Nat.eqb_neq q p) Hqp), Hy, Hpy.
      eexists. split; [done|]. by rewrite lookup_adopt_ne.
    - eexists. split; [done|]. done. }
  exists w1. split; [done|]. split; [by apply (state_of_pending p x)|].
  assert (∀ st u, is_pending st = false → handler_for st x = None →
    ∃ w2, _grab (pendings w1) p st u w1 = Some w2
      ∧ state_of p w2 = Some st ∧ result_of p w2 = Some u
      ∧ ∀ os w3, steps os w2 = Some w3 →
          state_of p w3 = Some st ∧ result_of p w3 = Some u) as Hgrab.
  { intros st u Hst Hh.
    destruct (grab_by_case (pendings w1) p st u w1 x Hx1 Hst) as (w2 & E2 & C);
      [done|].
    rewrite Hh in C. destruct (_state x); try discriminate.
    destruct C as [S1 S2]. exists w2. split; [done|]. split; [done|].
    split; [done|]. intros os w3 Hs.
    eapply mono_reading; [by eapply steps_mono| |done..].
    by destruct st. }
  split.
  - intros r Hh. by apply (Hgrab rejected r).
  - intros u Hu Hh. unfold resolve. rewrite (unpack_plain _ _ _ _ _ Hu).
    by apply (Hgrab fulfilled u).
Qed.

Lemma resolution_does_not_lock_witness :
  heap one_pending !! 0 = Some fresh
  ∧ is_pending (_state fresh) = true
  ∧ delivers_later one_pending 0 (VObject (ThenFn SReturn))
  ∧ ∃ w1, resolve 0 (VObject (ThenFn SReturn)) one_pending = Some w1
    ∧ state_of 0 w1 = Some pending
    ∧ (∀ r, _onPreviousRejected fresh = None →
         ∃ w2, reject 0 r w1 = Some w2
           ∧ state_of 0 w2 = Some rejected ∧ result_of 0 w2 = Some r
           ∧ ∀ os w3, steps os w2 = Some w3 →
               state_of 0 w3 = Some rejected ∧ result_of 0 w3 = Some r)
    ∧ (∀ u, plain u = true → _onPreviousFulfilled fresh = None →
         ∃ w2, resolve 0 u w1 = Some w2
           ∧ state_of 0 w2 = Some fulfilled ∧ result_of 0 w2 = Some u
           ∧ ∀ os w3, steps os w2 = Some w3 →
               state_of 0 w3 = Some fulfilled ∧ result_of 0 w3 = Some u).
Proof.
  split; [reflexivity|]. split; [reflexivity|]. split; [constructor|].
  apply (resolution_does_not_lock one_pending 0 fresh (VObject (ThenFn SReturn)));
    [reflexivity|reflexivity|constructor].
Defined.

(** A pending promise given first, then a rejection, then the promise
    settling: the rejection stands. *)
Example reject_after_pending_promise :
  ∃ w, steps [ONew; ONew; OResolve 0 (VPromise 1); OReject 0 (VStr "r");
              OResolve 1 (VNum 3)] empty = Some w
    ∧ state_of 0 w = Some rejected ∧ result_of 0 w = Some (VStr "r")
    ∧ state_of 1 w = Some fulfilled.
Proof. eexists. repeat split; reflexivity. Qed.

(** ** C5: the callbacks handed to a foreign [then] *)

(** [b.then = (res, rej) => { kept(5); res(6); }], where [kept] is the
    first callback of the cell 0. *)
Definition reenters : value :=
  VObject (ThenFn (SCall (KeptResolve 0) (VNum 5)
                    (SCall OwnResolve (VNum 6) SReturn))).

(** [a.then = (res, rej) => { kept = res; res(b); }]. *)
Definition keeps_and_resolves : value :=
  VObject (ThenFn (SCall OwnResolve reenters SReturn)).

(** [p0 = new Promise(); p1 = p0.then(pass)]. *)
Definition with_fulfilment_handler : world :=
  World [set_chained (Some 1) None fresh; set_handlers (Some pass) None fresh]
        [] [] [].

Example with_fulfilment_handler_reached :
  steps [ONew; OThen 0 (AFn pass) (AVal VUndefined)] empty
  = Some with_fulfilment_handler.
Proof. reflexivity. Qed.

(** [() => a]. *)
Definition answer : handler := Handler 5 (λ _, Return keeps_and_resolves).

(** C5, where the code departs from it.  [_unpack] clears [callback]
    only after the nested [_unpack] of the first callback's argument has
    returned.  A second call of that first callback, made while the
    nested [_unpack] is inside another [then], is therefore served: one
    [p1.resolve(a)] delivers both 5 and 6 to the continuation, and the
    handler of [p1] is called on each; and a future whose handler
    returns [a] is fulfilled with the 5 of the second call, not with the
    6 that the argument [b] of the first call resolves to. *)
Theorem foreign_reentry_delivers_twice :
  (∃ w1 w2,
     resolve 1 keeps_and_resolves with_fulfilment_handler = Some w1
     ∧ queue w1 = [TRun 1 pass (VNum 5); TRun 1 pass (VNum 6)]
     ∧ steps [OTick; OTick] w1 = Some w2
     ∧ log w2 = [TRun 1 pass (VNum 5); TRun 1 pass (VNum 6)])
  ∧ (∃ w,
       steps [ONew; OThen 0 (AFn answer) (AVal VUndefined); OResolve 0 VNull;
              OTick] empty = Some w
       ∧ state_of 1 w = Some fulfilled ∧ result_of 1 w = Some (VNum 5)).
Proof.
  split.
  - do 2 eexists. repeat split; reflexivity.
  - eexists. split; [vm_compute; reflexivity|]. split; reflexivity.
Qed.

(** The same two objects when no callback is called again from inside
    another [then]: [b.then] calls its own first callback twice, and the
    first call alone is served. *)
Example foreign_repeat_delivers_once :
  ∃ w1,
    resolve 1 (VObject (ThenFn (SCall OwnResolve
                 (VObject (ThenFn (SCall OwnResolve (VNum 5)
                                     (SCall OwnResolve (VNum 6) SReturn))))
                 SReturn)))
      with_fulfilment_handler = Some w1
    ∧ queue w1 = [TRun 1 pass (VNum 5)].
Proof. eexists. split; reflexivity. Qed.



(** * The rest of the engine *)

(** ** Promises as they are created *)

(** A promise settled with [st] and [v] that holds no handler and no
    link: what [_relay] leaves of a promise nothing was attached to. *)
Definition settled_with (st : State) (v : value) : Promise :=
  mkPromise st false v None None None None None None.

(** The promise [then(a, b)] builds before it links or serves it. *)
Definition attached_by (a b : jsarg) : Promise :=
  set_handlers (as_function a) (as_function b) fresh.

Section creation.
Implicit Types (w : world) (p q d this : id) (x y : Promise) (v : value).

Lemma lookup_construct x w :
  heap (construct x w).2 !! length (heap w) = Some x.
Proof. simpl. apply list_lookup_middle, eq_refl. Qed.

Lemma lookup_construct_old x w p y :
  heap w !! p = Some y → heap (construct x w).2 !! p = Some y.
Proof. intros Hy. simpl. by apply lookup_app_l_Some. Qed.

Lemma store_construct x y w :
  store (length (heap w)) y (construct x w).2 = (construct y w).2.
Proof.
  unfold store, construct, with_heap. simpl. f_equal.
  rewrite insert_app_r_alt by lia. by rewrite Nat.sub_diag.
Qed.

Lemma pendings_new x w :
  is_pending (_state x) = true → pendings (construct x w).2 = S (pendings w).
Proof. intros Hp. rewrite pendings_construct, Hp. lia. Qed.

Lemma pendings_settled_new x w :
  is_pending (_state x) = false → pendings (construct x w).2 = pendings w.
Proof. intros Hp. rewrite pendings_construct, Hp. lia. Qed.

(** [_relay] on a promise that has just been created. *)
Lemma relay_new n st v x w :
  is_pending (_state x) = true →
  slots (_chainedPromise x) (_chainedPromises x) = [] →
  slots (_handledPromise x) (_handledPromises x) = [] →
  _relay (S n) (length (heap w)) st v (construct x w).2
  = Some (construct (release (set_state st v x)) w).2.
Proof.
  intros Hp H1 H2.
  rewrite (relay_leaf n _ st v _ x (lookup_construct x w) Hp H1 H2).
  by rewrite store_construct.
Qed.

Lemma run_new h v x w :
  _run (length (heap w)) h v (construct x w).2
  = with_queue (queue w ++ [TRun (length (heap w)) h v])
      (construct (set_running true x) w).2.
Proof.
  unfold _run. rewrite (modify_lookup _ _ _ _ (lookup_construct x w)).
  by rewrite store_construct.
Qed.

(** [_grab] on such a promise. *)
Lemma grab_new n st v x w :
  is_pending (_state x) = true →
  slots (_chainedPromise x) (_chainedPromises x) = [] →
  slots (_handledPromise x) (_handledPromises x) = [] →
  _grab (S n) (length (heap w)) st v (construct x w).2
  = Some match handler_for st x with
         | Some h =>
             with_queue (queue w ++ [TRun (length (heap w)) h v])
               (construct (set_running true x) w).2
         | None => (construct (release (set_state st v x)) w).2
         end.
Proof.
  intros Hp H1 H2.
  rewrite (grab_unfold _ _ _ _ _ x (lookup_construct x w) Hp).
  destruct (handler_for st x) as [h|].
  - by rewrite run_new.
  - by apply relay_new.
Qed.

(** [then] on a settled promise. *)
Lemma then_settled f a b w x :
  heap w !! f = Some x → is_pending (_state x) = false →
  then_ f a b w
  = Some (length (heap w),
          match handler_for (_state x) (attached_by a b) with
          | Some h =>
              with_queue (queue w ++ [TRun (length (heap w)) h (_valueOrReason x)])
                (construct (set_running true (attached_by a b)) w).2
          | None =>
              (construct (release (set_state (_state x) (_valueOrReason x)
                                     (attached_by a b))) w).2
          end).
Proof.
  intros Hx Hp. unfold then_. rewrite Hx. fold (attached_by a b).
  change (construct (attached_by a b) w)
    with (length (heap w), (construct (attached_by a b) w).2).
  cbv beta iota. rewrite Hp.
  rewrite (pendings_new (attached_by a b) w eq_refl).
  by rewrite (grab_new _ _ _ (attached_by a b) w eq_refl eq_refl eq_refl).
Qed.

(** [then] calls no handler and takes no task from the queue. *)
Lemma then_log_queue this a b w d w' :
  then_ this a b w = Some (d, w') →
  log w' = log w ∧ cells w' = cells w
  ∧ ∃ extra, queue w' = queue w ++ extra.
Proof.
  destruct (heap w !! this) as [x|] eqn:Hx; [|unfold then_; by rewrite Hx].
  destruct (is_pending (_state x)) eqn:Hp.
  - rewrite (then_pending this a b w x Hx Hp). intros ?; simplify_eq.
    split; [done|]. split; [done|]. exists []. by rewrite app_nil_r.
  - rewrite (then_settled this a b w x Hx Hp). intros ?; simplify_eq.
    destruct (handler_for _ _) as [h|]; simpl.
    + split; [done|]. split; [done|]. by eexists.
    + split; [done|]. split; [done|]. exists []. by rewrite app_nil_r.
Qed.

(** The resolver of the constructor returns, whatever it calls. *)
Lemma run_resolver_spec n this : ∀ body w,
  pendings w ≤ n →
  ∃ w', run_resolver n this body w = Some w' ∧ internal w w'.
Proof.
  induction body as [|e|f arg k IH]; intros w Hn; simpl.
  - exists w. split; [done|reflexivity].
  - destruct (grab_spec n this rejected e w eq_refl Hn) as (w' & E & R & _).
    exists w'. split; [done|apply R].
  - assert (∃ w1, match f with
                  | OwnResolve => _unpack n this arg (KGrab this) w
                  | OwnReject => _grab n this rejected arg w
                  | KeptResolve c =>
                      resolve_cb (λ this cb, _unpack n this arg cb) c w
                  | KeptReject c => reject_cb n c arg w
                  end = Some w1 ∧ internal w w1) as (w1 & -> & I1).
    { destruct f as [| |c|c].
      - by apply unpack_spec.
      - destruct (grab_spec n this rejected arg w eq_refl Hn) as (w1 & E & R & _).
        exists w1. split; [done|apply R].
      - apply (resolve_cb_spec n); [|done]. intros. by apply unpack_spec.
      - by apply reject_cb_spec. }
    simpl. destruct (IH w1) as (w' & E & I2).
    { pose proof (in_pendings _ _ I1). lia. }
    exists w'. split; [done|]. by etrans.
Qed.

Lemma internal_construct_after x w w' :
  internal (construct x w).2 w' →
  length (heap w') = S (length (heap w))
  ∧ log w' = log w
  ∧ (∃ extra, queue w' = queue w ++ extra)
  ∧ mono w w'.
Proof.
  intros [L _ Q G M _]. split; [|split; [|split]].
  - rewrite L. simpl. rewrite length_app. simpl. lia.
  - by rewrite G.
  - exact Q.
  - etrans; [apply mono_construct|exact M].
Qed.
End creation.

(** X1.  [Promise.resolve(value)] returns [value] itself, with nothing
    changed, when it is a promise of the engine, whatever state it is
    in.  For a value that is no promise and has no [then] to call, it
    returns a new promise that is already fulfilled with the value: no
    task is queued and no other promise is touched. *)
Theorem static_resolve w :
  (∀ q, Promise_resolve (VPromise q) w = Some (q, w))
  ∧ (∀ v, plain v = true →
       Promise_resolve v w
       = Some (length (heap w),
               with_heap (heap w ++ [settled_with fulfilled v]) w)).
Proof.
  split; [done|]. intros v Hv.
  assert (Promise_resolve v w
          = w2 ← resolve (length (heap w)) v (construct fresh w).2;
            Some (length (heap w), w2)) as ->.
  { by destruct v. }
  unfold resolve. rewrite (unpack_plain _ _ _ _ _ Hv).
  rewrite (pendings_new fresh w eq_refl).
  change (callk ?n (KGrab ?p) ?st ?a ?w0) with (_grab n p st a w0).
  by rewrite (grab_new _ _ _ fresh w eq_refl eq_refl eq_refl).
Qed.

Lemma static_resolve_witness :
  plain (VNum 7) = true
  ∧ Promise_resolve (VNum 7) one_pending
    = Some (1, with_heap [fresh; settled_with fulfilled (VNum 7)] one_pending).
Proof.
  split; [reflexivity|].
  exact (proj2 (static_resolve one_pending) (VNum 7) eq_refl).
Defined.

(** X2.  [Promise.reject(reason)] returns a new promise that is already
    rejected with exactly [reason]: the reason is not unpacked, also
    when it is a promise or has a [then]; no task is queued and no other
    promise is touched. *)
Theorem static_reject reason w :
  Promise_reject reason w
  = Some (length (heap w),
          with_heap (heap w ++ [settled_with rejected reason]) w).
Proof.
  unfold Promise_reject.
  change (construct fresh w) with (length (heap w), (construct fresh w).2).
  cbv beta iota. unfold reject.
  rewrite (pendings_new fresh w eq_refl).
  by rewrite (grab_new _ _ _ fresh w eq_refl eq_refl eq_refl).
Qed.

(** X3.  [new Promise(resolver)] with a resolver that throws before it
    has called either of its callbacks returns a promise rejected with
    what was thrown; with an argument that is no function it returns a
    pending promise.  Nothing else is changed. *)
Theorem constructor_resolver_throws e w :
  new_Promise (Some (SThrow e)) w
  = Some (length (heap w),
          with_heap (heap w ++ [settled_with rejected e]) w)
  ∧ new_Promise None w
    = Some (length (heap w), with_heap (heap w ++ [fresh]) w).
Proof.
  split; [|done]. unfold new_Promise.
  change (construct fresh w) with (length (heap w), (construct fresh w).2).
  cbv beta iota.
  change (run_resolver ?n ?p (SThrow ?r) ?w0) with (_grab n p rejected r w0).
  rewrite (pendings_new fresh w eq_refl).
  by rewrite (grab_new _ _ _ fresh w eq_refl eq_refl eq_refl).
Qed.

(** X4.  The first call a resolver makes to one of its two callbacks
    decides: after [resolve(v)] with a value that is no promise and has
    no [then] to call the new promise is fulfilled with [v], after
    [reject(r)] it is rejected with [r], and whatever the resolver does
    afterwards, calling either callback again, calling callbacks it
    kept from elsewhere or throwing, does not change that. *)
Theorem constructor_first_call_decides w f arg k :
  own f = true → (f = OwnResolve → plain arg = true) →
  ∃ w', new_Promise (Some (SCall f arg k)) w = Some (length (heap w), w')
    ∧ state_of (length (heap w)) w'
      = Some (match f with OwnResolve => fulfilled | _ => rejected end)
    ∧ result_of (length (heap w)) w' = Some arg.
Proof.
  intros Hf Hplain. unfold new_Promise.
  change (construct fresh w) with (length (heap w), (construct fresh w).2).
  cbv beta iota.
  set (st := match f with OwnResolve => fulfilled | _ => rejected end).
  set (w2 := (construct (settled_with st arg) w).2).
  assert (run_resolver (pendings (construct fresh w).2) (length (heap w))
            (SCall f arg k) (construct fresh w).2
          = run_resolver (S (pendings w)) (length (heap w)) k w2) as ->.
  { rewrite (pendings_new fresh w eq_refl).
    destruct f; try discriminate; unfold st.
    - change (run_resolver ?n ?p (SCall OwnResolve ?a ?k0) ?w0)
        with (w1 ← _unpack n p a (KGrab p) w0; run_resolver n p k0 w1).
      rewrite (unpack_plain _ _ _ _ _ (Hplain eq_refl)).
      change (callk ?n (KGrab ?p) ?s ?a ?w0) with (_grab n p s a w0).
      by rewrite (grab_new _ _ _ fresh w eq_refl eq_refl eq_refl).
    - change (run_resolver ?n ?p (SCall OwnReject ?a ?k0) ?w0)
        with (w1 ← _grab n p rejected a w0; run_resolver n p k0 w1).
      by rewrite (grab_new _ _ _ fresh w eq_refl eq_refl eq_refl). }
  destruct (run_resolver_spec (S (pendings w)) (length (heap w)) k w2)
    as (w' & -> & I).
  { unfold w2. rewrite pendings_settled_new; [lia|]. unfold st. by destruct f. }
  exists w'. split; [done|].
  apply (mono_reading w2 w'); [apply I|unfold st; by destruct f| |].
  - unfold w2. by rewrite (state_of_lookup _ _ _ (lookup_construct _ w)).
  - unfold w2. by rewrite (result_of_lookup _ _ _ (lookup_construct _ w)).
Qed.

Lemma constructor_first_call_decides_witness :
  own OwnResolve = true
  ∧ (OwnResolve = OwnResolve → plain (VNum 1) = true)
  ∧ ∃ w', new_Promise
            (Some (SCall OwnResolve (VNum 1)
                     (SCall OwnReject (VNum 2) (SThrow (VNum 3))))) one_pending
          = Some (1, w')
    ∧ state_of 1 w' = Some fulfilled ∧ result_of 1 w' = Some (VNum 1).
Proof.
  split; [reflexivity|]. split; [reflexivity|].
  exact (constructor_first_call_decides one_pending OwnResolve (VNum 1)
           (SCall OwnReject (VNum 2) (SThrow (VNum 3)))
           eq_refl (λ _, eq_refl)).
Defined.

(** X5.  The constructor returns the new promise whatever the resolver
    does: what the resolver throws is caught, no handler is called
    before the constructor returns, the tasks queued before are still
    queued in their order, and every promise settled before has the
    state and the result it had. *)
Theorem constructor_returns resolver w :
  ∃ w', new_Promise resolver w = Some (length (heap w), w')
    ∧ length (heap w') = S (length (heap w))
    ∧ log w' = log w
    ∧ (∃ extra, queue w' = queue w ++ extra)
    ∧ mono w w'.
Proof.
  unfold new_Promise.
  change (construct fresh w) with (length (heap w), (construct fresh w).2).
  cbv beta iota. destruct resolver as [body|].
  - destruct (run_resolver_spec (pendings (construct fresh w).2)
                (length (heap w)) body (construct fresh w).2)
      as (w' & -> & I); [done|].
    exists w'. split; [done|]. by apply (internal_construct_after fresh).
  - eexists. split; [done|]. apply (internal_construct_after fresh). reflexivity.
Qed.


(** ** What an operation leaves as it was *)

(** X6.  [then] returns a promise that was not there before and changes
    no promise that was: each keeps its state and its result, and each
    but the one [then] was called on is left exactly as it was.  No
    handler is called before [then] returns, and at most one task is
    queued, for the promise returned. *)
Theorem then_leaves_others this a b w d w' :
  then_ this a b w = Some (d, w') →
  d = length (heap w) ∧ length (heap w') = S (length (heap w))
  ∧ (∀ p x, heap w !! p = Some x →
       ∃ x', heap w' !! p = Some x'
         ∧ _state x' = _state x ∧ _valueOrReason x' = _valueOrReason x
         ∧ (p ≠ this → x' = x))
  ∧ log w' = log w
  ∧ (queue w' = queue w ∨ ∃ h v, queue w' = queue w ++ [TRun d h v]).
Proof.
  destruct (heap w !! this) as [x|] eqn:Hx; [|unfold then_; by rewrite Hx].
  destruct (is_pending (_state x)) eqn:Hp.
  - rewrite (then_pending this a b w x Hx Hp). intros ?; simplify_eq.
    split; [done|]. simpl. split; [|split; [|split; [done|by left]]].
    + rewrite length_app, length_insert. simpl. lia.
    + intros p y Hy. destruct (decide (p = this)) as [->|Hne].
      * exists (link1 x (length (heap w))). simplify_eq.
        split; [|split; [apply link1_state|split; [done|by intros []]]].
        apply lookup_app_l_Some, list_lookup_insert_eq.
        by eapply lookup_lt_Some.
      * exists y. split; [|done].
        apply lookup_app_l_Some. by rewrite list_lookup_insert_ne.
  - rewrite (then_settled this a b w x Hx Hp). intros ?; simplify_eq.
    split; [done|].
    destruct (handler_for (_state x) (attached_by a b)) as [h|]; simpl.
    + split; [rewrite length_app; simpl; lia|].
      split; [|split; [done|right; by eexists _, _]].
      intros p y Hy. exists y. split; [by apply lookup_app_l_Some|done].
    + split; [rewrite length_app; simpl; lia|].
      split; [|split; [done|by left]].
      intros p y Hy. exists y. split; [by apply lookup_app_l_Some|done].
Qed.

Lemma then_leaves_others_witness :
  ∃ w', then_ 0 (AFn pass) (AVal VUndefined) one_fulfilled = Some (1, w')
    ∧ 1 = length (heap one_fulfilled)
    ∧ length (heap w') = S (length (heap one_fulfilled))
    ∧ (∀ p x, heap one_fulfilled !! p = Some x →
         ∃ x', heap w' !! p = Some x'
           ∧ _state x' = _state x ∧ _valueOrReason x' = _valueOrReason x
           ∧ (p ≠ 0 → x' = x))
    ∧ log w' = log one_fulfilled
    ∧ (queue w' = queue one_fulfilled
       ∨ ∃ h v, queue w' = queue one_fulfilled ++ [TRun 1 h v]).
Proof.
  eexists. split; [reflexivity|].
  exact (then_leaves_others 0 (AFn pass) (AVal VUndefined) one_fulfilled 1 _
           eq_refl).
Defined.

(** X7.  [then] on a promise that is already settled, with a function
    for the state it settled in: the promise returned is pending, one
    task is queued behind those already queued, to call that function
    with the result of the settled promise, and the function has not
    been called when [then] returns. *)
Theorem then_on_settled_schedules w f x a b h :
  heap w !! f = Some x → is_pending (_state x) = false →
  handler_for (_state x) (attached_by a b) = Some h →
  then_ f a b w
  = Some (length (heap w),
          World (heap w ++ [set_running true (attached_by a b)])
                (cells w)
                (queue w ++ [TRun (length (heap w)) h (_valueOrReason x)])
                (log w)).
Proof. intros Hx Hp Hh. by rewrite (then_settled f a b w x Hx Hp), Hh. Qed.

Lemma then_on_settled_schedules_witness :
  heap one_rejected !! 0 = Some (settled_with rejected (VNum 1))
  ∧ is_pending rejected = false
  ∧ handler_for rejected (attached_by (AFn pass) (AFn recover)) = Some recover
  ∧ then_ 0 (AFn pass) (AFn recover) one_rejected
    = Some (1, World [settled_with rejected (VNum 1);
                      set_running true (attached_by (AFn pass) (AFn recover))]
                     [] [TRun 1 recover (VNum 1)] []).
Proof.
  split; [reflexivity|]. split; [reflexivity|]. split; [reflexivity|].
  exact (then_on_settled_schedules one_rejected 0
           (settled_with rejected (VNum 1)) (AFn pass) (AFn recover) recover
           eq_refl eq_refl eq_refl).
Defined.

(** X8.  No operation but the running of a queued task calls a handler:
    [new Promise], [then], [resolve], [reject] and the callbacks handed
    to foreign code leave the record of handler calls as it was, and
    only add tasks behind those queued.  Running a task calls the
    handler of the oldest task queued, and that one alone; with nothing
    queued it does nothing. *)
Theorem handlers_run_only_in_tasks o w w' :
  step o w = Some w' →
  match o, queue w with
  | OTick, [] => w' = w
  | OTick, t :: rest =>
      log w' = log w ++ [t] ∧ ∃ extra, queue w' = rest ++ extra
  | _, _ => log w' = log w ∧ ∃ extra, queue w' = queue w ++ extra
  end.
Proof.
  assert (∀ w1, internal w w1 →
            log w1 = log w ∧ ∃ extra, queue w1 = queue w ++ extra) as HI.
  { intros w1 I. split; [apply I|apply (in_queue _ _ I)]. }
  destruct o as [|p a b|p v|p r| |c v|c r]; simpl.
  - intros ?; simplify_eq. split; [done|]. exists []. by rewrite app_nil_r.
  - destruct (then_ p a b w) as [[d w1]|] eqn:E; [|done].
    intros ?; simplify_eq/=.
    by destruct (then_log_queue p a b w d w' E) as (G & _ & Q).
  - destruct (resolve_spec p v w) as (w1 & -> & I). intros ?; simplify_eq.
    by apply HI.
  - destruct (reject_spec p r w) as (w1 & -> & R). intros ?; simplify_eq.
    apply HI, R.
  - destruct (queue w) as [|t rest] eqn:Eq.
    + unfold tick. rewrite Eq. by intros ?; simplify_eq.
    + destruct (tick_step w t rest Eq) as (w1 & -> & I).
      intros ?; simplify_eq. split; [apply I|apply (in_queue _ _ I)].
  - destruct (call_resolve_spec c v w) as (w1 & -> & I). intros ?; simplify_eq.
    by apply HI.
  - destruct (call_reject_spec c r w) as (w1 & -> & I). intros ?; simplify_eq.
    by apply HI.
Qed.

Lemma handlers_run_only_in_tasks_witness :
  ∃ w', step OTick fail_queued = Some w'
    ∧ log w' = log fail_queued ++ [TRun 1 fail (VNum 1)]
    ∧ ∃ extra, queue w' = [] ++ extra.
Proof.
  eexists. split; [reflexivity|].
  exact (handlers_run_only_in_tasks OTick fail_queued _ eq_refl).
Defined.


(** ** Foreign objects that call back once *)

(** X10.  A foreign [then] that calls, of all callbacks, only the two it
    has just been handed delivers once, and what it delivers is its
    first call: [Fulfilled] with the argument when it first calls the
    first callback with a value that is no promise and has no [then] to
    call, [Rejected] with the argument when it first calls the second.
    Whatever it does after that call, calling either callback again or
    throwing, delivers nothing. *)
Theorem thenable_delivers_once n this f arg k cb w :
  own f = true → own_only k = true → (f = OwnResolve → plain arg = true) →
  pendings w ≤ n →
  _unpack n this (VObject (ThenFn (SCall f arg k))) cb w
  = w' ← callk n cb (match f with OwnResolve => fulfilled | _ => rejected end)
            arg (alloc_cell this cb w);
    Some (clear_cell (length (cells w)) w').
Proof.
  intros Hf Hk Hplain Hn.
  rewrite (first_call_wins n this f arg k cb w Hf Hk Hn).
  destruct f; try discriminate.
  - rewrite first_call_resolve. by rewrite (unpack_plain _ _ _ _ _ (Hplain eq_refl)).
  - apply first_call_reject.
Qed.

Lemma thenable_delivers_once_witness :
  own OwnResolve = true
  ∧ own_only (SCall OwnReject (VNum 2) (SThrow (VNum 3))) = true
  ∧ (OwnResolve = OwnResolve → plain (VNum 1) = true)
  ∧ pendings one_pending ≤ 1
  ∧ _unpack 1 0
      (VObject (ThenFn (SCall OwnResolve (VNum 1)
                          (SCall OwnReject (VNum 2) (SThrow (VNum 3))))))
      (KGrab 0) one_pending
    = Some (World [settled_with fulfilled (VNum 1)] [None] [] []).
Proof.
  split; [reflexivity|]. split; [reflexivity|]. split; [reflexivity|].
  split; [reflexivity|].
  exact (thenable_delivers_once 1 0 OwnResolve (VNum 1)
           (SCall OwnReject (VNum 2) (SThrow (VNum 3))) (KGrab 0) one_pending
           eq_refl eq_refl (λ _, eq_refl) (le_n 1)).
Defined.

(** ** Promises resolved with each other *)

(** X11.  Only a promise resolved with itself is rejected for it: two
    pending promises resolved with each other both stay pending, with
    no task queued, each registered with the other.  Relaying a state
    and a result to either of them afterwards ends, and both have that
    state and that result. *)
Theorem mutual_resolution w a b x y :
  a ≠ b →
  heap w !! a = Some x → is_pending (_state x) = true →
  heap w !! b = Some y → is_pending (_state y) = true →
  ∃ w2, steps [OResolve a (VPromise b); OResolve b (VPromise a)] w = Some w2
    ∧ state_of a w2 = Some pending ∧ state_of b w2 = Some pending
    ∧ a ∈ adopters b w2 ∧ b ∈ adopters a w2
    ∧ queue w2 = queue w ∧ log w2 = log w
    ∧ ∀ p st v, p = a ∨ p = b → is_pending st = false →
        ∃ w3, _relay (pendings w2) p st v w2 = Some w3
          ∧ state_of a w3 = Some st ∧ result_of a w3 = Some v
          ∧ state_of b w3 = Some st ∧ result_of b w3 = Some v.
Proof.
  intros Hab Hx Hpx Hy Hpy.
  set (w1 := adopt b a y w).
  assert (resolve a (VPromise b) w = Some w1) as E1.
  { unfold resolve. simpl. by rewrite (proj2 (Nat.eqb_neq b a)), Hy, Hpy. }
  assert (heap w1 !! a = Some x) as Hx1
    by (unfold w1; by rewrite lookup_adopt_ne).
  set (w2 := adopt a b x w1).
  assert (resolve b (VPromise a) w1 = Some w2) as E2.
  { unfold resolve. simpl. by rewrite (proj2 (Nat.eqb_neq a b)), Hx1, Hpx. }
  assert (adopters b w1 = adopters b w ++ [a]) as A1
    by exact (adopters_adopt b a y w Hy).
  assert (adopters a w2 = adopters a w1 ++ [b]) as A2
    by exact (adopters_adopt a b x w1 Hx1).
  assert (∃ y1, heap w1 !! b = Some y1 ∧ is_pending (_state y1) = true)
    as (y1 & Hy1 & Hpy1).
  { unfold w1, adopt. destruct (link a _ _) as [one many].
    eexists. split; [by eapply lookup_store_eq|done]. }
  assert (heap w2 !! b = Some y1) as Hy2
    by (unfold w2; by rewrite lookup_adopt_ne).
  assert (∃ x2, heap w2 !! a = Some x2 ∧ is_pending (_state x2) = true)
    as (x2 & Hx2 & Hpx2).
  { unfold w2, adopt. destruct (link b _ _) as [one many].
    eexists. split; [by eapply lookup_store_eq|done]. }
  assert (adopters b w2 = adopters b w1) as A3
    by (unfold adopters; by rewrite Hy2, Hy1).
  exists w2. split.
  { change (steps [OResolve a (VPromise b); OResolve b (VPromise a)] w)
      with (resolve a (VPromise b) w
            ≫= λ wa, resolve b (VPromise a) wa ≫= λ wb, Some wb).
    rewrite E1. cbn [mbind option_bind]. by rewrite E2. }
  split; [by apply (state_of_pending a x2)|].
  split; [by apply (state_of_pending b y1)|].
  split; [rewrite A3, A1; apply elem_of_app; right; by apply list_elem_of_singleton|].
  split; [rewrite A2; apply elem_of_app; right; by apply list_elem_of_singleton|].
  split; [by unfold w2, w1, adopt; do 2 destruct (link _ _ _)|].
  split; [by unfold w2, w1, adopt; do 2 destruct (link _ _ _)|].
  intros p st v [->| ->] Hst.
  - destruct (relay_mirrors (pendings w2) a b st v w2 x2 y1)
      as (w3 & E & _ & [S1 S2] & [S3 S4]); try done.
    + unfold adopters in A2. rewrite Hx2 in A2. rewrite A2.
      apply elem_of_app. right. by apply list_elem_of_singleton.
    + by exists w3.
  - destruct (relay_mirrors (pendings w2) b a st v w2 y1 x2)
      as (w3 & E & _ & [S1 S2] & [S3 S4]); try done.
    + rewrite A1 in A3. unfold adopters in A3 at 1. rewrite Hy2 in A3.
      rewrite A3. apply elem_of_app. right. by apply list_elem_of_singleton.
    + by exists w3.
Qed.

Lemma mutual_resolution_witness :
  1 ≠ 3
  ∧ heap give_queued !! 1 = Some fresh ∧ is_pending (_state fresh) = true
  ∧ heap give_queued !! 3 = Some fresh
  ∧ ∃ w2, steps [OResolve 1 (VPromise 3); OResolve 3 (VPromise 1)] give_queued
          = Some w2
    ∧ state_of 1 w2 = Some pending ∧ state_of 3 w2 = Some pending
    ∧ 1 ∈ adopters 3 w2 ∧ 3 ∈ adopters 1 w2
    ∧ queue w2 = queue give_queued ∧ log w2 = log give_queued
    ∧ ∀ p st v, p = 1 ∨ p = 3 → is_pending st = false →
        ∃ w3, _relay (pendings w2) p st v w2 = Some w3
          ∧ state_of 1 w3 = Some st ∧ result_of 1 w3 = Some v
          ∧ state_of 3 w3 = Some st ∧ result_of 3 w3 = Some v.
Proof.
  split; [lia|]. split; [reflexivity|]. split; [reflexivity|].
  split; [reflexivity|].
  apply (mutual_resolution give_queued 1 3 fresh fresh); [lia|reflexivity..].
Defined.


(** ** Relations that every operation keeps *)

(** A property of worlds, as the relation between a world that has it
    and a later one. *)
Definition keeps (P : world → Prop) : relation world := λ w w', P w → P w'.

(** Every callback that foreign code can still call closes over a
    promise in [T] and holds a continuation in [K]. *)
Definition cells_hold (T : id → Prop) (K : cont → Prop) (w : world) : Prop :=
  Forall (λ c, match c with Some (this, k) => T this ∧ K k | None => True end)
         (cells w).

(** The operations that are on a promise in [T] and whose
    continuation, if they pass one, is in [K]: [p.resolve(v)] and
    [p.reject(r)] pass [(state, v) => p._grab(state, v)]. *)
Definition within (T : id → Prop) (K : cont → Prop) (o : op) : Prop :=
  match o with
  | OResolve p _ | OReject p _ => T p ∧ K (KGrab p)
  | _ => True
  end.

Global Instance keeps_preorder P : PreOrder (keeps P).
Proof.
  split; [intros w H; exact H|]. intros w1 w2 w3 H12 H23 H. by apply H23, H12.
Qed.

Lemma cells_modify p f w : cells (modify p f w) = cells w.
Proof. unfold modify. by destruct (heap w !! p). Qed.

Lemma cells_hold_same T K w w' :
  cells w' = cells w → cells_hold T K w → cells_hold T K w'.
Proof. unfold cells_hold. by intros ->. Qed.

Lemma cells_hold_alloc T K this k w :
  T this → K k → cells_hold T K w → cells_hold T K (alloc_cell this k w).
Proof.
  intros Ht Hk Hc. unfold cells_hold. simpl. apply Forall_app. split; [done|].
  by apply Forall_singleton.
Qed.

Lemma cells_hold_clear T K c w :
  cells_hold T K w → cells_hold T K (clear_cell c w).
Proof. intros Hc. unfold cells_hold. simpl. by apply Forall_insert. Qed.

(** A relation that the steps of the engine keep is kept by its
    procedures and by every operation. *)
Section procedures.
Context (R : relation world) `{!PreOrder R} (T : id → Prop) (K : cont → Prop).
Hypothesis R_relay : ∀ n p st v w w',
  K (KRelay p) → is_pending st = false → _relay n p st v w = Some w' → R w w'.
Hypothesis R_grab : ∀ n p st v w w',
  K (KGrab p) → is_pending st = false → _grab n p st v w = Some w' → R w w'.
Hypothesis R_running : ∀ p b w, R w (modify p (set_running b) w).
Hypothesis R_adopt : ∀ q this x w,
  T this → heap w !! q = Some x → is_pending (_state x) = true →
  R w (adopt q this x w).
Hypothesis R_cells : ∀ c w, R w (with_cells c w).

Lemma callk_keeps n k st v w w' :
  K k → is_pending st = false → callk n k st v w = Some w' →
  R w w' ∧ cells w' = cells w.
Proof.
  intros Hk Hst. destruct k as [p|p]; simpl.
  - intros E. split; [exact (R_grab n p st v w w' Hk Hst E)|].
    destruct (grab_relayed n p st v w w' Hst E) as [Rl _]. apply Rl.
  - destruct (_relay n p st v w) as [w1|] eqn:E; [|done].
    intros ?; simplify_eq/=. split.
    + etrans; [exact (R_relay n p st v w w1 Hk Hst E)|apply R_running].
    + rewrite cells_modify.
      destruct (relay_sound n p st v w w1 Hst E) as [Rl _]. apply Rl.
Qed.

Lemma reject_cb_keeps n c reason w w' :
  cells_hold T K w → reject_cb n c reason w = Some w' →
  R w w' ∧ cells_hold T K w'.
Proof.
  intros Hc. unfold reject_cb.
  destruct (cells w !! c) as [[[this k]|]|] eqn:E;
    [|by intros ?; simplify_eq..].
  destruct (callk n k rejected reason w) as [w1|] eqn:Ek; [|done].
  intros ?; simplify_eq/=.
  pose proof (Forall_lookup_1 _ _ _ _ Hc E) as [Ht Hk].
  destruct (callk_keeps n k rejected reason w w1 Hk eq_refl Ek) as [H1 H2].
  split; [etrans; [exact H1|apply R_cells]|].
  apply cells_hold_clear. by apply (cells_hold_same T K w).
Qed.

Lemma resolve_cb_keeps (f : id → cont → world → option world) c w w' :
  (∀ this k w', T this → K k → f this k w = Some w' →
     R w w' ∧ cells_hold T K w') →
  cells_hold T K w → resolve_cb f c w = Some w' →
  R w w' ∧ cells_hold T K w'.
Proof.
  intros Hf Hc. unfold resolve_cb.
  destruct (cells w !! c) as [[[this k]|]|] eqn:E;
    [|by intros ?; simplify_eq..].
  destruct (f this k w) as [w1|] eqn:Ek; [|done].
  intros ?; simplify_eq/=.
  pose proof (Forall_lookup_1 _ _ _ _ Hc E) as [Ht Hk].
  destruct (Hf this k w1 Ht Hk Ek) as [H1 H2].
  split; [etrans; [exact H1|apply R_cells]|by apply cells_hold_clear].
Qed.

Lemma unpack_run_keeps n :
  (∀ v this cb w w', T this → K cb → cells_hold T K w →
     _unpack n this v cb w = Some w' → R w w' ∧ cells_hold T K w')
  ∧ (∀ m this cb w w', T this → K cb → cells_hold T K w →
     _unpack n this (VObject m) cb w = Some w' → R w w' ∧ cells_hold T K w')
  ∧ (∀ body c w w', cells_hold T K w →
     run_then n c body w = Some w' → R w w' ∧ cells_hold T K w').
Proof.
  assert (∀ cb st v w w', K cb → cells_hold T K w → is_pending st = false →
            callk n cb st v w = Some w' → R w w' ∧ cells_hold T K w') as Hcall.
  { intros cb st v w w' Hk Hc Hst E.
    destruct (callk_keeps n cb st v w w' Hk Hst E) as [H1 H2].
    split; [done|by apply (cells_hold_same T K w)]. }
  apply value_mutind;
    try (intros; simpl in *; by eapply (Hcall cb fulfilled)).
  - (* a promise *)
    intros q this cb w w' Ht Hk Hc. simpl. destruct (Nat.eqb q this).
    { by apply Hcall. }
    destruct (heap w !! q) as [x|] eqn:Hx; [|by intros ?; simplify_eq].
    destruct (is_pending (_state x)) eqn:Hp.
    + intros ?; simplify_eq. split; [by apply R_adopt|].
      apply (cells_hold_same T K w); [|done].
      unfold adopt. by destruct (link _ _ _).
    + by apply Hcall.
  - (* an object *)
    intros m IH this cb w w'. apply IH.
  - (* reading [then] throws *)
    intros e _ this cb w w' Ht Hk Hc. simpl. by apply Hcall.
  - (* its [then] is a function *)
    intros body IH this cb w w' Ht Hk Hc. simpl. intros E.
    destruct (IH _ (alloc_cell this cb w) w'
                (cells_hold_alloc T K this cb w Ht Hk Hc) E) as [H1 H2].
    split; [|done]. etrans; [apply R_cells|exact H1].
  - (* the call returns *)
    intros c w w' Hc. simpl. by intros ?; simplify_eq.
  - (* the call throws *)
    intros e _ c w w' Hc. simpl. by apply reject_cb_keeps.
  - (* the call calls a callback *)
    intros f arg IHarg body IHbody c w w' Hc. simpl.
    destruct (match f with
              | OwnResolve => _ | OwnReject => _
              | KeptResolve c' => _ | KeptReject c' => _ end)
      as [w1|] eqn:E1; [|done].
    simpl. intros E2.
    assert (R w w1 ∧ cells_hold T K w1) as [H1 Hc1].
    { destruct f.
      - eapply resolve_cb_keeps; [|exact Hc|exact E1].
        intros this k w2 Ht Hk. by apply IHarg.
      - by eapply reject_cb_keeps.
      - eapply resolve_cb_keeps; [|exact Hc|exact E1].
        intros this k w2 Ht Hk. by apply IHarg.
      - by eapply reject_cb_keeps. }
    destruct (IHbody c w1 w' Hc1 E2) as [H2 Hc2].
    split; [by etrans|done].
Qed.

Lemma unpack_keeps n this v cb w w' :
  T this → K cb → cells_hold T K w → _unpack n this v cb w = Some w' →
  R w w' ∧ cells_hold T K w'.
Proof. destruct (unpack_run_keeps n) as (H & _). apply H. Qed.

Hypothesis T_all : ∀ p, T p.
Hypothesis K_relay : ∀ p, K (KRelay p).
Hypothesis R_new : ∀ w, R w (construct fresh w).2.
Hypothesis R_then : ∀ p a b w d w', then_ p a b w = Some (d, w') → R w w'.
Hypothesis R_begin : ∀ t rest w, queue w = t :: rest → R w (begin_task t rest w).

Lemma step_keeps o w w' :
  within T K o → cells_hold T K w → step o w = Some w' →
  R w w' ∧ cells_hold T K w'.
Proof.
  intros Ho Hc. destruct o as [|p a b|p v|p r| |c v|c r]; simpl in *.
  - intros ?; simplify_eq. split; [apply R_new|done].
  - destruct (then_ p a b w) as [[d w1]|] eqn:E; [|done].
    intros ?; simplify_eq/=. split; [by eapply R_then|].
    destruct (then_log_queue p a b w d w' E) as (_ & C & _).
    by apply (cells_hold_same T K w).
  - destruct Ho as [Ht Hk]. by apply unpack_keeps.
  - unfold reject. intros E. destruct Ho as [Ht Hk].
    split; [exact (R_grab _ p rejected r w w' Hk eq_refl E)|].
    destruct (grab_relayed _ p rejected r w w' eq_refl E) as [Rl _].
    apply (cells_hold_same T K w); [apply Rl|done].
  - unfold tick. destruct (queue w) as [|[d h a] rest] eqn:Eq.
    { by intros ?; simplify_eq. }
    pose proof (R_begin (TRun d h a) rest w Eq) as H0.
    set (w1 := begin_task (TRun d h a) rest w) in *.
    assert (cells_hold T K w1) as Hc1 by done.
    destruct (hbody h a) as [ret|error]; intros E.
    + destruct (unpack_keeps _ d ret (KRelay d) w1 w'
                  (T_all d) (K_relay d) Hc1 E) as [H1 H2].
      split; [by etrans|done].
    + destruct (callk_keeps _ (KRelay d) rejected error w1 w'
                  (K_relay d) eq_refl E) as [H1 H2].
      split; [by etrans|by apply (cells_hold_same T K w1)].
  - apply resolve_cb_keeps; [|done]. intros this k w2 Ht Hk.
    by apply unpack_keeps.
  - by apply reject_cb_keeps.
Qed.

Lemma steps_keeps os : ∀ w w',
  Forall (within T K) os → cells_hold T K w → steps os w = Some w' →
  R w w' ∧ cells_hold T K w'.
Proof.
  induction os as [|o os IH]; intros w w' Hos Hc Hs; simpl in Hs.
  - simplify_eq. split; [reflexivity|done].
  - apply Forall_cons in Hos as [Ho Hos].
    destruct (step o w) as [w1|] eqn:E; simplify_eq/=.
    destruct (step_keeps o w w1 Ho Hc E) as [H1 Hc1].
    destruct (IH w1 w' Hos Hc1 Hs) as [H2 Hc2].
    split; [by etrans|done].
Qed.
End procedures.


(** ** What a settled promise holds *)

(** Of each one-slot-or-array pair of fields at most one is set. *)
Definition exclusive (x : Promise) : Prop :=
  (_chainedPromise x = None ∨ _chainedPromises x = None)
  ∧ (_handledPromise x = None ∨ _handledPromises x = None).

(** The promise holds no handler and no other promise. *)
Definition bare (x : Promise) : Prop :=
  _chainedPromise x = None ∧ _chainedPromises x = None
  ∧ _handledPromise x = None ∧ _handledPromises x = None
  ∧ _onPreviousFulfilled x = None ∧ _onPreviousRejected x = None.

(** Every settled promise is bare, those in [E] apart: a promise is in
    [E] while its [_relay] is between setting the state and the
    clean-up. *)
Definition released_but (E : id → Prop) (w : world) : Prop :=
  ∀ p x, heap w !! p = Some x →
    exclusive x ∧ (settled x → ¬ E p → bare x).

Definition released : world → Prop := released_but (λ _, False).

Section released.
Implicit Types (w : world) (p q d this : id) (x y : Promise) (E : id → Prop).

Lemma released_store E p y w :
  exclusive y → (settled y → ¬ E p → bare y) →
  released_but E w → released_but E (store p y w).
Proof.
  intros H1 H2 Hr q z Hz.
  destruct (decide (p = q)) as [<-|Hne].
  - assert (is_Some (heap w !! p)) as [x Hx].
    { apply lookup_lt_is_Some. rewrite <- (length_store p y w).
      by eapply lookup_lt_Some. }
    rewrite (lookup_store_eq p x y w Hx) in Hz. by simplify_eq.
  - rewrite lookup_store_ne in Hz by done. by apply Hr.
Qed.

Lemma released_same_heap E w w' :
  heap w' = heap w → released_but E w → released_but E w'.
Proof. intros Hh Hr p x. rewrite Hh. apply Hr. Qed.

Lemma released_modify_running E p b w :
  released_but E w → released_but E (modify p (set_running b) w).
Proof.
  intros Hr. destruct (heap w !! p) as [x|] eqn:Hx.
  - rewrite (modify_lookup _ _ _ _ Hx).
    destruct (Hr p x Hx) as [H1 H2]. by apply released_store.
  - by rewrite (modify_missing _ _ _ Hx).
Qed.

Lemma released_run E this h a w :
  released_but E w → released_but E (_run this h a w).
Proof.
  intros Hr. unfold _run.
  apply (released_same_heap E (modify this (set_running true) w)); [done|].
  by apply released_modify_running.
Qed.

Lemma released_weaken E (E' : id → Prop) w :
  (∀ p, E p → E' p) → released_but E w → released_but E' w.
Proof.
  intros HE Hr p x Hx. destruct (Hr p x Hx) as [H1 H2].
  split; [done|]. intros Hs Hn. apply H2; [done|]. intros He. by apply Hn, HE.
Qed.

(** The clean-up at the end of [_relay] leaves a bare promise. *)
Lemma release_bare x : exclusive x → bare (release x) ∧ exclusive (release x).
Proof.
  intros [[H1|H1] [H2|H2]]; unfold bare, exclusive; simpl;
    rewrite ?H1, ?H2;
    destruct (_chainedPromise x), (_handledPromise x); auto 10.
Qed.

Lemma released_release E this w :
  released_but (λ p, E p ∨ p = this) w →
  released_but E (modify this release w).
Proof.
  intros Hr. destruct (heap w !! this) as [x|] eqn:Hx.
  - rewrite (modify_lookup _ _ _ _ Hx).
    destruct (Hr this x Hx) as [H1 _].
    destruct (release_bare x H1) as [Hb He].
    intros q z Hz. destruct (decide (this = q)) as [<-|Hne].
    + rewrite (lookup_store_eq this x _ w Hx) in Hz. by simplify_eq.
    + rewrite lookup_store_ne in Hz by done.
      destruct (Hr q z Hz) as [H2 H3]. split; [done|].
      intros Hs Hn. apply H3; [done|]. intros [?|?]; [done|by subst].
  - rewrite (modify_missing _ _ _ Hx).
    intros q z Hz. destruct (Hr q z Hz) as [H2 H3]. split; [done|].
    intros Hs Hn. apply H3; [done|]. intros [?|?]; [done|]. subst.
    by rewrite Hx in Hz.
Qed.

Lemma grab_released (relay : id → State → value → world → option world)
    E this st v w w' :
  (∀ w w', relay this st v w = Some w' → keeps (released_but E) w w') →
  grab_with relay this st v w = Some w' → keeps (released_but E) w w'.
Proof.
  intros Hrelay. unfold grab_with.
  destruct (heap w !! this) as [x|]; [|by intros ?; simplify_eq].
  destruct (is_pending (_state x)); [|by intros ?; simplify_eq].
  destruct (handler_for st x) as [h|].
  - intros ?; simplify_eq. intros Hr. by apply released_run.
  - apply Hrelay.
Qed.

Lemma relay_released n : ∀ E this st v w w',
  _relay n this st v w = Some w' → keeps (released_but E) w w'.
Proof.
  induction n as [|n IH]; intros E this st v w w'; simpl;
    destruct (heap w !! this) as [x|] eqn:Hx;
    try (by intros ?; simplify_eq);
    destruct (is_pending (_state x)) eqn:Hp;
    try (by intros ?; simplify_eq).
  set (x1 := set_state st v x). set (w1 := store this x1 w).
  destruct (each _ _ w1) as [w2|] eqn:E2; [simpl|discriminate].
  destruct (each _ _ w2) as [w3|] eqn:E3; [simpl|discriminate].
  intros ?; simplify_eq. intros Hr.
  set (E' := λ p, E p ∨ p = this).
  apply released_release. fold E'.
  assert (released_but E' w1) as Hr1.
  { destruct (Hr this x Hx) as [H1 _].
    apply released_store; [done| |].
    - intros _ Hn. destruct Hn. by right.
    - apply (released_weaken E); [|done]. intros p ?. by left. }
  assert (keeps (released_but E') w1 w2) as K12.
  { eapply (each_sound (keeps (released_but E'))); [|exact E2].
    intros c wa wb. apply grab_released. intros wc wd. apply IH. }
  assert (keeps (released_but E') w2 w3) as K23.
  { eapply (each_sound (keeps (released_but E'))); [|exact E3].
    intros c wa wb. apply IH. }
  by apply K23, K12.
Qed.

Lemma grab_keeps_released n this st v w w' :
  _grab n this st v w = Some w' → keeps released w w'.
Proof. apply grab_released. intros wa wb. apply relay_released. Qed.

Lemma adopt_released q this x w :
  heap w !! q = Some x → is_pending (_state x) = true →
  keeps released w (adopt q this x w).
Proof.
  intros Hx Hp Hr. unfold adopt.
  destruct (Hr q x Hx) as [[H1 H2] _].
  destruct (link this _ _) as [one many] eqn:El.
  apply released_store; [|by intros Hs; destruct (not_settled x Hp)|done].
  split; [done|]. simpl. unfold link in El.
  destruct (_handledPromise x); [simplify_eq; by left|].
  destruct (_handledPromises x); simplify_eq; [by left|by right].
Qed.

Lemma construct_released x w :
  exclusive x → (settled x → bare x) →
  keeps released w (construct x w).2.
Proof.
  intros H1 H2 Hr p y Hy. simpl in Hy.
  apply lookup_app_Some in Hy as [Hy|[_ Hy]]; [exact (Hr p y Hy)|].
  apply list_lookup_singleton_Some in Hy as [_ <-]. split; [done|]. auto.
Qed.

Lemma then_released this a b w d w' :
  then_ this a b w = Some (d, w') → keeps released w w'.
Proof.
  destruct (heap w !! this) as [x|] eqn:Hx; [|unfold then_; by rewrite Hx].
  assert (exclusive (attached_by a b)) as Hex by (split; by left).
  destruct (is_pending (_state x)) eqn:Hp.
  - rewrite (then_pending this a b w x Hx Hp). intros ?; simplify_eq.
    intros Hr.
    change (with_heap _ w)
      with (construct (attached_by a b)
              (store this (link1 x (length (heap w))) w)).2.
    apply construct_released; [done|by intros Hs|].
    destruct (Hr this x Hx) as [[H1 H2] _].
    apply released_store; [|intros Hs|done].
    + split; [|done]. unfold link1, link. simpl.
      destruct (_chainedPromise x); [by left|].
      destruct (_chainedPromises x); [by left|by right].
    + rewrite <- (link1_state x (length (heap w))) in Hp.
      destruct (not_settled _ Hp Hs).
  - rewrite (then_settled this a b w x Hx Hp). intros ?; simplify_eq.
    intros Hr. destruct (handler_for _ _) as [h|].
    + apply (released_same_heap _
               (construct (set_running true (attached_by a b)) w).2); [done|].
      by apply construct_released.
    + apply construct_released; [| |done].
      * apply release_bare. done.
      * intros _. by apply release_bare.
Qed.

Lemma released_empty : released empty.
Proof. intros p x Hx. by destruct p. Qed.

Lemma steps_released os w w' :
  released w → steps os w = Some w' → released w'.
Proof.
  intros Hr Hs.
  destruct (steps_keeps (keeps released) (λ _, True) (λ _, True))
    with (os := os) (w := w) (w' := w') as [H _]; try done.
  - intros n p st v wa wb _ _. apply relay_released.
  - intros n p st v wa wb _ _. apply grab_keeps_released.
  - intros p b wa Ha. by apply released_modify_running.
  - intros q this x wa _. apply adopt_released.
  - intros c wa Ha. by apply (released_same_heap _ wa).
  - intros wa. apply construct_released; [split; by left|by intros Hf].
  - apply then_released.
  - intros t rest wa _ Ha. by apply (released_same_heap _ wa).
  - apply Forall_true. by intros [].
  - apply Forall_true. by intros [[??]|].
  - by apply H.
Qed.
End released.

(** X12.  Once a promise is settled it holds nothing: [_relay] ends by
    dropping both handlers, the promises chained on it and the promises
    that adopted it, and no operation gives a settled promise a handler
    or a link again.  This holds in the world before any operation and
    is kept by every run of operations. *)
Theorem settled_promises_hold_nothing os w w' p x :
  released w → steps os w = Some w' →
  heap w' !! p = Some x → is_pending (_state x) = false →
  _onPreviousFulfilled x = None ∧ _onPreviousRejected x = None
  ∧ successors p w' = [] ∧ adopters p w' = [].
Proof.
  intros Hr Hs Hx Hp.
  destruct (steps_released os w w' Hr Hs p x Hx) as [_ Hb].
  destruct (Hb Hp) as (H1 & H2 & H3 & H4 & H5 & H6); [tauto|].
  unfold successors, adopters. rewrite Hx, H1, H2, H3, H4. done.
Qed.

Lemma settled_promises_hold_nothing_witness :
  released empty
  ∧ ∃ w', steps [ONew; OThen 0 (AFn pass) (AFn recover);
                 OThen 0 (AFn fail) (AVal VNull); ONew;
                 OResolve 3 (VPromise 0); OResolve 0 (VNum 5)] empty = Some w'
    ∧ heap w' !! 0 = Some (settled_with fulfilled (VNum 5))
    ∧ is_pending (_state (settled_with fulfilled (VNum 5))) = false
    ∧ successors 0 w' = [] ∧ adopters 0 w' = [].
Proof.
  split; [apply released_empty|].
  eexists. split; [vm_compute; reflexivity|].
  split; [reflexivity|]. split; [reflexivity|].
  refine (proj2 (proj2 (settled_promises_hold_nothing
            [ONew; OThen 0 (AFn pass) (AFn recover);
             OThen 0 (AFn fail) (AVal VNull); ONew;
             OResolve 3 (VPromise 0); OResolve 0 (VNum 5)]
            empty _ 0 (settled_with fulfilled (VNum 5))
            released_empty _ _ _)));
    reflexivity.
Defined.


(** ** Promises made without handlers *)

(** The object [deferred()] of the Promises/A+ adapter returns,
    [test/aplus/adapter.js]: a promise and the two functions that
    resolve and reject it. *)
Record Deferred := mkDeferred {
  deferred_promise : id;
  deferred_resolve : value → world → option world;
  deferred_reject : value → world → option world }.

(** [deferred()]: [promise] is [new Promise()], [resolve] is
    [value => promise.resolve(value)] and [reject] is
    [reason => promise.reject(reason)]. *)
Definition deferred (w : world) : Deferred * world :=
  let '(promise, w1) := construct fresh w in
  (mkDeferred promise (λ value, resolve promise value)
                      (λ reason, reject promise reason), w1).

(** Every promise is still there, and one that is pending was pending
    and holds the handlers it held. *)
Definition steady (w w' : world) : Prop :=
  ∀ p x, heap w !! p = Some x →
    ∃ x', heap w' !! p = Some x'
      ∧ (is_pending (_state x') = true →
           is_pending (_state x) = true
           ∧ _onPreviousFulfilled x' = _onPreviousFulfilled x
           ∧ _onPreviousRejected x' = _onPreviousRejected x).

Section steady.
Implicit Types (w : world) (p q d this : id) (x y : Promise).

Global Instance steady_preorder : PreOrder steady.
Proof.
  split.
  - intros w p x Hx. by exists x.
  - intros w1 w2 w3 H12 H23 p x Hx.
    destruct (H12 p x Hx) as (y & Hy & Hxy).
    destruct (H23 p y Hy) as (z & Hz & Hyz).
    exists z. split; [done|]. intros Hp.
    destruct (Hyz Hp) as (Hpy & F1 & F2).
    destruct (Hxy Hpy) as (Hpx & G1 & G2).
    split; [done|]. split; congruence.
Qed.

Lemma steady_store p x y w :
  heap w !! p = Some x →
  (is_pending (_state y) = true →
     is_pending (_state x) = true
     ∧ _onPreviousFulfilled y = _onPreviousFulfilled x
     ∧ _onPreviousRejected y = _onPreviousRejected x) →
  steady w (store p y w).
Proof.
  intros Hx Hy q z Hz. rewrite (lookup_store p q x y w Hx).
  case_decide; simplify_eq; [by exists y|by exists z].
Qed.

Lemma steady_same_heap w w' : heap w' = heap w → steady w w'.
Proof. intros Hh p x Hx. exists x. by rewrite Hh. Qed.

Lemma steady_modify_running p b w : steady w (modify p (set_running b) w).
Proof.
  destruct (heap w !! p) as [x|] eqn:Hx.
  - rewrite (modify_lookup _ _ _ _ Hx). by apply (steady_store p x).
  - rewrite (modify_missing _ _ _ Hx). reflexivity.
Qed.

Lemma relayed_steady st v w w' : relayed st v w w' → steady w w'.
Proof.
  intros Rl p x Hx.
  destruct (internal_lookup _ _ _ _ (rl_internal _ _ _ _ Rl) Hx) as [x' Hx'].
  exists x'. split; [done|]. intros Hp.
  destruct (rl_pending _ _ _ _ Rl p x x' Hx Hx' Hp) as (_ & _ & _ & _ & F1 & F2).
  split; [|done].
  destruct (settled_or_pending x) as [Hs|?]; [|done].
  destruct (rl_settled _ _ _ _ Rl p x x' Hx Hx' Hs) as [Kp _].
  destruct (not_settled x' Hp). by eapply kept_settled.
Qed.

Lemma then_steady this a b w d w' :
  then_ this a b w = Some (d, w') → steady w w'.
Proof.
  destruct (heap w !! this) as [x|] eqn:Hx; [|unfold then_; by rewrite Hx].
  destruct (is_pending (_state x)) eqn:Hp.
  - rewrite (then_pending this a b w x Hx Hp). intros ?; simplify_eq.
    change (with_heap _ w)
      with (construct (attached_by a b)
              (store this (link1 x (length (heap w))) w)).2.
    etrans; [by apply (steady_store this x (link1 x (length (heap w))))|].
    intros p y Hy. exists y. split; [by apply lookup_construct_old|done].
  - rewrite (then_settled this a b w x Hx Hp). intros ?; simplify_eq.
    intros p y Hy. exists y. split; [|done].
    destruct (handler_for _ _) as [h|]; by apply lookup_app_l_Some.
Qed.

Lemma steps_steady os w w' : steps os w = Some w' → steady w w'.
Proof.
  intros Hs.
  destruct (steps_keeps steady (λ _, True) (λ _, True)) with (os := os)
    (w := w) (w' := w') as [H _]; try done.
  - intros n p st v wa wb _ Hst E.
    destruct (relay_sound n p st v wa wb Hst E) as [Rl _].
    by eapply relayed_steady.
  - intros n p st v wa wb _ Hst E.
    destruct (grab_relayed n p st v wa wb Hst E) as [Rl _].
    by eapply relayed_steady.
  - apply steady_modify_running.
  - intros q this x wa _ Hx Hp. unfold adopt. destruct (link _ _ _).
    by apply (steady_store q x).
  - intros c wa. by apply steady_same_heap.
  - intros wa p y Hy. exists y. split; [by apply lookup_construct_old|done].
  - apply then_steady.
  - intros t rest wa _. by apply steady_same_heap.
  - apply Forall_true. by intros [].
  - apply Forall_true. by intros [[??]|].
Qed.
End steady.

(** X13.  The promise of a [deferred()] of the test adapter settles
    when it is told to: whatever operations have been made since it was
    created, as long as it is pending [reject(reason)] rejects it with
    [reason] and [resolve(value)] with a value that is no promise and
    has no [then] to call fulfils it with [value].  A promise made by
    the constructor never comes to hold a handler. *)
Theorem deferred_settles w os w1 :
  steps os (deferred w).2 = Some w1 →
  state_of (deferred_promise (deferred w).1) w1 = Some pending →
  (∀ reason, ∃ w2, deferred_reject (deferred w).1 reason w1 = Some w2
     ∧ state_of (deferred_promise (deferred w).1) w2 = Some rejected
     ∧ result_of (deferred_promise (deferred w).1) w2 = Some reason)
  ∧ (∀ v, plain v = true →
       ∃ w2, deferred_resolve (deferred w).1 v w1 = Some w2
         ∧ state_of (deferred_promise (deferred w).1) w2 = Some fulfilled
         ∧ result_of (deferred_promise (deferred w).1) w2 = Some v).
Proof.
  change (deferred w).2 with (construct fresh w).2.
  change (deferred_promise (deferred w).1) with (length (heap w)).
  change (deferred_reject (deferred w).1) with (reject (length (heap w))).
  change (deferred_resolve (deferred w).1) with (resolve (length (heap w))).
  intros Hs Hp.
  destruct (steps_steady os _ w1 Hs (length (heap w)) fresh
              (lookup_construct fresh w)) as (x & Hx & Hf).
  rewrite (state_of_lookup _ _ _ Hx) in Hp.
  assert (is_pending (_state x) = true) as Hpx
    by (injection Hp as ->; done).
  destruct (Hf Hpx) as (_ & F1 & F2). simpl in F1, F2.
  assert (∀ st v, is_pending st = false →
            ∃ w2, _grab (pendings w1) (length (heap w)) st v w1 = Some w2
              ∧ state_of (length (heap w)) w2 = Some st
              ∧ result_of (length (heap w)) w2 = Some v) as Hg.
  { intros st v Hst.
    destruct (grab_by_case (pendings w1) (length (heap w)) st v w1 x Hx Hst)
      as (w2 & E & Hm); [done|].
    exists w2. split; [done|].
    assert (handler_for st x = None) as Hh by (destruct st; done).
    rewrite Hh in Hm. injection Hp as Hp. by rewrite Hp in Hm. }
  split.
  - intros reason. by apply Hg.
  - intros v Hv. unfold resolve. rewrite (unpack_plain _ _ _ _ _ Hv).
    by apply Hg.
Qed.

Lemma deferred_settles_witness :
  ∃ w1, steps [OThen 1 (AFn pass) (AFn recover); ONew; OResolve 2 (VPromise 1)]
          (deferred one_pending).2 = Some w1
    ∧ state_of (deferred_promise (deferred one_pending).1) w1 = Some pending
    ∧ (∀ reason,
         ∃ w2, deferred_reject (deferred one_pending).1 reason w1 = Some w2
           ∧ state_of (deferred_promise (deferred one_pending).1) w2
             = Some rejected
           ∧ result_of (deferred_promise (deferred one_pending).1) w2
             = Some reason)
    ∧ (∀ v, plain v = true →
         ∃ w2, deferred_resolve (deferred one_pending).1 v w1 = Some w2
           ∧ state_of (deferred_promise (deferred one_pending).1) w2
             = Some fulfilled
           ∧ result_of (deferred_promise (deferred one_pending).1) w2
             = Some v).
Proof.
  eexists. split; [vm_compute; reflexivity|]. split; [reflexivity|].
  apply (deferred_settles one_pending
           [OThen 1 (AFn pass) (AFn recover); ONew; OResolve 2 (VPromise 1)]);
    reflexivity.
Defined.


(** ** How often a handler is called *)

(** How often [d] stands in a list of promises. *)
Definition occurs (d : id) (l : list id) : nat :=
  length (filter (λ c, c = d) l).

(** One if [c] is [d]. *)
Definition bump (d c : id) : nat := if decide (c = d) then 1 else 0.

(** How often [d] is chained on [x], if [x] is pending: so often will
    [d._grab] be called when [x] is relayed. *)
Definition weight (d : id) (x : Promise) : nat :=
  if is_pending (_state x)
  then occurs d (slots (_chainedPromise x) (_chainedPromises x))
  else 0.

Definition waiting (d : id) (w : world) : nat :=
  sum_list_with (weight d) (heap w).

(** The calls of a handler of [d] made so far or queued. *)
Definition calls (d : id) (w : world) : nat :=
  length (filter (λ t, target t = d) (log w ++ queue w)).

(** The calls of a handler of [d] made, queued or still to be queued. *)
Definition due (d : id) (w : world) : nat := waiting d w + calls d w.

(** No more are due, and no promise is added. *)
Definition calm (d : id) (w w' : world) : Prop :=
  due d w' ≤ due d w ∧ length (heap w') = length (heap w).

(** At most one call is due for [d], and none before [d] is there. *)
Definition once (d : id) (w : world) : Prop :=
  due d w ≤ (if decide (d < length (heap w)) then 1 else 0).

Section once.
Context (d : id).
Implicit Types (w : world) (p q c this : id) (x y : Promise) (t : task).

Global Instance calm_preorder : PreOrder (calm d).
Proof.
  split; [by split|]. intros w1 w2 w3 [H1 L1] [H2 L2]. split; [lia|congruence].
Qed.

Lemma calm_once w w' : calm d w w' → once d w → once d w'.
Proof. unfold once. intros [H L]. rewrite L. lia. Qed.

Lemma occurs_cons c (l : list id) : occurs d (c :: l) = bump d c + occurs d l.
Proof.
  unfold occurs, bump. rewrite filter_cons. by case_decide.
Qed.

Lemma occurs_app (l1 l2 : list id) :
  occurs d (l1 ++ l2) = occurs d l1 + occurs d l2.
Proof. unfold occurs. by rewrite filter_app, length_app. Qed.

Lemma sum_insert (f : Promise → nat) (l : list Promise) p x y :
  l !! p = Some x →
  sum_list_with f (<[p := y]> l) + f x = sum_list_with f l + f y.
Proof.
  revert p. induction l as [|a l IH]; intros [|p] Hx; simplify_eq/=.
  - lia.
  - specialize (IH p Hx). lia.
Qed.

Lemma waiting_store p x y w :
  heap w !! p = Some x →
  waiting d (store p y w) + weight d x = waiting d w + weight d y.
Proof. intros Hx. unfold waiting. rewrite heap_store. by apply sum_insert. Qed.

Lemma due_store p x y w :
  heap w !! p = Some x →
  due d (store p y w) + weight d x = due d w + weight d y.
Proof.
  intros Hx. pose proof (waiting_store p x y w Hx). unfold due.
  change (calls d (store p y w)) with (calls d w). lia.
Qed.

Lemma calm_store p x y w :
  heap w !! p = Some x → weight d y ≤ weight d x → calm d w (store p y w).
Proof.
  intros Hx Hw. pose proof (due_store p x y w Hx).
  split; [lia|apply length_store].
Qed.

Lemma calm_same w w' :
  heap w' = heap w → log w' ++ queue w' = log w ++ queue w → calm d w w'.
Proof.
  intros Hh Hq. unfold calm, due, waiting, calls. rewrite Hh, Hq. done.
Qed.

Lemma calm_modify_running p b w : calm d w (modify p (set_running b) w).
Proof.
  destruct (heap w !! p) as [x|] eqn:Hx.
  - rewrite (modify_lookup _ _ _ _ Hx). by apply (calm_store p x).
  - rewrite (modify_missing _ _ _ Hx). reflexivity.
Qed.

Lemma due_enqueue t w :
  due d (with_queue (queue w ++ [t]) w) = due d w + bump d (target t).
Proof.
  unfold due, calls, waiting, bump. simpl.
  rewrite app_assoc, filter_app, length_app, filter_cons, filter_nil.
  case_decide; simpl; lia.
Qed.

Lemma run_due c h a w :
  due d (_run c h a w) ≤ due d w + bump d c
  ∧ length (heap (_run c h a w)) = length (heap w).
Proof.
  unfold _run. rewrite due_enqueue. simpl.
  destruct (calm_modify_running c true w) as [H L]. split; [lia|done].
Qed.

Lemma grab_due (relay : id → State → value → world → option world)
    c st v w w' :
  (∀ w w', relay c st v w = Some w' → calm d w w') →
  grab_with relay c st v w = Some w' →
  due d w' ≤ due d w + bump d c ∧ length (heap w') = length (heap w).
Proof.
  intros Hrelay. unfold grab_with.
  destruct (heap w !! c) as [x|];
    [|intros ?; simplify_eq; split; [lia|done]].
  destruct (is_pending (_state x));
    [|intros ?; simplify_eq; split; [lia|done]].
  destruct (handler_for st x) as [h|].
  - intros ?; simplify_eq. apply run_due.
  - intros E. destruct (Hrelay w w' E) as [H L]. split; [lia|done].
Qed.

Lemma each_due (f : id → world → option world) (l : list id) :
  (∀ c wa wb, f c wa = Some wb →
     due d wb ≤ due d wa + bump d c ∧ length (heap wb) = length (heap wa)) →
  ∀ w w', each f l w = Some w' →
    due d w' ≤ due d w + occurs d l ∧ length (heap w') = length (heap w).
Proof.
  intros Hf. induction l as [|c l IH]; intros w w' E.
  - simpl in E. simplify_eq. split; [lia|done].
  - rewrite each_cons in E.
    destruct (f c w) as [w1|] eqn:E1; [|done]. simpl in E.
    destruct (Hf c w w1 E1) as [H1 L1]. destruct (IH w1 w' E) as [H2 L2].
    rewrite occurs_cons. split; [lia|congruence].
Qed.

Lemma relay_calm n : ∀ this st v w w',
  is_pending st = false → _relay n this st v w = Some w' → calm d w w'.
Proof.
  induction n as [|n IH]; intros this st v w w' Hst; simpl;
    destruct (heap w !! this) as [x|] eqn:Hx;
    try (intros ?; simplify_eq; reflexivity);
    destruct (is_pending (_state x)) eqn:Hp;
    try (intros ?; simplify_eq; reflexivity); try discriminate.
  set (x1 := set_state st v x). set (w1 := store this x1 w).
  assert (heap w1 !! this = Some x1) as Hx1 by by eapply lookup_store_eq.
  assert (successors this w1 = slots (_chainedPromise x) (_chainedPromises x))
    as -> by (unfold successors; by rewrite Hx1).
  destruct (each _ _ w1) as [w2|] eqn:E2; [simpl|discriminate].
  destruct (each _ _ w2) as [w3|] eqn:E3; [simpl|discriminate].
  intros ?; simplify_eq.
  assert (relayed st v w1 w2) as R12.
  { eapply (each_sound (relayed st v)); [|exact E2].
    intros c wa wb Hc. by destruct (grab_relayed n c st v wa wb Hst Hc). }
  assert (relayed st v w1 w3) as R13.
  { etrans; [exact R12|]. eapply (each_sound (relayed st v)); [|exact E3].
    intros c wa wb Hc. by destruct (relay_sound n c st v wa wb Hst Hc). }
  (* the state is set: what was chained on [this] no longer waits *)
  assert (due d w1 + occurs d (slots (_chainedPromise x) (_chainedPromises x))
          = due d w ∧ length (heap w1) = length (heap w)) as [D01 L01].
  { pose proof (due_store this x x1 w Hx) as H. unfold weight in H.
    rewrite Hp in H. unfold x1 in H. simpl in H. rewrite Hst in H.
    split; [fold x1 w1 in H; lia|apply length_store]. }
  (* each promise chained is served: a call queued, or a relay *)
  assert (due d w2
          ≤ due d w1 + occurs d (slots (_chainedPromise x) (_chainedPromises x))
          ∧ length (heap w2) = length (heap w1)) as [D12 L12].
  { eapply each_due; [|exact E2].
    intros c wa wb. apply grab_due. intros wc wd. by apply IH. }
  assert (calm d w2 w3) as [D23 L23].
  { eapply (each_sound (calm d)); [|exact E3].
    intros c wa wb. by apply IH. }
  assert (calm d w3 (modify this release w3)) as [D34 L34].
  { destruct (heap w3 !! this) as [x3|] eqn:Hx3.
    - rewrite (modify_lookup _ _ _ _ Hx3).
      apply (calm_store this x3); [done|].
      destruct (rl_settled _ _ _ _ R13 this x1 x3 Hx1 Hx3 Hst) as [[Ks _] _].
      unfold weight. simpl. rewrite Ks. unfold x1. simpl. by rewrite Hst.
    - rewrite (modify_missing _ _ _ Hx3). reflexivity. }
  split; [lia|congruence].
Qed.

Lemma grab_calm n p st v w w' :
  p ≠ d → is_pending st = false → _grab n p st v w = Some w' → calm d w w'.
Proof.
  intros Hne Hst E.
  destruct (grab_due (_relay n) p st v w w') as [H L]; [|done|].
  - intros wa wb. by apply relay_calm.
  - unfold bump in H. rewrite decide_False in H by done. split; [lia|done].
Qed.

Lemma adopt_calm q this x w :
  heap w !! q = Some x → calm d w (adopt q this x w).
Proof.
  intros Hx. unfold adopt. destruct (link _ _ _) as [one many].
  by apply (calm_store q x).
Qed.

Lemma begin_calm t rest w :
  queue w = t :: rest → calm d w (begin_task t rest w).
Proof.
  intros Hq. apply calm_same; [done|]. simpl. rewrite Hq.
  by rewrite <- app_assoc.
Qed.

Lemma waiting_construct x w :
  waiting d (construct x w).2 = waiting d w + weight d x.
Proof.
  unfold waiting. simpl. rewrite sum_list_with_app. simpl. lia.
Qed.

Lemma once_construct x w :
  weight d x = 0 → once d w → once d (construct x w).2.
Proof.
  unfold once, due. intros Hx H. rewrite waiting_construct, Hx.
  change (calls d (construct x w).2) with (calls d w).
  simpl. rewrite length_app. simpl.
  repeat case_decide; lia.
Qed.

(** The promise [then] returns was not there, so that no call was due
    for it; one is, once it is chained or served. *)
Lemma then_once this a b w n w' :
  then_ this a b w = Some (n, w') → once d w → once d w'.
Proof.
  destruct (heap w !! this) as [x|] eqn:Hx; [|unfold then_; by rewrite Hx].
  destruct (is_pending (_state x)) eqn:Hp.
  - rewrite (then_pending this a b w x Hx Hp). intros ?; simplify_eq.
    change (with_heap _ w)
      with (construct (attached_by a b)
              (store this (link1 x (length (heap w))) w)).2.
    intros H. unfold once, due in *. rewrite waiting_construct.
    change (calls d (construct _ _).2) with (calls d w).
    assert (length (heap (construct (attached_by a b)
                            (store this (link1 x (length (heap w))) w)).2)
            = S (length (heap w))) as ->.
    { simpl. rewrite length_app, length_insert. simpl. lia. }
    pose proof (waiting_store this x (link1 x (length (heap w))) w Hx) as Hw.
    assert (weight d (link1 x (length (heap w)))
            = weight d x + bump d (length (heap w))) as Hl.
    { unfold weight. rewrite link1_state, Hp. unfold link1. simpl.
      rewrite slots_link, occurs_app. simpl.
      rewrite occurs_cons. unfold occurs. simpl. lia. }
    change (weight d (attached_by a b)) with 0.
    unfold bump in Hl. repeat case_decide; lia.
  - rewrite (then_settled this a b w x Hx Hp). intros ?; simplify_eq.
    destruct (handler_for _ _) as [h|].
    + intros H.
      set (w0 := (construct (set_running true (attached_by a b)) w).2).
      change (queue w) with (queue w0). unfold once in *.
      rewrite due_enqueue.
      assert (due d w0 = due d w) as ->.
      { unfold due, w0. rewrite waiting_construct.
        change (calls d (construct _ w).2) with (calls d w).
        change (weight d (set_running true (attached_by a b))) with 0. lia. }
      assert (length (heap (with_queue
                (queue w0 ++ [TRun (length (heap w)) h (_valueOrReason x)]) w0))
              = S (length (heap w))) as ->.
      { simpl. rewrite length_app. simpl. lia. }
      unfold bump. simpl. repeat case_decide; lia.
    + apply once_construct. unfold weight. simpl. by rewrite Hp.
Qed.

Lemma steps_once os w w' :
  once d w → cells_hold (λ _, True) (λ k, k ≠ KGrab d) w →
  Forall (leaves d) os → steps os w = Some w' → once d w'.
Proof.
  intros Ho Hc Hos Hs.
  destruct (steps_keeps (keeps (once d)) (λ _, True) (λ k, k ≠ KGrab d))
    with (os := os) (w := w) (w' := w') as [H _]; try done.
  - intros n p st v wa wb _ Hst E Ha.
    apply (calm_once wa wb); [by eapply relay_calm|done].
  - intros n p st v wa wb Hk Hst E Ha.
    apply (calm_once wa wb); [|done].
    eapply grab_calm; [|exact Hst|exact E]. congruence.
  - intros p b wa Ha.
    by apply (calm_once wa _ (calm_modify_running p b wa)).
  - intros q this x wa _ Hx _ Ha.
    by apply (calm_once wa _ (adopt_calm q this x wa Hx)).
  - intros c wa Ha. apply (calm_once wa); [by apply calm_same|done].
  - intros wa Ha. by apply once_construct.
  - intros p a b wa n wb E Ha. by apply (then_once p a b wa n wb E).
  - intros t rest wa Hq Ha.
    by apply (calm_once wa _ (begin_calm t rest wa Hq)).
  - eapply Forall_impl; [exact Hos|]. intros [|p a b|p v|p r| |c v|c r]; simpl;
      try done; intros ?; (split; [done|congruence]).
  - by apply H.
Qed.
End once.

(** X14.  A handler is called at most once.  In every run of operations
    from the start that does not call [resolve] or [reject] on the
    promise [d] itself, at most one call of a handler of [d] is ever
    made or queued: of the two handlers given to the [then] that
    returned [d] at most one is called, and it is called at most once,
    also when promises adopt each other and when foreign objects call
    their callbacks more than once. *)
Theorem handler_called_at_most_once os w d :
  steps os empty = Some w → Forall (leaves d) os →
  length (filter (λ t, target t = d) (log w ++ queue w)) ≤ 1.
Proof.
  intros Hs Hos.
  assert (once d w) as Ho.
  { refine (steps_once d os empty w _ _ Hos Hs).
    - unfold once.
      destruct (decide (d < length (heap empty)));
        unfold due, waiting, calls; simpl; lia.
    - apply Forall_nil_2. }
  unfold once, due in Ho. fold (calls d w).
  revert Ho. case_decide; lia.
Qed.

Lemma handler_called_at_most_once_witness :
  ∃ w, steps [ONew; OThen 0 (AFn pass) (AFn recover); OResolve 0 (VNum 5);
              OReject 0 (VNum 6); OTick; OTick] empty = Some w
    ∧ Forall (leaves 1)
        [ONew; OThen 0 (AFn pass) (AFn recover); OResolve 0 (VNum 5);
         OReject 0 (VNum 6); OTick; OTick]
    ∧ log w = [TRun 1 pass (VNum 5)]
    ∧ length (filter (λ t, target t = 1) (log w ++ queue w)) ≤ 1.
Proof.
  eexists. split; [vm_compute; reflexivity|].
  assert (Forall (leaves 1)
            [ONew; OThen 0 (AFn pass) (AFn recover); OResolve 0 (VNum 5);
             OReject 0 (VNum 6); OTick; OTick]) as Hos.
  { repeat constructor; simpl; lia. }
  split; [exact Hos|]. split; [reflexivity|].
  exact (handler_called_at_most_once
           [ONew; OThen 0 (AFn pass) (AFn recover); OResolve 0 (VNum 5);
            OReject 0 (VNum 6); OTick; OTick] _ 1 eq_refl Hos).
Defined.


(** ** Which handlers a relay calls *)

(** A call, with [v], of the handler that the pending promise it is
    for holds for the state [st]. *)
Definition matching (st : State) (v : value) (w : world) (t : task) : Prop :=
  ∃ c h x, t = TRun c h v ∧ heap w !! c = Some x
    ∧ is_pending (_state x) = true ∧ handler_for st x = Some h.

(** A relay of [st] and [v] that queues such calls only. *)
Definition feeds (st : State) (v : value) (w w' : world) : Prop :=
  relayed st v w w'
  ∧ ∃ extra, queue w' = queue w ++ extra ∧ Forall (matching st v w) extra.

Section feeds.
Implicit Types (w : world) (p q c this : id) (x y : Promise) (t : task).

Lemma matching_back st v w w' t :
  relayed st v w w' → matching st v w' t → matching st v w t.
Proof.
  intros Rl (c & h & x' & -> & Hx' & Hp & Hh).
  destruct (internal_lookup_back _ _ _ _ (rl_internal _ _ _ _ Rl) Hx')
    as [x Hx].
  pose proof (rl_pending _ _ _ _ Rl c x x' Hx Hx' Hp) as L.
  exists c, h, x. split; [done|]. split; [done|]. split.
  - destruct (settled_or_pending x) as [Hs|?]; [|done].
    destruct (rl_settled _ _ _ _ Rl c x x' Hx Hx' Hs) as [Kp _].
    destruct (not_settled x' Hp). by eapply kept_settled.
  - by rewrite <- (same_links_handler st x x' L).
Qed.

Global Instance feeds_preorder st v : PreOrder (feeds st v).
Proof.
  split.
  - intros w. split; [reflexivity|]. exists []. by rewrite app_nil_r.
  - intros w1 w2 w3 [R12 (e1 & Q1 & F1)] [R23 (e2 & Q2 & F2)].
    split; [by etrans|]. exists (e1 ++ e2).
    split; [by rewrite Q2, Q1, app_assoc|].
    apply Forall_app. split; [done|].
    eapply Forall_impl; [exact F2|]. intros t. by apply matching_back.
Qed.

Lemma grab_feeds (relay : id → State → value → world → option world)
    this st v w w' :
  (∀ w w', relay this st v w = Some w' → feeds st v w w') →
  grab_with relay this st v w = Some w' → feeds st v w w'.
Proof.
  intros Hrelay. unfold grab_with.
  destruct (heap w !! this) as [x|] eqn:Hx;
    [|intros ?; simplify_eq; reflexivity].
  destruct (is_pending (_state x)) eqn:Hp;
    [|intros ?; simplify_eq; reflexivity].
  destruct (handler_for st x) as [h|] eqn:Hh; [|apply Hrelay].
  intros ?; simplify_eq. split; [apply run_relayed|].
  exists [TRun this h v]. split; [apply queue_run|].
  apply Forall_singleton. by exists this, h, x.
Qed.

Lemma relay_feeds n : ∀ this st v w w',
  is_pending st = false → _relay n this st v w = Some w' → feeds st v w w'.
Proof.
  induction n as [|n IH]; intros this st v w w' Hst E.
  { split; [by destruct (relay_sound 0 this st v w w' Hst E)|].
    simpl in E. destruct (heap w !! this) as [x|]; [|simplify_eq].
    - destruct (is_pending (_state x)); simplify_eq.
      exists []. by rewrite app_nil_r.
    - exists []. by rewrite app_nil_r. }
  split; [by destruct (relay_sound (S n) this st v w w' Hst E)|].
  rewrite relay_S in E.
  destruct (heap w !! this) as [x|] eqn:Hx;
    [|simplify_eq; exists []; by rewrite app_nil_r].
  destruct (is_pending (_state x)) eqn:Hp;
    [|simplify_eq; exists []; by rewrite app_nil_r].
  set (x1 := set_state st v x) in *. set (w1 := store this x1 w) in *.
  assert (heap w1 !! this = Some x1) as Hx1 by by eapply lookup_store_eq.
  destruct (each _ _ w1) as [w2|] eqn:E2; [simpl in E|discriminate].
  destruct (each _ _ w2) as [w3|] eqn:E3; [simpl in E|discriminate].
  injection E as <-.
  assert (feeds st v w1 w2) as F12.
  { eapply (each_sound (feeds st v)); [|exact E2].
    intros c wa wb. apply grab_feeds. intros wc wd. by apply IH. }
  assert (feeds st v w2 w3) as F23.
  { eapply (each_sound (feeds st v)); [|exact E3].
    intros c wa wb. by apply IH. }
  destruct (transitivity F12 F23) as [_ (extra & Q & F)].
  exists extra. split.
  - unfold modify. by destruct (heap w3 !! this).
  - eapply Forall_impl; [exact F|].
    intros t (c & h & y & -> & Hy & Hpy & Hh).
    exists c, h, y. split; [done|]. split; [|done].
    unfold w1 in Hy. rewrite (lookup_store this c x x1 w Hx) in Hy.
    case_decide; [|done]. injection Hy as <-. unfold x1 in Hpy.
    simpl in Hpy. congruence.
Qed.
End feeds.

(** X15.  When [_relay] settles a promise with a state and a result,
    every handler call that follows from it, through the promises
    chained and the promises that adopted, however deep, is a call of
    the handler for that state, [onfulfilled] after [Fulfilled] and
    [onrejected] after [Rejected], of a promise that was pending, with
    that result as its argument; and each is queued, none is made. *)
Theorem relay_calls_matching_handlers n p st v w w' :
  is_pending st = false → _relay n p st v w = Some w' →
  log w' = log w
  ∧ ∃ extra, queue w' = queue w ++ extra ∧ Forall (matching st v w) extra.
Proof.
  intros Hst E. destruct (relay_feeds n p st v w w' Hst E) as [Rl F].
  split; [apply Rl|exact F].
Qed.

Lemma relay_calls_matching_handlers_witness :
  is_pending rejected = false
  ∧ ∃ w', _relay 3 0 rejected (VNum 1)
            (World [set_chained None (Some [1; 2]) fresh;
                    attached_by (AFn pass) (AFn recover);
                    attached_by (AFn pass) (AVal VNull)] [] [] []) = Some w'
    ∧ queue w' = [TRun 1 recover (VNum 1)]
    ∧ log w' = []
    ∧ ∃ extra, queue w' = [] ++ extra
        ∧ Forall (matching rejected (VNum 1)
                    (World [set_chained None (Some [1; 2]) fresh;
                            attached_by (AFn pass) (AFn recover);
                            attached_by (AFn pass) (AVal VNull)] [] [] []))
            extra.
Proof.
  split; [reflexivity|]. eexists. split; [vm_compute; reflexivity|].
  split; [reflexivity|].
  exact (relay_calls_matching_handlers 3 0 rejected (VNum 1)
           (World [set_chained None (Some [1; 2]) fresh;
                   attached_by (AFn pass) (AFn recover);
                   attached_by (AFn pass) (AVal VNull)] [] [] [])
           _ eq_refl eq_refl).
Defined.

(** ** Callbacks called after [then] has returned *)

(** X16.  Once one of the two callbacks handed to a foreign [then] has
    been called and has returned, the pair is spent: every later call
    of either of the two changes nothing, whatever it is called
    with. *)
Theorem callback_pair_spent c w :
  (∀ v, ∃ w1, call_resolve c v w = Some w1
     ∧ (∀ v', call_resolve c v' w1 = Some w1)
     ∧ (∀ r', call_reject c r' w1 = Some w1))
  ∧ (∀ r, ∃ w1, call_reject c r w = Some w1
       ∧ (∀ v', call_resolve c v' w1 = Some w1)
       ∧ (∀ r', call_reject c r' w1 = Some w1)).
Proof.
  assert (∀ w1, cells w1 !! c = Some None ∨ cells w1 !! c = None →
            (∀ v', call_resolve c v' w1 = Some w1)
            ∧ (∀ r', call_reject c r' w1 = Some w1)) as Hspent.
  { intros w1 Hc. unfold call_resolve, call_reject, resolve_cb, reject_cb.
    split; intros ?; by destruct Hc as [-> | ->]. }
  destruct (decide (c < length (cells w))) as [Hlt|Hge].
  - split.
    + intros v.
      destruct (resolve_cb_spends (pendings w) v c w Hlt) as (w1 & E & Hs);
        [done|].
      exists w1. split; [exact E|]. apply Hspent. by left.
    + intros r.
      destruct (reject_cb_spends (pendings w) c r w Hlt) as (w1 & E & Hs);
        [done|].
      exists w1. split; [exact E|]. apply Hspent. by left.
  - assert (cells w !! c = None) as Hn by (apply lookup_ge_None; lia).
    split; intros ?; exists w; (split; [|apply Hspent; by right]).
    + unfold call_resolve, resolve_cb. by rewrite Hn.
    + unfold call_reject, reject_cb. by rewrite Hn.
Qed.


(** ** A promise whose handler call is queued *)

(** The calls of a handler of [d] that are queued, and those made. *)
Definition queued (d : id) (w : world) : nat :=
  length (filter (λ t, target t = d) (queue w)).

Definition logged (d : id) (w : world) : nat :=
  length (filter (λ t, target t = d) (log w)).

(** One if the promise is settled. *)
Definition spent (x : Promise) : nat :=
  if is_pending (_state x) then 0 else 1.

Definition spent_at (d : id) (w : world) : nat :=
  from_option spent 0 (heap w !! d).

(** What stands for the one settlement of [d]: a place in the chain of
    a pending promise, a queued call, or the settlement itself. *)
Definition stake (d : id) (w : world) : nat :=
  waiting d w + queued d w + spent_at d w.

(** The promises [x] holds as having adopted it: those [_relay] goes
    through. *)
Definition adopting (x : Promise) : list id :=
  slots (_handledPromise x) (_handledPromises x).

(** No pending promise holds [d] as having adopted it. *)
Definition unadopted (d : id) (w : world) : Prop :=
  ∀ p x, heap w !! p = Some x → is_pending (_state x) = true →
    d ∉ adopting x.

(** Nothing has been delivered to [d] but through the chain it is in:
    no promise was adopted by it, and of a place in a chain, a queued
    call and a settlement it has at most one, none before it is
    there. *)
Definition untouched (d : id) (w : world) : Prop :=
  unadopted d w
  ∧ stake d w ≤ (if decide (d < length (heap w)) then 1 else 0).

(** A call of a handler of [d] has been made, or [d] is untouched and
    no callback handed to foreign code is for it. *)
Definition poised (d : id) (w : world) : Prop :=
  1 ≤ logged d w
  ∨ (cells_hold (λ p, p ≠ d) (λ k, ktarget k ≠ d) w ∧ untouched d w).

Section poised.
Context (d : id).
Implicit Types (w : world) (p q c this : id) (x y : Promise) (t : task).

Lemma occurs_absent (l : list id) : d ∉ l → occurs d l = 0.
Proof.
  induction l as [|c l IH]; [done|]. intros Hn. rewrite occurs_cons.
  apply not_elem_of_cons in Hn as [Hne Hn]. rewrite (IH Hn).
  unfold bump. by rewrite decide_False.
Qed.

Lemma slots_adopting x c :
  c ∈ slots (_handledPromise x) (_handledPromises x) → c ∈ adopting x.
Proof. done. Qed.

Lemma spent_store p x y w :
  heap w !! p = Some x →
  spent_at d (store p y w) + (if decide (p = d) then spent x else 0)
  = spent_at d w + (if decide (p = d) then spent y else 0).
Proof.
  intros Hx. unfold spent_at. rewrite (lookup_store p d x y w Hx).
  case_decide; [subst; rewrite Hx; simpl; lia|lia].
Qed.

Lemma stake_store p x y w :
  heap w !! p = Some x →
  stake d (store p y w) + weight d x + (if decide (p = d) then spent x else 0)
  = stake d w + weight d y + (if decide (p = d) then spent y else 0).
Proof.
  intros Hx. pose proof (waiting_store d p x y w Hx).
  pose proof (spent_store p x y w Hx). unfold stake.
  change (queued d (store p y w)) with (queued d w). lia.
Qed.

(** Replacing a promise by one in the same state, with no more chained
    on it. *)
Lemma stake_store_same p x y w :
  heap w !! p = Some x → _state y = _state x → weight d y ≤ weight d x →
  stake d (store p y w) ≤ stake d w.
Proof.
  intros Hx Hs Hw. pose proof (stake_store p x y w Hx) as H.
  unfold spent in H. rewrite Hs in H. lia.
Qed.

Lemma unadopted_store p y w :
  (is_pending (_state y) = true → d ∉ adopting y) →
  unadopted d w → unadopted d (store p y w).
Proof.
  intros Hy Hu q z Hz Hpz. destruct (decide (p = q)) as [<-|Hne].
  - assert (is_Some (heap w !! p)) as [x Hx].
    { apply lookup_lt_is_Some. rewrite <- (length_store p y w).
      by eapply lookup_lt_Some. }
    rewrite (lookup_store_eq p x y w Hx) in Hz. simplify_eq. by apply Hy.
  - rewrite lookup_store_ne in Hz by done. by eapply Hu.
Qed.

Lemma stake_modify_running p b w :
  stake d (modify p (set_running b) w) ≤ stake d w
  ∧ (unadopted d w → unadopted d (modify p (set_running b) w)).
Proof.
  destruct (heap w !! p) as [x|] eqn:Hx.
  - rewrite (modify_lookup _ _ _ _ Hx). split.
    + by apply (stake_store_same p x).
    + intros Hu. apply unadopted_store; [|done]. by apply (Hu p x).
  - by rewrite (modify_missing _ _ _ Hx).
Qed.

Lemma stake_enqueue t w :
  stake d (with_queue (queue w ++ [t]) w) = stake d w + bump d (target t).
Proof.
  unfold stake, queued, bump. simpl.
  rewrite filter_app, length_app, filter_cons, filter_nil.
  change (waiting d (with_queue _ w)) with (waiting d w).
  change (spent_at d (with_queue _ w)) with (spent_at d w).
  case_decide; simpl; lia.
Qed.

Lemma run_stake c h a w :
  stake d (_run c h a w) ≤ stake d w + bump d c
  ∧ (unadopted d w → unadopted d (_run c h a w)).
Proof.
  unfold _run. rewrite stake_enqueue. simpl.
  destruct (stake_modify_running c true w) as [H U]. split; [lia|exact U].
Qed.

Lemma each_count (M : world → nat) (P : world → Prop)
    (f : id → world → option world) (l : list id) :
  (∀ c wa wb, P wa → f c wa = Some wb → M wb ≤ M wa + bump d c ∧ P wb) →
  ∀ w w', P w → each f l w = Some w' → M w' ≤ M w + occurs d l ∧ P w'.
Proof.
  intros Hf. induction l as [|c l IH]; intros w w' HP E.
  - simpl in E. simplify_eq. split; [lia|done].
  - rewrite each_cons in E.
    destruct (f c w) as [w1|] eqn:E1; [|done]. simpl in E.
    destruct (Hf c w w1 HP E1) as [H1 P1].
    destruct (IH w1 w' P1 E) as [H2 P2].
    rewrite occurs_cons. split; [lia|done].
Qed.

Lemma grab_stake (relay : id → State → value → world → option world)
    c st v w w' :
  (∀ w w', unadopted d w → relay c st v w = Some w' →
     stake d w' ≤ stake d w + bump d c ∧ unadopted d w') →
  unadopted d w → grab_with relay c st v w = Some w' →
  stake d w' ≤ stake d w + bump d c ∧ unadopted d w'.
Proof.
  intros Hrelay Hu. unfold grab_with.
  destruct (heap w !! c) as [x|];
    [|intros ?; simplify_eq; split; [lia|done]].
  destruct (is_pending (_state x));
    [|intros ?; simplify_eq; split; [lia|done]].
  destruct (handler_for st x) as [h|].
  - intros ?; simplify_eq. destruct (run_stake c h v w) as [H U]. auto.
  - by apply Hrelay.
Qed.

(** A relay settles [d] only where [d] is the promise relayed to or is
    in the chain of one that is settled on the way: its stake is moved,
    it does not grow. *)
Lemma relay_stake n : ∀ this st v w w',
  is_pending st = false → unadopted d w →
  _relay n this st v w = Some w' →
  stake d w' ≤ stake d w + bump d this ∧ unadopted d w'.
Proof.
  induction n as [|n IH]; intros this st v w w' Hst Hu; simpl;
    destruct (heap w !! this) as [x|] eqn:Hx;
    try (intros ?; simplify_eq; split; [lia|done]);
    destruct (is_pending (_state x)) eqn:Hp;
    try (intros ?; simplify_eq; split; [lia|done]); try discriminate.
  set (x1 := set_state st v x). set (w1 := store this x1 w).
  assert (heap w1 !! this = Some x1) as Hx1 by by eapply lookup_store_eq.
  assert (successors this w1 = slots (_chainedPromise x) (_chainedPromises x))
    as -> by (unfold successors; by rewrite Hx1).
  destruct (each _ _ w1) as [w2|] eqn:E2; [simpl|discriminate].
  destruct (each _ _ w2) as [w3|] eqn:E3; [simpl|discriminate].
  intros E. injection E as <-.
  assert (relayed st v w1 w2) as R12.
  { eapply (each_sound (relayed st v)); [|exact E2].
    intros c wa wb Hc. by destruct (grab_relayed n c st v wa wb Hst Hc). }
  assert (relayed st v w1 w3) as R13.
  { etrans; [exact R12|]. eapply (each_sound (relayed st v)); [|exact E3].
    intros c wa wb Hc. by destruct (relay_sound n c st v wa wb Hst Hc). }
  (* the state is set *)
  assert (stake d w1 + occurs d (slots (_chainedPromise x) (_chainedPromises x))
          = stake d w + bump d this) as D01.
  { pose proof (stake_store this x x1 w Hx) as H. unfold weight, spent in H.
    rewrite Hp in H. unfold x1 in H. simpl in H. rewrite Hst in H.
    fold x1 w1 in H. unfold bump. case_decide; lia. }
  assert (unadopted d w1) as U1.
  { apply unadopted_store; [|done]. intros _. by apply (Hu this x). }
  (* the promises chained are served *)
  destruct (each_count (stake d) (unadopted d) _ _
              (λ c wa wb Ha, grab_stake (_relay n) c st v wa wb
                               (λ wc wd, IH c st v wc wd Hst) Ha)
              w1 w2 U1 E2) as [D12 U2].
  (* the promises that adopted are relayed to: [d] is none of them *)
  destruct (each_count (stake d) (unadopted d) _ _
              (λ c wa wb Ha, IH c st v wa wb Hst Ha) w2 w3 U2 E3)
    as [D23 U3].
  assert (occurs d (adopters this w2) = 0) as A2.
  { apply occurs_absent. unfold adopters.
    destruct (heap w2 !! this) as [x2|] eqn:Hx2; [|apply not_elem_of_nil].
    destruct (rl_settled _ _ _ _ R12 this x1 x2 Hx1 Hx2 Hst)
      as [_ (_ & _ & L3 & L4 & _)].
    rewrite L3, L4. intros Hin.
    by apply (Hu this x Hx Hp), slots_adopting. }
  (* the clean-up *)
  assert (stake d (modify this release w3) ≤ stake d w3
          ∧ unadopted d (modify this release w3)) as [D34 U4].
  { destruct (heap w3 !! this) as [x3|] eqn:Hx3.
    - rewrite (modify_lookup _ _ _ _ Hx3). split.
      + apply (stake_store_same this x3); [done|done|].
        destruct (rl_settled _ _ _ _ R13 this x1 x3 Hx1 Hx3 Hst) as [[Ks _] _].
        unfold weight. simpl. rewrite Ks. unfold x1. simpl. by rewrite Hst.
      + apply unadopted_store; [|done]. intros Hp3. exfalso.
        destruct (rl_settled _ _ _ _ R13 this x1 x3 Hx1 Hx3 Hst) as [[Ks _] _].
        simpl in Hp3. rewrite Ks in Hp3. unfold x1 in Hp3. simpl in Hp3.
        congruence.
    - by rewrite (modify_missing _ _ _ Hx3). }
  split; [lia|done].
Qed.

Lemma untouched_calm w w' :
  stake d w' ≤ stake d w → length (heap w') = length (heap w) →
  unadopted d w' → untouched d w → untouched d w'.
Proof. intros H L U [_ B]. split; [done|]. rewrite L. lia. Qed.

Lemma relay_untouched n p st v w w' :
  p ≠ d → is_pending st = false → _relay n p st v w = Some w' →
  untouched d w → untouched d w'.
Proof.
  intros Hne Hst E Hu.
  destruct (relay_stake n p st v w w' Hst (proj1 Hu) E) as [H U].
  destruct (relay_sound n p st v w w' Hst E) as [Rl _].
  unfold bump in H. rewrite decide_False in H by done.
  apply (untouched_calm w); [lia|apply Rl|done|done].
Qed.

Lemma grab_untouched n p st v w w' :
  p ≠ d → is_pending st = false → _grab n p st v w = Some w' →
  untouched d w → untouched d w'.
Proof.
  intros Hne Hst E Hu.
  destruct (grab_stake (_relay n) p st v w w') as [H U];
    [|exact (proj1 Hu)|exact E|].
  { intros wa wb Ha. by apply relay_stake. }
  destruct (grab_relayed n p st v w w' Hst E) as [Rl _].
  unfold bump in H. rewrite decide_False in H by done.
  apply (untouched_calm w); [lia|apply Rl|done|done].
Qed.

Lemma running_untouched p b w :
  untouched d w → untouched d (modify p (set_running b) w).
Proof.
  intros Hu. destruct (stake_modify_running p b w) as [H U].
  apply (untouched_calm w); [done| |by apply U, Hu|done].
  unfold modify. destruct (heap w !! p); [apply length_store|done].
Qed.

Lemma adopt_untouched q this x w :
  this ≠ d → heap w !! q = Some x → is_pending (_state x) = true →
  untouched d w → untouched d (adopt q this x w).
Proof.
  intros Hne Hx Hp Hu. unfold adopt.
  destruct (link this _ _) as [one many] eqn:El.
  apply (untouched_calm w); [|apply length_store| |done].
  - by apply (stake_store_same q x).
  - apply unadopted_store; [|apply Hu]. intros _.
    pose proof (proj1 Hu q x Hx Hp) as Hq.
    pose proof (slots_link this (_handledPromise x) (_handledPromises x)) as E.
    rewrite El in E. unfold adopting in *. simpl in *. rewrite E.
    intros Hin. apply elem_of_app in Hin as [Hin|Hin]; [done|].
    apply list_elem_of_singleton in Hin. done.
Qed.

Lemma same_untouched w w' :
  heap w' = heap w → queued d w' = queued d w →
  untouched d w → untouched d w'.
Proof.
  intros Hh Hq [U B]. unfold untouched, unadopted, stake, waiting, spent_at.
  rewrite Hh, Hq. done.
Qed.

(** The procedures of the engine, when they are not called for [d]. *)
Lemma unpack_untouched n this v cb w w' :
  this ≠ d → ktarget cb ≠ d →
  cells_hold (λ p, p ≠ d) (λ k, ktarget k ≠ d) w → untouched d w →
  _unpack n this v cb w = Some w' →
  cells_hold (λ p, p ≠ d) (λ k, ktarget k ≠ d) w' ∧ untouched d w'.
Proof.
  intros Ht Hk Hc Hu E.
  destruct (unpack_keeps (keeps (untouched d)) (λ p, p ≠ d)
              (λ k, ktarget k ≠ d)) with (n := n) (this := this) (v := v)
    (cb := cb) (w := w) (w' := w') as [H1 H2]; try done.
  - intros m p st a wa wb Hp Hst Ea.
    exact (relay_untouched m p st a wa wb Hp Hst Ea).
  - intros m p st a wa wb Hp Hst Ea.
    exact (grab_untouched m p st a wa wb Hp Hst Ea).
  - intros p b wa. exact (running_untouched p b wa).
  - intros q t0 x wa Hq Hx Hp. exact (adopt_untouched q t0 x wa Hq Hx Hp).
  - intros c wa Ha. by apply (same_untouched wa).
  - split; [done|]. by apply H1.
Qed.

Lemma callk_untouched n k st v w w' :
  ktarget k ≠ d → is_pending st = false →
  cells_hold (λ p, p ≠ d) (λ k, ktarget k ≠ d) w → untouched d w →
  callk n k st v w = Some w' →
  cells_hold (λ p, p ≠ d) (λ k, ktarget k ≠ d) w' ∧ untouched d w'.
Proof.
  intros Hk Hst Hc Hu E.
  destruct (callk_keeps (keeps (untouched d)) (λ k, ktarget k ≠ d))
    with (n := n) (k := k) (st := st) (v := v) (w := w) (w' := w')
    as [H1 H2]; try done.
  - intros m p s a wa wb Hp Hs Ea.
    exact (relay_untouched m p s a wa wb Hp Hs Ea).
  - intros m p s a wa wb Hp Hs Ea.
    exact (grab_untouched m p s a wa wb Hp Hs Ea).
  - intros p b wa. exact (running_untouched p b wa).
  - split; [by apply (cells_hold_same _ _ w)|by apply H1].
Qed.

Lemma cb_untouched c w :
  cells_hold (λ p, p ≠ d) (λ k, ktarget k ≠ d) w → untouched d w →
  (∀ v w', call_resolve c v w = Some w' →
     cells_hold (λ p, p ≠ d) (λ k, ktarget k ≠ d) w' ∧ untouched d w')
  ∧ (∀ r w', call_reject c r w = Some w' →
       cells_hold (λ p, p ≠ d) (λ k, ktarget k ≠ d) w' ∧ untouched d w').
Proof.
  intros Hc Hu. split.
  - intros v w' E. unfold call_resolve, resolve_cb in E.
    destruct (cells w !! c) as [[[this k]|]|] eqn:Ec; simplify_eq; [|done..].
    destruct (_unpack _ this v k w) as [w1|] eqn:E1; simplify_eq/=.
    destruct (Forall_lookup_1 _ _ _ _ Hc Ec) as [Ht Hk].
    destruct (unpack_untouched _ this v k w w1 Ht Hk Hc Hu E1) as [C1 U1].
    split; [by apply cells_hold_clear|by apply (same_untouched w1)].
  - intros r w' E. unfold call_reject, reject_cb in E.
    destruct (cells w !! c) as [[[this k]|]|] eqn:Ec; simplify_eq; [|done..].
    destruct (callk _ k rejected r w) as [w1|] eqn:E1; simplify_eq/=.
    destruct (Forall_lookup_1 _ _ _ _ Hc Ec) as [Ht Hk].
    destruct (callk_untouched _ k rejected r w w1 Hk eq_refl Hc Hu E1)
      as [C1 U1].
    split; [by apply cells_hold_clear|by apply (same_untouched w1)].
Qed.

Lemma spent_construct x w :
  is_pending (_state x) = true →
  spent_at d (construct x w).2 = spent_at d w.
Proof.
  intros Hp. unfold spent_at. simpl.
  destruct (decide (d < length (heap w))) as [Hlt|Hge].
  - by rewrite lookup_app_l.
  - rewrite (lookup_ge_None_2 (heap w) d) by lia.
    destruct (decide (d = length (heap w))) as [->|Hne].
    + rewrite list_lookup_middle by done. simpl. unfold spent. by rewrite Hp.
    + rewrite lookup_ge_None_2; [done|]. rewrite length_app. simpl. lia.
Qed.

Lemma unadopted_construct x w :
  adopting x = [] → unadopted d w → unadopted d (construct x w).2.
Proof.
  intros Hx Hu p y Hy Hpy. simpl in Hy.
  apply lookup_app_Some in Hy as [Hy|[_ Hy]]; [by eapply Hu|].
  apply list_lookup_singleton_Some in Hy as [_ <-]. rewrite Hx.
  apply not_elem_of_nil.
Qed.

(** A promise created pending, with nothing chained on it. *)
Lemma construct_untouched x w :
  is_pending (_state x) = true → weight d x = 0 → adopting x = [] →
  untouched d w → untouched d (construct x w).2.
Proof.
  intros Hp Hw Ha [U B]. split; [by apply unadopted_construct|].
  unfold stake. rewrite waiting_construct, Hw, (spent_construct x w Hp).
  change (queued d (construct x w).2) with (queued d w).
  unfold stake in B. simpl. rewrite length_app. simpl.
  repeat case_decide; lia.
Qed.

(** [then]: the promise returned was not there, so that it had no
    stake; it has one now. *)
Lemma then_untouched this a b w n w' :
  then_ this a b w = Some (n, w') → untouched d w → untouched d w'.
Proof.
  destruct (heap w !! this) as [x|] eqn:Hx; [|unfold then_; by rewrite Hx].
  destruct (is_pending (_state x)) eqn:Hp.
  - rewrite (then_pending this a b w x Hx Hp). intros ?; simplify_eq.
    change (with_heap _ w)
      with (construct (attached_by a b)
              (store this (link1 x (length (heap w))) w)).2.
    intros [U B].
    set (w0 := store this (link1 x (length (heap w))) w).
    assert (unadopted d w0) as U0.
    { apply unadopted_store; [|done]. intros _. by apply (U this x). }
    assert (stake d w0 = stake d w + bump d (length (heap w))) as S0.
    { pose proof (stake_store this x (link1 x (length (heap w))) w Hx) as H.
      assert (weight d (link1 x (length (heap w)))
              = weight d x + bump d (length (heap w))) as Hl.
      { unfold weight. rewrite link1_state, Hp. unfold link1. simpl.
        rewrite slots_link, occurs_app. simpl.
        rewrite occurs_cons. unfold occurs. simpl. lia. }
      unfold spent in H. rewrite link1_state in H. fold w0 in H. lia. }
    split; [by apply unadopted_construct|].
    unfold stake. rewrite waiting_construct.
    change (weight d (attached_by a b)) with 0.
    rewrite (spent_construct (attached_by a b) w0 eq_refl).
    change (queued d (construct _ w0).2) with (queued d w0).
    unfold stake in *.
    assert (length (heap (construct (attached_by a b) w0).2)
            = S (length (heap w))) as ->.
    { simpl. rewrite length_app, length_insert. simpl. lia. }
    unfold bump in S0. repeat case_decide; lia.
  - rewrite (then_settled this a b w x Hx Hp). intros ?; simplify_eq.
    intros [U B]. destruct (handler_for _ _) as [h|].
    + set (w0 := (construct (set_running true (attached_by a b)) w).2).
      change (queue w) with (queue w0).
      assert (untouched d w0) as [U0 B0].
      { by apply construct_untouched. }
      split; [done|]. rewrite stake_enqueue. simpl target.
      assert (stake d w0 = stake d w) as S0.
      { unfold stake, w0. rewrite waiting_construct.
        rewrite (spent_construct (set_running true (attached_by a b)) w eq_refl).
        change (queued d (construct _ w).2) with (queued d w).
        change (weight d (set_running true (attached_by a b))) with 0. lia. }
      rewrite S0.
      assert (length (heap (with_queue
                (queue w0 ++ [TRun (length (heap w)) h (_valueOrReason x)]) w0))
              = S (length (heap w))) as ->.
      { simpl. rewrite length_app. simpl. lia. }
      unfold bump. repeat case_decide; lia.
    + set (y := release (set_state (_state x) (_valueOrReason x)
                          (attached_by a b))).
      split; [by apply unadopted_construct|].
      unfold stake. rewrite waiting_construct.
      assert (weight d y = 0) as -> by (unfold weight, y; simpl; by rewrite Hp).
      change (queued d (construct y w).2) with (queued d w).
      assert (spent_at d (construct y w).2
              = spent_at d w + bump d (length (heap w))) as ->.
      { unfold spent_at, bump. simpl.
        destruct (decide (d < length (heap w))) as [Hlt|Hge].
        - rewrite lookup_app_l by done. rewrite decide_False by lia. lia.
        - rewrite (lookup_ge_None_2 (heap w) d) by lia.
          destruct (decide (length (heap w) = d)) as [<-|Hne].
          + rewrite list_lookup_middle by done. simpl. unfold spent, y.
            simpl. by rewrite Hp.
          + rewrite lookup_ge_None_2; [done|]. rewrite length_app. simpl. lia. }
      simpl. rewrite length_app. simpl.
      unfold stake in B. unfold bump. repeat case_decide; lia.
Qed.

Lemma filter_grows (P : task → Prop) `{!∀ t, Decision (P t)} (l l' : list task) :
  length (filter P l) ≤ length (filter P (l ++ l')).
Proof. rewrite filter_app, length_app. lia. Qed.

(** Every operation that is not [d.resolve(...)] or [d.reject(...)]. *)
Lemma step_poised o w w' :
  leaves d o → poised d w → step o w = Some w' → poised d w'.
Proof.
  intros Ho [Hl|[Hc Hu]] E.
  { (* a call has been made: the record only grows *)
    left. etrans; [exact Hl|].
    assert (∃ l, log w' = log w ++ l) as [l Hlog];
      [|unfold logged; rewrite Hlog; apply filter_grows].
    destruct o as [|p a b|p v|p r| |c v|c r]; simpl in E.
    - simplify_eq. exists []. by rewrite app_nil_r.
    - destruct (then_ p a b w) as [[n w1]|] eqn:E1; simplify_eq/=.
      destruct (then_log_queue p a b w n w' E1) as (-> & _).
      exists []. by rewrite app_nil_r.
    - destruct (resolve_spec p v w) as (w1 & E1 & I). simplify_eq.
      rewrite (in_log _ _ I). exists []. by rewrite app_nil_r.
    - destruct (reject_spec p r w) as (w1 & E1 & Rl). simplify_eq.
      rewrite (in_log _ _ (rl_internal _ _ _ _ Rl)).
      exists []. by rewrite app_nil_r.
    - destruct (queue w) as [|t rest] eqn:Eq.
      + unfold tick in E. rewrite Eq in E. simplify_eq.
        exists []. by rewrite app_nil_r.
      + destruct (tick_step w t rest Eq) as (w1 & E1 & I). simplify_eq.
        rewrite (in_log _ _ I). by exists [t].
    - destruct (call_resolve_spec c v w) as (w1 & E1 & I). simplify_eq.
      rewrite (in_log _ _ I). exists []. by rewrite app_nil_r.
    - destruct (call_reject_spec c r w) as (w1 & E1 & I). simplify_eq.
      rewrite (in_log _ _ I). exists []. by rewrite app_nil_r. }
  destruct o as [|p a b|p v|p r| |c v|c r]; simpl in *.
  - simplify_eq. right. split; [done|]. by apply construct_untouched.
  - destruct (then_ p a b w) as [[n w1]|] eqn:E1; simplify_eq/=.
    right. split; [|by eapply then_untouched].
    destruct (then_log_queue p a b w n w' E1) as (_ & C & _).
    by apply (cells_hold_same _ _ w).
  - right. by apply (unpack_untouched (pendings w) p v (KGrab p) w w').
  - right. unfold reject in E. split.
    + destruct (grab_relayed _ p rejected r w w' eq_refl E) as [Rl _].
      apply (cells_hold_same _ _ w); [apply Rl|done].
    + by apply (grab_untouched (pendings w) p rejected r w w').
  - unfold tick in E. destruct (queue w) as [|[c h a] rest] eqn:Eq.
    { simplify_eq. right. by split. }
    destruct (decide (c = d)) as [->|Hne].
    + (* the call of the handler of [d] *)
      left. destruct (tick_step w (TRun d h a) rest Eq) as (w1 & E1 & I).
      unfold tick in E1. rewrite Eq in E1. rewrite E in E1. simplify_eq.
      unfold logged. rewrite (in_log _ _ I). simpl.
      rewrite filter_app, length_app, filter_cons, decide_True by done.
      simpl. lia.
    + right. set (w1 := begin_task (TRun c h a) rest w) in *.
      assert (untouched d w1) as U1.
      { apply (same_untouched w); [done| |done].
        unfold queued. simpl. rewrite Eq, filter_cons.
        by rewrite decide_False. }
      destruct (hbody h a) as [ret|error].
      * by apply (unpack_untouched (pendings w1) c ret (KRelay c) w1 w').
      * by apply (callk_untouched (pendings w1) (KRelay c) rejected error w1 w').
  - right. by eapply (proj1 (cb_untouched c w Hc Hu)).
  - right. by eapply (proj2 (cb_untouched c w Hc Hu)).
Qed.

Lemma steps_poised os : ∀ w w',
  Forall (leaves d) os → poised d w → steps os w = Some w' → poised d w'.
Proof.
  induction os as [|o os IH]; intros w w' Hos Hp Hs; simpl in Hs.
  - by simplify_eq.
  - apply Forall_cons in Hos as [Ho Hos].
    destruct (step o w) as [w1|] eqn:E; simplify_eq/=.
    apply (IH w1 w' Hos); [|done]. by eapply step_poised.
Qed.

Lemma poised_empty : poised d empty.
Proof.
  right. split; [apply Forall_nil_2|]. split.
  - intros p x Hx. by destruct p.
  - unfold stake, waiting, queued, spent_at. simpl.
    destruct (decide (d < 0)); simpl; lia.
Qed.
End poised.

(** X17.  A promise is still pending when the call of its handler runs.
    In every run of operations from the start that does not call
    [resolve] or [reject] on the promise [d] itself, whenever a call of
    a handler of [d] is queued, [d] is pending: nothing settles it
    between the moment its handler is scheduled and the moment the
    handler is called. *)
Theorem queued_promise_is_pending os w d h a :
  steps os empty = Some w → Forall (leaves d) os →
  TRun d h a ∈ queue w →
  state_of d w = Some pending.
Proof.
  intros Hs Hos Hin.
  assert (1 ≤ queued d w) as Hq.
  { unfold queued.
    assert (TRun d h a ∈ filter (λ t, target t = d) (queue w)) as Hf
      by by apply list_elem_of_filter.
    destruct (filter _ (queue w)); [by apply elem_of_nil in Hf|simpl; lia]. }
  assert (once d w) as Ho.
  { refine (steps_once d os empty w _ _ Hos Hs).
    - unfold once.
      destruct (decide (d < length (heap empty)));
        unfold due, waiting, calls; simpl; lia.
    - apply Forall_nil_2. }
  assert (calls d w = logged d w + queued d w) as Hc.
  { unfold calls, logged, queued. by rewrite filter_app, length_app. }
  destruct (steps_poised d os empty w Hos (poised_empty d) Hs)
    as [Hl|[_ [_ B]]].
  { unfold once, due in Ho. revert Ho. case_decide; lia. }
  unfold stake, spent_at in B. unfold state_of.
  destruct (decide (d < length (heap w))) as [Hlt|Hge]; [|lia].
  destruct (lookup_lt_is_Some_2 (heap w) d Hlt) as [x Hx].
  rewrite Hx in *. simpl in *. unfold spent in B.
  destruct (_state x); simpl in *; [done|lia..].
Qed.

Lemma queued_promise_is_pending_witness :
  ∃ w, steps [ONew; OThen 0 (AFn pass) (AFn recover); ONew;
              OResolve 2 (VPromise 1); OResolve 0 (VNum 5)] empty = Some w
    ∧ Forall (leaves 1)
        [ONew; OThen 0 (AFn pass) (AFn recover); ONew;
         OResolve 2 (VPromise 1); OResolve 0 (VNum 5)]
    ∧ TRun 1 pass (VNum 5) ∈ queue w
    ∧ state_of 1 w = Some pending.
Proof.
  eexists. split; [vm_compute; reflexivity|].
  assert (Forall (leaves 1)
            [ONew; OThen 0 (AFn pass) (AFn recover); ONew;
             OResolve 2 (VPromise 1); OResolve 0 (VNum 5)]) as Hos.
  { repeat constructor; simpl; lia. }
  assert (TRun 1 pass (VNum 5) ∈ [TRun 1 pass (VNum 5)]) as Hin
    by apply list_elem_of_here.
  split; [exact Hos|]. split; [exact Hin|].
  exact (queued_promise_is_pending
           [ONew; OThen 0 (AFn pass) (AFn recover); ONew;
            OResolve 2 (VPromise 1); OResolve 0 (VNum 5)]
           _ 1 pass (VNum 5) eq_refl Hos Hin).
Defined.

Lemma occurs_present (d : id) (l : list id) : d ∈ l → 1 ≤ occurs d l.
Proof.
  intros Hin. unfold occurs.
  assert (d ∈ filter (λ c, c = d) l) as Hf by by apply list_elem_of_filter.
  destruct (filter _ l); [by apply elem_of_nil in Hf|simpl; lia].
Qed.

Lemma waiting_present (d p : id) (x : Promise) (w : world) :
  heap w !! p = Some x → is_pending (_state x) = true →
  d ∈ slots (_chainedPromise x) (_chainedPromises x) →
  1 ≤ waiting d w.
Proof.
  intros Hx Hp Hin. unfold waiting.
  etrans; [|apply (sum_list_with_in x); by eapply list_elem_of_lookup_2].
  unfold weight. rewrite Hp. by apply occurs_present.
Qed.

(** X18.  A promise waits for the promise it is chained on.  In every
    run of operations from the start that does not call [resolve] or
    [reject] on the promise [d] itself, as long as the promise whose
    [then] returned [d] is pending and holds [d], [d] is pending, and no
    call of a handler of [d] has been made or queued. *)
Theorem chained_promise_is_pending os w d p x :
  steps os empty = Some w → Forall (leaves d) os →
  heap w !! p = Some x → is_pending (_state x) = true →
  d ∈ slots (_chainedPromise x) (_chainedPromises x) →
  state_of d w = Some pending
  ∧ length (filter (λ t, target t = d) (log w ++ queue w)) = 0.
Proof.
  intros Hs Hos Hx Hp Hin.
  pose proof (waiting_present d p x w Hx Hp Hin) as Hw.
  assert (once d w) as Ho.
  { refine (steps_once d os empty w _ _ Hos Hs).
    - unfold once.
      destruct (decide (d < length (heap empty)));
        unfold due, waiting, calls; simpl; lia.
    - apply Forall_nil_2. }
  assert (calls d w = 0) as Hc.
  { unfold once, due in Ho. revert Ho. case_decide; lia. }
  split; [|exact Hc].
  assert (logged d w = 0) as Hl.
  { unfold calls in Hc. rewrite filter_app, length_app in Hc.
    unfold logged. lia. }
  destruct (steps_poised d os empty w Hos (poised_empty d) Hs)
    as [?|[_ [_ B]]]; [lia|].
  unfold stake, spent_at in B. unfold state_of.
  destruct (decide (d < length (heap w))) as [Hlt|Hge]; [|lia].
  destruct (lookup_lt_is_Some_2 (heap w) d Hlt) as [y Hy].
  rewrite Hy in *. simpl in *. unfold spent in B.
  destruct (_state y); simpl in *; [done|lia..].
Qed.

Lemma chained_promise_is_pending_witness :
  ∃ w, steps [ONew; OThen 0 (AFn pass) (AFn recover); ONew;
              OResolve 2 (VPromise 1); OResolve 2 (VNum 5)] empty = Some w
    ∧ Forall (leaves 1)
        [ONew; OThen 0 (AFn pass) (AFn recover); ONew;
         OResolve 2 (VPromise 1); OResolve 2 (VNum 5)]
    ∧ heap w !! 0 = Some (set_chained (Some 1) None fresh)
    ∧ is_pending (_state (set_chained (Some 1) None fresh)) = true
    ∧ 1 ∈ slots (_chainedPromise (set_chained (Some 1) None fresh))
              (_chainedPromises (set_chained (Some 1) None fresh))
    ∧ state_of 1 w = Some pending
    ∧ length (filter (λ t, target t = 1) (log w ++ queue w)) = 0.
Proof.
  eexists. split; [vm_compute; reflexivity|].
  assert (Forall (leaves 1)
            [ONew; OThen 0 (AFn pass) (AFn recover); ONew;
             OResolve 2 (VPromise 1); OResolve 2 (VNum 5)]) as Hos.
  { repeat constructor; simpl; lia. }
  assert (1 ∈ slots (_chainedPromise (set_chained (Some 1) None fresh))
                (_chainedPromises (set_chained (Some 1) None fresh))) as Hin
    by apply list_elem_of_here.
  split; [exact Hos|]. split; [reflexivity|]. split; [reflexivity|].
  split; [exact Hin|].
  exact (chained_promise_is_pending
           [ONew; OThen 0 (AFn pass) (AFn recover); ONew;
            OResolve 2 (VPromise 1); OResolve 2 (VNum 5)]
           _ 1 0 (set_chained (Some 1) None fresh) eq_refl Hos eq_refl eq_refl
           Hin).
Defined.


(** ** C7: many handlers on one future *)

(** [p0 = new Promise()] with nothing queued: a closed world. *)
Lemma one_pending_closed : closed one_pending.
Proof.
  apply (closed_steps [ONew] empty); [apply closed_empty|by split|done].
Qed.

Lemma steps_app (os1 os2 : list op) (w : world) :
  steps (os1 ++ os2) w = steps os1 w ≫= steps os2.
Proof.
  revert w. induction os1 as [|o os1 IH]; intros w; simpl; [done|].
  destruct (step o w) as [w1|]; simpl; [apply IH|done].
Qed.

Lemma sum_list_with_zero {A} (f : A → nat) (l : list A) :
  (∀ x, x ∈ l → f x = 0) → sum_list_with f l = 0.
Proof.
  induction l as [|x l IH]; intros H; simpl; [done|].
  rewrite (H x) by apply list_elem_of_here. rewrite IH; [done|].
  intros y Hy. apply H. by apply list_elem_of_further.
Qed.

Section fan_out.
Context (d : id).
Implicit Types (w : world) (p q c f this : id) (x y : Promise) (t : task).

(** A promise that is not yet in a closed world is in no chain, has no
    call queued and no callback handed out for it. *)
Lemma closed_untouched w :
  closed w → length (heap w) ≤ d →
  cells_hold (λ p, p ≠ d) (λ k, ktarget k ≠ d) w ∧ untouched d w.
Proof.
  intros (Hb & Hq & Hc) Hd. split; [|split].
  - eapply Forall_impl; [exact Hc|]. intros [[p k]|]; [|done]. simpl. lia.
  - intros p x Hx Hp Hin.
    assert (d < length (heap w)); [|lia].
    eapply Hb; [exact Hx|done|]. apply elem_of_app. by right.
  - assert (waiting d w = 0) as Hw.
    { apply sum_list_with_zero. intros x Hin.
      apply list_elem_of_lookup_1 in Hin as [p Hx]. unfold weight.
      destruct (is_pending (_state x)) eqn:Hp; [|done].
      apply occurs_absent. intros Hin.
      assert (d < length (heap w)); [|lia].
      eapply Hb; [exact Hx|done|]. apply elem_of_app. by left. }
    assert (queued d w = 0) as Hqd.
    { unfold queued. rewrite filter_none; [done|].
      eapply Forall_impl; [exact Hq|]. simpl. intros. lia. }
    assert (spent_at d w = 0) as Hs.
    { unfold spent_at. by rewrite lookup_ge_None_2. }
    unfold stake. rewrite Hw, Hqd, Hs. case_decide; lia.
Qed.

(** Attaching handlers to another promise leaves it so. *)
Lemma attach_untouched f : ∀ (hs : list (handler * jsarg)) w ds w',
  attach_all f hs w = Some (ds, w') →
  cells_hold (λ p, p ≠ d) (λ k, ktarget k ≠ d) w ∧ untouched d w →
  cells_hold (λ p, p ≠ d) (λ k, ktarget k ≠ d) w' ∧ untouched d w'.
Proof.
  induction hs as [|[h r] hs IH]; intros w ds w' E [Hc Hu]; simpl in E.
  - by simplify_eq.
  - destruct (then_ f (AFn h) r w) as [[n w1]|] eqn:E1; [|discriminate].
    simpl in E.
    destruct (attach_all f hs w1) as [[ds' w2]|] eqn:E2; [|discriminate].
    simpl in E. injection E as <- <-.
    apply (IH w1 ds' w2 E2).
    destruct (then_log_queue f (AFn h) r w n w1 E1) as (_ & C & _).
    split; [by apply (cells_hold_same _ _ w)|by eapply then_untouched].
Qed.

(** The calls queued before the call for [d] run without settling
    [d]. *)
Lemma ticks_untouched : ∀ (ts : list task) w rest,
  queue w = ts ++ rest → Forall (λ t, target t ≠ d) ts →
  cells_hold (λ p, p ≠ d) (λ k, ktarget k ≠ d) w → untouched d w →
  ∃ w' extra, steps (replicate (length ts) OTick) w = Some w'
    ∧ queue w' = rest ++ extra
    ∧ cells_hold (λ p, p ≠ d) (λ k, ktarget k ≠ d) w' ∧ untouched d w'.
Proof.
  induction ts as [|[c h a] ts IH]; intros w rest Hq Hts Hc Hu.
  - exists w, []. by rewrite app_nil_r.
  - apply Forall_cons in Hts as [Hne Hts]. simpl in Hne.
    destruct (tick_step w (TRun c h a) (ts ++ rest) Hq) as (w1 & E & I).
    change (steps (replicate (length (TRun c h a :: ts)) OTick) w)
      with (tick w ≫= steps (replicate (length ts) OTick)).
    rewrite E. cbn [mbind option_bind].
    assert (cells_hold (λ p, p ≠ d) (λ k, ktarget k ≠ d) w1 ∧ untouched d w1)
      as [C1 U1].
    { set (w0 := begin_task (TRun c h a) (ts ++ rest) w) in *.
      assert (untouched d w0) as U0.
      { apply (same_untouched d w); [done| |done].
        unfold queued. rewrite Hq. simpl.
        rewrite filter_cons. by rewrite decide_False. }
      assert (cells_hold (λ p, p ≠ d) (λ k, ktarget k ≠ d) w0) as C0
        by by apply (cells_hold_same _ _ w).
      rewrite (tick_unfold w c h a (ts ++ rest) Hq) in E.
      destruct (hbody h a) as [ret|error].
      - by apply (unpack_untouched d (pendings w) c ret (KRelay c) w0 w1).
      - by apply (callk_untouched d (pendings w) (KRelay c) rejected error
                    w0 w1). }
    destruct (in_queue _ _ I) as [e1 Q1]. simpl in Q1.
    destruct (IH w1 (rest ++ e1)) as (w' & extra & E' & Q & C & U);
      [by rewrite Q1, app_assoc|done..|].
    exists w', (e1 ++ extra). split; [done|].
    split; [by rewrite Q, app_assoc|done].
Qed.

(** So that [d] is pending when its call is the oldest queued. *)
Lemma queued_untouched_pending h a rest w :
  queue w = TRun d h a :: rest → untouched d w →
  ∃ x, heap w !! d = Some x ∧ is_pending (_state x) = true.
Proof.
  intros Hq [_ B]. unfold stake, queued, spent_at in B.
  rewrite Hq, filter_cons, decide_True in B by done. simpl in B.
  destruct (decide (d < length (heap w))) as [Hlt|Hge]; [|lia].
  destruct (lookup_lt_is_Some_2 (heap w) d Hlt) as [x Hx].
  rewrite Hx in B. simpl in B. exists x. split; [done|].
  unfold spent in B. destruct (is_pending (_state x)); [done|lia].
Qed.

(** The call itself: the handler is applied to the argument queued, and
    what it throws or returns settles [d]. *)
Lemma tick_outcome h a rest w x :
  queue w = TRun d h a :: rest →
  heap w !! d = Some x → is_pending (_state x) = true →
  ∃ w', tick w = Some w'
    ∧ match hbody h a with
      | Throw e => state_of d w' = Some rejected ∧ result_of d w' = Some e
      | Return v =>
          plain v = true →
          state_of d w' = Some fulfilled ∧ result_of d w' = Some v
      end.
Proof.
  intros Hq Hx Hp. rewrite (tick_unfold w d h a rest Hq).
  set (w1 := begin_task (TRun d h a) rest w).
  assert (heap w1 !! d = Some x) as Hx1 by done.
  destruct (hbody h a) as [v|e].
  - destruct (unpack_spec (pendings w) d v (KRelay d) w1) as (w' & E & _);
      [done|].
    exists w'. split; [done|]. intros Hv.
    rewrite (unpack_plain _ _ _ _ _ Hv) in E.
    destruct (callk_relay_settles (pendings w) d fulfilled v w1 x)
      as (w'' & E' & _ & S); [done..|].
    rewrite E in E'. by simplify_eq.
  - destruct (callk_relay_settles (pendings w) d rejected e w1 x)
      as (w' & E & _ & S); [done..|].
    by exists w'.
Qed.

(** Running a queue in which the call [h(a)] for an untouched [d]
    stands once, behind calls for other promises. *)
Lemma run_queue_outcome (before after : list task) h a w w' :
  queue w = before ++ TRun d h a :: after →
  Forall (λ t, target t ≠ d) before →
  cells_hold (λ p, p ≠ d) (λ k, ktarget k ≠ d) w → untouched d w →
  steps (replicate (length (queue w)) OTick) w = Some w' →
  match hbody h a with
  | Throw e => state_of d w' = Some rejected ∧ result_of d w' = Some e
  | Return v =>
      plain v = true →
      state_of d w' = Some fulfilled ∧ result_of d w' = Some v
  end.
Proof.
  intros Hq Hb Hc Hu E.
  destruct (ticks_untouched before w (TRun d h a :: after) Hq Hb Hc Hu)
    as (wa & extra & Ea & Qa & Ca & Ua).
  destruct (queued_untouched_pending h a (after ++ extra) wa Qa Ua)
    as (x & Hx & Hp).
  destruct (tick_outcome h a (after ++ extra) wa x Qa Hx Hp) as (wb & Eb & Sb).
  rewrite Hq, length_app in E. simpl in E.
  rewrite replicate_add, steps_app, Ea in E. cbn [mbind option_bind] in E.
  change (steps (replicate (S (length after)) OTick) wa)
    with (tick wa ≫= steps (replicate (length after) OTick)) in E.
  rewrite Eb in E. cbn [mbind option_bind] in E.
  pose proof (steps_mono _ _ _ E) as M.
  destruct (hbody h a) as [v|e].
  - intros Hv. destruct (Sb Hv) as [S1 S2].
    by apply (mono_reading wb w' d fulfilled v M).
  - destruct Sb as [S1 S2]. by apply (mono_reading wb w' d rejected e M).
Qed.
End fan_out.

(** C7.  In a world that holds no reference to a promise it does not
    hold, let [hs] be a list of fulfilment handlers, each with whatever
    second argument, attached in turn to a pending future [f], and let
    [f] then be fulfilled with [a].  The futures [then] returned are the
    promises [ds] created from the end of the store on; among the queued
    tasks those for [ds] are exactly the calls [h(a)] of the handlers in
    [hs], in the order of attachment, one for each; and running the
    queue makes the queued calls, in the order of the queue.  Each
    handler is applied to [a], and what it does settles the future its
    [then] returned: that future ends rejected with what the handler
    throws when applied to [a], and fulfilled with what it returns when
    that is no promise and has no [then] to call.  The calls are made
    in the order of attachment, in consecutive turns of the event loop:
    after [m + i] turns the call of the handler attached as number [i]
    is the oldest queued, and its future is still pending. *)
Theorem fan_out w f x (hs : list (handler * jsarg)) a :
  closed w → heap w !! f = Some x → is_pending (_state x) = true →
  ∃ w1 w2 w3,
    attach_all f hs w = Some (seq (length (heap w)) (length hs), w1)
    ∧ _relay (pendings w1) f fulfilled a w1 = Some w2
    ∧ state_of f w2 = Some fulfilled ∧ result_of f w2 = Some a
    ∧ filter (λ t, length (heap w) ≤ target t) (queue w2)
      = zip_with (λ d h, TRun d h a) (seq (length (heap w)) (length hs)) (hs.*1)
    ∧ steps (replicate (length (queue w2)) OTick) w2 = Some w3
    ∧ log w3 = log w ++ queue w2
    ∧ (∀ i h r, hs !! i = Some (h, r) →
        match hbody h a with
        | Throw e =>
            state_of (length (heap w) + i) w3 = Some rejected
            ∧ result_of (length (heap w) + i) w3 = Some e
        | Return v =>
            plain v = true →
            state_of (length (heap w) + i) w3 = Some fulfilled
            ∧ result_of (length (heap w) + i) w3 = Some v
        end)
    ∧ ∃ m, ∀ i h r, hs !! i = Some (h, r) →
        ∃ wa rest,
          steps (replicate (m + i) OTick) w2 = Some wa
          ∧ queue wa = TRun (length (heap w) + i) h a :: rest
          ∧ state_of (length (heap w) + i) wa = Some pending.
Proof.
  intros Hcl Hx Hp. pose proof Hcl as (Hb & Hq & _).
  pose proof (attach_all_spec f hs w x Hx Hp) as Hatt.
  set (n0 := length (heap w)) in *. set (ds := seq n0 (length hs)) in *.
  rewrite Hatt.
  set (xN := foldl link1 x ds) in *.
  set (w1 := with_heap (<[f := xN]> (heap w) ++ (attached <$> hs)) w) in *.
  destruct (link_all_spec ds x) as (SN & LN1 & LN2 & LN3). fold xN in SN, LN1, LN2, LN3.
  assert (f < n0) as Hf by by eapply lookup_lt_Some.
  assert (heap w1 !! f = Some xN) as Hf1.
  { unfold w1. simpl. rewrite lookup_app_l by by rewrite length_insert.
    by apply list_lookup_insert_eq. }
  assert (is_pending (_state xN) = true) as HpN by by rewrite SN.
  assert (∀ p, p < n0 → p ≠ f → heap w1 !! p = heap w !! p) as Hold.
  { intros p Hlt Hne. unfold w1. simpl.
    rewrite lookup_app_l by by rewrite length_insert.
    by apply list_lookup_insert_ne. }
  assert (∀ i hr, hs !! i = Some hr → heap w1 !! (n0 + i) = Some (attached hr))
    as Hnew.
  { intros i hr Hi. unfold w1. simpl.
    rewrite lookup_app_r by (rewrite length_insert; fold n0; lia).
    rewrite length_insert. fold n0. replace (n0 + i - n0) with i by lia.
    by rewrite list_lookup_fmap, Hi. }
  (* the relay, by its parts *)
  destruct (relay_spec (pendings w1) f fulfilled a w1) as (w2 & E & R & Sf);
    [done|done|].
  destruct (relayed_reading _ _ _ _ _ _ R Hf1 HpN Sf) as [S1 S2].
  exists w1, w2.
  pose proof E as Erelay.
  destruct (pendings w1) as [|k] eqn:Hk.
  { pose proof (pending_counted _ _ _ Hf1 HpN). lia. }
  destruct (relay_parts k f fulfilled a w1 w2 xN eq_refl Hf1 HpN E)
    as (wb & wc & Eb & Ec & -> & R1b & Rbc).
  set (w1' := store f (set_state fulfilled a xN) w1) in *.
  rewrite LN3, each_app in Eb. rewrite LN1, LN2 in Ec.
  destruct (each _ (slots (_chainedPromise x) (_chainedPromises x)) w1')
    as [wa|] eqn:Ea; [|discriminate]. cbn [mbind option_bind] in Eb.
  assert (below n0 w1') as Hb1.
  { intros p y c Hy Hpy Hc. unfold w1' in Hy.
    rewrite (lookup_store f p xN _ w1 Hf1) in Hy. case_decide as Hpf.
    { by simplify_eq. }
    destruct (decide (p < n0)) as [Hlt|Hge].
    - rewrite Hold in Hy by done. by eapply Hb.
    - assert (∃ i, p = n0 + i) as [i ->] by (exists (p - n0); lia).
      destruct (hs !! i) as [hr|] eqn:Hi.
      + rewrite (Hnew i hr Hi) in Hy. simplify_eq. simpl in Hc.
        by apply elem_of_nil in Hc.
      + apply lookup_lt_Some in Hy. apply lookup_ge_None in Hi.
        unfold w1 in Hy. simpl in Hy.
        rewrite length_app, length_insert, length_fmap in Hy. fold n0 in Hy. lia. }
  assert (frame n0 w1' wa) as F1a.
  { eapply (each_sound_in (frame n0)); [|exact Ea].
    intros c Hc wx wy.
    assert (c < n0) as Hlt
      by (eapply Hb; [exact Hx|done|]; apply elem_of_app; by left).
    apply grab_frame; [done|]. intros wx' wy'. by apply relay_frame. }
  destruct (F1a Hb1) as (Keep & Hba & pre & Qa & Tpre).
  (* the new futures are served, each by a queued call *)
  destruct (each_grab_run k fulfilled a ds (hs.*1) wa) as (wb' & Eb' & Qb).
  { unfold ds. by rewrite length_seq, length_fmap. }
  { intros i d h Hd Hh. apply lookup_seq in Hd as [-> Hi].
    rewrite list_lookup_fmap in Hh.
    destruct (hs !! i) as [hr|] eqn:Hhr; [|discriminate Hh].
    injection Hh as <-.
    exists (attached hr). split; [|done].
    rewrite Keep by lia. unfold w1'. rewrite lookup_store_ne by lia.
    by apply Hnew. }
  rewrite Eb' in Eb. simplify_eq.
  assert (relayed fulfilled a wa wb) as Rab.
  { eapply (each_sound (relayed fulfilled a)); [|exact Eb'].
    intros c wx wy Hc. by destruct (grab_relayed k c fulfilled a wx wy eq_refl Hc). }
  assert (below n0 wb) as Hbb by by eapply below_relayed.
  assert (frame n0 wb wc) as Fbc.
  { eapply (each_sound_in (frame n0)); [|exact Ec].
    intros c Hc wx wy. apply relay_frame; [done|].
    eapply Hb; [exact Hx|done|]. apply elem_of_app. by right. }
  destruct (Fbc Hbb) as (_ & _ & post & Qc & Tpost).
  set (w2 := modify f release wc) in *.
  assert (queue w2
          = queue w ++ pre ++ zip_with (λ d h, TRun d h a) ds (hs.*1) ++ post)
    as Q.
  { transitivity (queue wc); [by unfold w2, modify; destruct (heap wc !! f)|].
    rewrite Qc, Qb, Qa. simpl. by rewrite <- !app_assoc. }
  destruct (run_queue (queue w2) w2 []) as (w3 & extra & E3 & L & _);
    [by rewrite app_nil_r|].
  exists w3.
  split; [done|]. split; [done|]. split; [done|]. split; [done|].
  set (calls := zip_with (λ d h, TRun d h a) ds (hs.*1)) in *.
  assert (∀ i h r, hs !! i = Some (h, r) →
            cells_hold (λ p, p ≠ n0 + i) (λ k, ktarget k ≠ n0 + i) w2
            ∧ untouched (n0 + i) w2
            ∧ queue w2 = (queue w ++ pre ++ take i calls)
                           ++ TRun (n0 + i) h a :: (drop (S i) calls ++ post)
            ∧ Forall (λ t, target t ≠ n0 + i) (queue w ++ pre ++ take i calls))
    as Hrun.
  { intros i h r Hi.
    assert (cells_hold (λ p, p ≠ n0 + i) (λ k, ktarget k ≠ n0 + i) w2
            ∧ untouched (n0 + i) w2) as [C2 U2].
    { destruct (attach_untouched (n0 + i) f hs w ds w1 Hatt) as [C1 U1].
      { apply closed_untouched; [done|]. fold n0. lia. }
      split.
      - apply (cells_hold_same _ _ w1); [|done]. apply R.
      - assert (f ≠ n0 + i) as Hne by lia.
        exact (relay_untouched (n0 + i) _ f fulfilled a w1 w2 Hne eq_refl
                 Erelay U1). }
    assert (calls !! i = Some (TRun (n0 + i) h a)) as Hcall.
    { unfold calls. apply lookup_zip_with_Some. exists (n0 + i), h.
      split; [done|]. split.
      - unfold ds. apply lookup_seq. split; [done|]. by eapply lookup_lt_Some.
      - by rewrite list_lookup_fmap, Hi. }
    split; [done|]. split; [done|]. split.
    - rewrite Q. rewrite <- (take_drop_middle calls i _ Hcall) at 1.
      by rewrite <- !app_assoc.
    - apply Forall_app. split.
      { eapply Forall_impl; [exact Hq|]. simpl. intros. lia. }
      apply Forall_app. split.
      { eapply Forall_impl; [exact Tpre|]. simpl. intros. lia. }
      apply Forall_lookup. intros j t Ht.
      apply lookup_take_Some in Ht as [Ht Hj].
      apply lookup_zip_with_Some in Ht as (c & h' & -> & Hc & _).
      apply lookup_seq in Hc as [-> _]. simpl. lia. }
  split; [|split; [done|split; [|split]]].
  - rewrite Q, !filter_app.
    rewrite (filter_none _ (queue w)), (filter_none _ pre), (filter_none _ post).
    + rewrite app_nil_r. simpl. apply filter_all.
      apply Forall_lookup. intros i t Ht.
      apply lookup_zip_with_Some in Ht as (d & h & -> & Hd & _).
      apply lookup_seq in Hd as [-> _]. simpl. lia.
    + eapply Forall_impl; [exact Tpost|]. simpl. intros. lia.
    + eapply Forall_impl; [exact Tpre|]. simpl. intros. lia.
    + eapply Forall_impl; [exact Hq|]. simpl. intros. lia.
  - rewrite L. f_equal.
    rewrite (in_log _ _ (rl_internal _ _ _ _ R)). done.
  - (* each handler is applied to [a] and settles its future *)
    intros i h r Hi.
    destruct (Hrun i h r Hi) as (C2 & U2 & Hq2 & Hbefore).
    by apply (run_queue_outcome (n0 + i) (queue w ++ pre ++ take i calls)
                (drop (S i) calls ++ post) h a w2 w3).
  - (* one after another *)
    exists (length (queue w ++ pre)). intros i h r Hi.
    destruct (Hrun i h r Hi) as (C2 & U2 & Hq2 & Hbefore).
    destruct (ticks_untouched (n0 + i) (queue w ++ pre ++ take i calls) w2
                (TRun (n0 + i) h a :: drop (S i) calls ++ post)
                Hq2 Hbefore C2 U2)
      as (wi & more & Ei & Qi & Ci & Ui).
    destruct (queued_untouched_pending (n0 + i) h a _ wi Qi Ui)
      as (y & Hy & Hpy).
    exists wi, ((drop (S i) calls ++ post) ++ more).
    split; [|split; [done|by eapply state_of_pending]].
    rewrite <- Ei. do 2 f_equal.
    rewrite !length_app, length_take.
    assert (i < length calls) as Hlt.
    { unfold calls, ds. rewrite length_zip_with, length_seq, length_fmap.
      apply lookup_lt_Some in Hi. lia. }
    lia.
Qed.

Lemma fan_out_witness :
  closed one_pending
  ∧ heap one_pending !! 0 = Some fresh
  ∧ is_pending (_state fresh) = true
  ∧ ∃ w1 w2 w3,
      attach_all 0 [(pass, AVal VUndefined); (recover, AVal VNull);
                    (fail, AVal VNull)] one_pending
        = Some ([1; 2; 3], w1)
      ∧ _relay (pendings w1) 0 fulfilled (VNum 7) w1 = Some w2
      ∧ state_of 0 w2 = Some fulfilled ∧ result_of 0 w2 = Some (VNum 7)
      ∧ filter (λ t, 1 ≤ target t) (queue w2)
        = [TRun 1 pass (VNum 7); TRun 2 recover (VNum 7);
           TRun 3 fail (VNum 7)]
      ∧ steps (replicate (length (queue w2)) OTick) w2 = Some w3
      ∧ log w3 = log one_pending ++ queue w2
      ∧ (state_of 1 w3 = Some fulfilled ∧ result_of 1 w3 = Some (VNum 7))
      ∧ (state_of 2 w3 = Some fulfilled ∧ result_of 2 w3 = Some (VNum 0))
      ∧ (state_of 3 w3 = Some rejected ∧ result_of 3 w3 = Some (VStr "E")).
Proof.
  split; [apply one_pending_closed|]. split; [reflexivity|].
  split; [reflexivity|].
  destruct (fan_out one_pending 0 fresh
              [(pass, AVal VUndefined); (recover, AVal VNull);
               (fail, AVal VNull)] (VNum 7)
              one_pending_closed eq_refl eq_refl)
    as (w1 & w2 & w3 & H1 & H2 & H3 & H4 & H5 & H6 & H7 & H8 & _).
  exists w1, w2, w3.
  split; [exact H1|]. split; [exact H2|]. split; [exact H3|].
  split; [exact H4|]. split; [exact H5|]. split; [exact H6|].
  split; [exact H7|].
  split; [exact (H8 0 pass (AVal VUndefined) eq_refl eq_refl)|].
  split; [exact (H8 1 recover (AVal VNull) eq_refl eq_refl)|].
  exact (H8 2 fail (AVal VNull) eq_refl).
Defined.

(** Three handlers on [p0], then [p0.resolve(7)], then the queue run. *)
Example fan_out_run :
  ∃ w, steps [ONew; OThen 0 (AFn pass) (AVal VUndefined);
              OThen 0 (AFn recover) (AVal VUndefined);
              OThen 0 (AFn fail) (AVal VUndefined);
              OResolve 0 (VNum 7); OTick; OTick; OTick] empty = Some w
    ∧ log w = [TRun 1 pass (VNum 7); TRun 2 recover (VNum 7);
               TRun 3 fail (VNum 7)]
    ∧ queue w = []
    ∧ (state_of 1 w = Some fulfilled ∧ result_of 1 w = Some (VNum 7))
    ∧ (state_of 2 w = Some fulfilled ∧ result_of 2 w = Some (VNum 0))
    ∧ (state_of 3 w = Some rejected ∧ result_of 3 w = Some (VStr "E")).
Proof. eexists. split; [vm_compute; reflexivity|]. repeat split; reflexivity. Qed.

End ThenFail.
